(** * Patch optical flow: a shallow embedding of [PatchOpticalFlow]

    Source: [include/basalt/optical_flow/patch_optical_flow.h].

    The tracker is a C++ class template over a scalar type and a sampling
    pattern.  Its control flow (the pyramid loop, the Gauss-Newton loop, the
    bidirectional check, detection, the epipolar filter and the frame driver)
    is embedded here function by function.  Everything the header takes from
    other headers (Eigen and Sophus arithmetic, the image pyramid, the patch
    type, the detector, the calibration) is an operation of one of the two
    interfaces below, so that the theorems hold for every implementation of
    them, and a small integer implementation is used to run the code on
    concrete inputs. *)

From Stdlib Require Import ZArith List Lia Bool String.
From stdpp Require Import base option list gmap fin_maps.

Local Open Scope Z_scope.

(** ** Scalars

    [Scalar] is the template parameter (and the [float] of
    [Eigen::AffineCompact2f]); [double] is the type of the depth guess, of the
    detector's corners and of the epipolar threshold.  No rounding behaviour
    is assumed: the operations are abstract. *)

Class Numeric := {
  Scalar : Type;
  double : Type;
  s_add : Scalar -> Scalar -> Scalar;
  s_sub : Scalar -> Scalar -> Scalar;
  s_mul : Scalar -> Scalar -> Scalar;
  s_div : Scalar -> Scalar -> Scalar;
  s_neg : Scalar -> Scalar;
  s_abs : Scalar -> Scalar;
  s_max : Scalar -> Scalar -> Scalar;
  s_of_int : Z -> Scalar;
  s_leb : Scalar -> Scalar -> bool;
  s_ltb : Scalar -> Scalar -> bool;
  s_isFinite : Scalar -> bool;
  d_of_s : Scalar -> double;
  s_of_d : double -> Scalar;
  d_of_int : Z -> double;
  d_ltb : double -> double -> bool
}.

(** ** Fixed-width integers of the source *)

Definition int_min : Z := - 2 ^ 31.
Definition int_max : Z := 2 ^ 31 - 1.
Definition size_t_modulus : Z := 2 ^ 64.

(** Conversion to [int] (two's complement, 32 bits). *)
Definition to_int (z : Z) : Z := (z + 2 ^ 31) mod 2 ^ 32 - 2 ^ 31.

(** Conversion to [size_t] / [KeypointId] (64 bits, unsigned). *)
Definition to_size_t (z : Z) : Z := z mod size_t_modulus.

(** Modelled from the spec: the declaration of [KeypointId] is in a header
    that is not part of the sources at hand; the specification's data model
    gives the identifier as a monotonic 64-bit integer, so identifiers are the
    integers of [0, 2^64) and arithmetic on them wraps. *)
Abbreviation KeypointId := Z (only parsing).

(** [1 << level] on [int]. *)
Definition shl1 (level : Z) : Z := to_int (Z.shiftl 1 level).

Section Geometry.
Context {num : Numeric}.

Definition Vector2 : Type := (Scalar * Scalar)%type.
Definition Vector2d : Type := (double * double)%type.
Definition Vector3 : Type := (Scalar * Scalar * Scalar)%type.
Definition Matrix2 : Type := ((Scalar * Scalar) * (Scalar * Scalar))%type.

(** [Eigen::AffineCompact2f]: a 2x2 linear part and a translation. *)
Record Affine := mkAffine {
  linear : Matrix2;
  translation : Vector2
}.

Definition v2_add (a b : Vector2) : Vector2 :=
  (s_add (fst a) (fst b), s_add (snd a) (snd b)).

Definition v2_sub (a b : Vector2) : Vector2 :=
  (s_sub (fst a) (fst b), s_sub (snd a) (snd b)).

Definition v2_div (a : Vector2) (s : Scalar) : Vector2 :=
  (s_div (fst a) s, s_div (snd a) s).

Definition v2_scale (a : Vector2) (s : Scalar) : Vector2 :=
  (s_mul (fst a) s, s_mul (snd a) s).

Definition squaredNorm (a : Vector2) : Scalar :=
  s_add (s_mul (fst a) (fst a)) (s_mul (snd a) (snd a)).

Definition m2_mul_v2 (m : Matrix2) (v : Vector2) : Vector2 :=
  let '((a, b), (c, d)) := m in
  (s_add (s_mul a (fst v)) (s_mul b (snd v)),
   s_add (s_mul c (fst v)) (s_mul d (snd v))).

Definition m2_mul (m n : Matrix2) : Matrix2 :=
  let '((a, b), (c, d)) := m in
  let '((e, f), (g, h)) := n in
  ((s_add (s_mul a e) (s_mul b g), s_add (s_mul a f) (s_mul b h)),
   (s_add (s_mul c e) (s_mul d g), s_add (s_mul c f) (s_mul d h))).

Definition m2_identity : Matrix2 :=
  ((s_of_int 1, s_of_int 0), (s_of_int 0, s_of_int 1)).

(** [transform.translation() /= scale] and [transform.translation() *= scale]:
    the linear block is not written. *)
Definition div_translation (t : Affine) (scale : Scalar) : Affine :=
  {| linear := linear t; translation := v2_div (translation t) scale |}.

Definition mul_translation (t : Affine) (scale : Scalar) : Affine :=
  {| linear := linear t; translation := v2_scale (translation t) scale |}.

Definition set_translation (t : Affine) (v : Vector2) : Affine :=
  {| linear := linear t; translation := v |}.

(** [transform *= M] where [M] is the homogeneous matrix of a rigid motion
    with rotation block [r] and translation [p]: the product of the 2x3
    matrix [(linear | translation)] with [M]. *)
Definition affine_mul_se2 (t : Affine) (m : Matrix2 * Vector2) : Affine :=
  {| linear := m2_mul (linear t) (fst m);
     translation := v2_add (m2_mul_v2 (linear t) (snd m)) (translation t) |}.

(** [inc.array().isFinite().all()] *)
Definition v3_allFinite (v : Vector3) : bool :=
  let '(a, b, c) := v in s_isFinite a && s_isFinite b && s_isFinite c.

(** [inc.lpNorm<Eigen::Infinity>()] *)
Definition v3_lpNormInf (v : Vector3) : Scalar :=
  let '(a, b, c) := v in s_max (s_max (s_abs a) (s_abs b)) (s_abs c).

Definition v3_neg (v : Vector3) : Vector3 :=
  let '(a, b, c) := v in (s_neg a, s_neg b, s_neg c).

End Geometry.

(** ** What the header takes from the rest of the code base *)

Class Externals {num : Numeric} := {
  (** [Image<const uint16_t>], one pyramid level *)
  Image : Type;
  img_w : Image -> Z;
  img_h : Image -> Z;
  (** [Image::InBounds(p, border)] *)
  InBounds : Image -> Vector2 -> Scalar -> bool;
  (** the image payload of an input bundle ([ManagedImage<uint16_t>]) *)
  RawImage : Type;
  (** [ManagedImagePyr<uint16_t>] with [setFromImage] and [lvl] *)
  ManagedImagePyr : Type;
  setFromImage : RawImage -> Z -> ManagedImagePyr;
  lvl : ManagedImagePyr -> Z -> Image;
  (** [OpticalFlowPatch<Scalar, Pattern<Scalar>>] *)
  PatchT : Type;
  VectorP : Type;
  Matrix3P : Type;
  pattern2 : list Vector2;
  mkPatch : Image -> Vector2 -> PatchT;
  valid : PatchT -> bool;
  H_se2_inv_J_se2_T : PatchT -> Matrix3P;
  (** [dp.residual(img, transformed_pat, res)]: [None] when it returns false *)
  residual : PatchT -> Image -> list Vector2 -> option VectorP;
  (** the product of a 3xP matrix with a P-vector *)
  m3P_mul : Matrix3P -> VectorP -> Vector3;
  (** [Sophus::SE2::exp]: rotation block and translation of the result *)
  SE2_exp : Vector3 -> Matrix2 * Vector2;
  (** keypoint descriptors and detection masks *)
  Descriptor : Type;
  Masks : Type;
  (** [detectKeypoints; computeAngles; computeDescriptors] on the level-0
      image of camera 0: the corners with their descriptors.  The arguments
      are the image, grid size, points per cell, the two thresholds, the masks
      and the positions of the keypoints already tracked. *)
  detectKeypoints :
    Image -> Z -> Z -> Z -> Z -> Masks -> list Vector2d ->
    list (Vector2d * Descriptor);
  (** timing statistics carried by an input bundle, and [addTime] *)
  Stats : Type;
  addTime : string -> Stats -> Stats;
  (** homogeneous bearing vectors and the 4x4 essential matrix *)
  Vector4 : Type;
  Matrix4 : Type;
  (** [a.transpose() * E * b] *)
  bilinear4 : Vector4 -> Matrix4 -> Vector4 -> Scalar
}.

Inductive MatchingGuessType := SAME_PIXEL | REPROJ_FIX_DEPTH | REPROJ_AVG_DEPTH.

Global Instance MatchingGuessType_eq_dec : EqDecision MatchingGuessType.
Proof. solve_decision. Defined.

Section Tracker.
Context {num : Numeric} {ext : Externals}.

(** The fields of [VioConfig] read by the tracker. *)
Record VioConfig := {
  optical_flow_levels : Z;
  optical_flow_max_iterations : Z;
  optical_flow_max_recovered_dist2 : Scalar;
  optical_flow_epipolar_error : double;
  optical_flow_skip_frames : Z;
  optical_flow_detection_grid_size : Z;
  optical_flow_detection_num_points_cell : Z;
  optical_flow_detection_min_threshold : Z;
  optical_flow_detection_max_threshold : Z;
  optical_flow_matching_guess_type : MatchingGuessType;
  optical_flow_matching_default_depth : double
}.

(** The members of [Calibration<Scalar>] read by the tracker:
    [intrinsics.size()], [viewOffset], the per-camera [unproject] (applied
    point by point by the vectorised overload), and the essential matrix the
    constructor derives from the extrinsics of cameras 0 and 1. *)
Record Calibration := {
  intrinsics_size : nat;
  viewOffset : Vector2 -> double -> nat -> nat -> Vector2;
  unproject : nat -> Vector2 -> Vector4 * bool;
  essential : Matrix4
}.

Variable config : VioConfig.
Variable calib : Calibration.

(** *** [trackPointAtLevel] (lines 289-325) *)

(** [transform.linear() * pattern2] with the translation added column-wise *)
Definition transformed_pat (transform : Affine) : list Vector2 :=
  map (fun p => v2_add (m2_mul_v2 (linear transform) p) (translation transform))
      pattern2.

Definition filter_margin : Z := 2.

(** One execution of the loop body, from [patch_valid = true].  Returns the
    new [patch_valid] and the transform. *)
Definition trackPointAtLevel_body (img_2 : Image) (dp : PatchT)
    (transform : Affine) : bool * Affine :=
  match residual dp img_2 (transformed_pat transform) with
  | None => (false, transform)
  | Some res =>
      let inc := v3_neg (m3P_mul (H_se2_inv_J_se2_T dp) res) in
      let patch_valid := v3_allFinite inc in
      let patch_valid :=
        patch_valid && d_ltb (d_of_s (v3_lpNormInf inc)) (d_of_int 1000000) in
      if patch_valid then
        let transform := affine_mul_se2 transform (SE2_exp inc) in
        (patch_valid && InBounds img_2 (translation transform)
                                 (s_of_int filter_margin),
         transform)
      else (patch_valid, transform)
  end.

(** The [for] loop: [fuel] is the number of values [iteration] can still take
    below [optical_flow_max_iterations].  Returns the final [iteration],
    [patch_valid] and the transform. *)
Fixpoint trackPointAtLevel_loop (fuel : nat) (img_2 : Image) (dp : PatchT)
    (iteration : Z) (patch_valid : bool) (transform : Affine)
    : Z * bool * Affine :=
  match fuel with
  | O => (iteration, patch_valid, transform)
  | S fuel' =>
      if patch_valid then
        let '(pv, tr) := trackPointAtLevel_body img_2 dp transform in
        trackPointAtLevel_loop fuel' img_2 dp (iteration + 1) pv tr
      else (iteration, patch_valid, transform)
  end.

Definition trackPointAtLevel_run (img_2 : Image) (dp : PatchT)
    (transform : Affine) : Z * bool * Affine :=
  trackPointAtLevel_loop (Z.to_nat (optical_flow_max_iterations config))
                         img_2 dp 0 true transform.

Definition trackPointAtLevel (img_2 : Image) (dp : PatchT)
    (transform : Affine) : bool * Affine :=
  let '(_, pv, tr) := trackPointAtLevel_run img_2 dp transform in (pv, tr).

(** *** [trackPoint] (lines 264-287) *)

(** [const Scalar scale = 1 << level] *)
Definition level_scale (level : Z) : Scalar := s_of_int (shl1 level).

(** The loop over [level]; [cnt] is [level + 1], so [cnt = 0] is the exit
    [level < 0].  [patch_vec[level]] outside the vector is undefined in the
    source: [None]. *)
Fixpoint trackPoint_loop (cnt : nat) (pyr : ManagedImagePyr)
    (patch_vec : list PatchT) (patch_valid : bool) (transform : Affine)
    : option (bool * Affine) :=
  match cnt with
  | O => Some (patch_valid, transform)
  | S level =>
      if patch_valid then
        let scale := level_scale (Z.of_nat level) in
        let transform := div_translation transform scale in
        p ← patch_vec !! level;
        let patch_valid := patch_valid && valid p in
        let '(patch_valid, transform) :=
          if patch_valid then
            let '(ok, tr) :=
              trackPointAtLevel (lvl pyr (Z.of_nat level)) p transform in
            (patch_valid && ok, tr)
          else (patch_valid, transform) in
        let transform := mul_translation transform scale in
        trackPoint_loop level pyr patch_vec patch_valid transform
      else Some (patch_valid, transform)
  end.

Definition trackPoint (pyr : ManagedImagePyr) (patch_vec : list PatchT)
    (transform : Affine) : option (bool * Affine) :=
  trackPoint_loop (Z.to_nat (optical_flow_levels config + 1))
                  pyr patch_vec true transform.

(** *** Data model *)

Record Keypoint := {
  pose : Affine;
  descriptor : Descriptor;
  detected_by_opt_flow : bool
}.

(** [Keypoints]: the map from keypoint id to keypoint of one camera. *)
Abbreviation Keypoints := (gmap Z Keypoint) (only parsing).

(** Input bundles are shared objects ([OpticalFlowInput::Ptr]): they live in
    a store and are named by their address. *)
Abbreviation Ptr := nat (only parsing).

Record OpticalFlowInput := {
  in_t_ns : Z;
  img_data : list (option RawImage);
  masks : list Masks;
  in_depth_guess : double;
  stats : Stats
}.

(** A result object is written only between its creation and the end of the
    frame that created it, so results are values; the input bundle a result
    retains is a pointer into the store. *)
Record OpticalFlowResult := {
  res_t_ns : Z;
  keypoints : list (gmap Z Keypoint);
  input_images : option nat
}.

(** The members of the tracker, the output queue it is attached to (a null
    [output_queue] pointer is [None]) and the store of input bundles. *)
Record State := {
  t_ns : Z;
  frame_counter : Z;
  last_keypoint_id : Z;
  depth_guess : double;
  patches : gmap Z (list PatchT);
  transforms : option OpticalFlowResult;
  old_pyramid : option (list ManagedImagePyr);
  pyramid : option (list ManagedImagePyr);
  output_queue : option (list (option OpticalFlowResult));
  store : gmap nat OpticalFlowInput
}.

Definition set_t_ns (v : Z) (s : State) : State :=
  {| t_ns := v; frame_counter := frame_counter s;
     last_keypoint_id := last_keypoint_id s; depth_guess := depth_guess s;
     patches := patches s; transforms := transforms s;
     old_pyramid := old_pyramid s; pyramid := pyramid s;
     output_queue := output_queue s; store := store s |}.

Definition set_frame_counter (v : Z) (s : State) : State :=
  {| t_ns := t_ns s; frame_counter := v;
     last_keypoint_id := last_keypoint_id s; depth_guess := depth_guess s;
     patches := patches s; transforms := transforms s;
     old_pyramid := old_pyramid s; pyramid := pyramid s;
     output_queue := output_queue s; store := store s |}.

Definition set_last_keypoint_id (v : Z) (s : State) : State :=
  {| t_ns := t_ns s; frame_counter := frame_counter s;
     last_keypoint_id := v; depth_guess := depth_guess s;
     patches := patches s; transforms := transforms s;
     old_pyramid := old_pyramid s; pyramid := pyramid s;
     output_queue := output_queue s; store := store s |}.

Definition set_depth_guess (v : double) (s : State) : State :=
  {| t_ns := t_ns s; frame_counter := frame_counter s;
     last_keypoint_id := last_keypoint_id s; depth_guess := v;
     patches := patches s; transforms := transforms s;
     old_pyramid := old_pyramid s; pyramid := pyramid s;
     output_queue := output_queue s; store := store s |}.

Definition set_patches (v : gmap Z (list PatchT)) (s : State) : State :=
  {| t_ns := t_ns s; frame_counter := frame_counter s;
     last_keypoint_id := last_keypoint_id s; depth_guess := depth_guess s;
     patches := v; transforms := transforms s;
     old_pyramid := old_pyramid s; pyramid := pyramid s;
     output_queue := output_queue s; store := store s |}.

Definition set_transforms (v : option OpticalFlowResult) (s : State) : State :=
  {| t_ns := t_ns s; frame_counter := frame_counter s;
     last_keypoint_id := last_keypoint_id s; depth_guess := depth_guess s;
     patches := patches s; transforms := v;
     old_pyramid := old_pyramid s; pyramid := pyramid s;
     output_queue := output_queue s; store := store s |}.

Definition set_old_pyramid (v : option (list ManagedImagePyr)) (s : State)
    : State :=
  {| t_ns := t_ns s; frame_counter := frame_counter s;
     last_keypoint_id := last_keypoint_id s; depth_guess := depth_guess s;
     patches := patches s; transforms := transforms s;
     old_pyramid := v; pyramid := pyramid s;
     output_queue := output_queue s; store := store s |}.

Definition set_pyramid (v : option (list ManagedImagePyr)) (s : State)
    : State :=
  {| t_ns := t_ns s; frame_counter := frame_counter s;
     last_keypoint_id := last_keypoint_id s; depth_guess := depth_guess s;
     patches := patches s; transforms := transforms s;
     old_pyramid := old_pyramid s; pyramid := v;
     output_queue := output_queue s; store := store s |}.

Definition set_output_queue (v : option (list (option OpticalFlowResult)))
    (s : State) : State :=
  {| t_ns := t_ns s; frame_counter := frame_counter s;
     last_keypoint_id := last_keypoint_id s; depth_guess := depth_guess s;
     patches := patches s; transforms := transforms s;
     old_pyramid := old_pyramid s; pyramid := pyramid s;
     output_queue := v; store := store s |}.

Definition set_store (v : gmap nat OpticalFlowInput) (s : State) : State :=
  {| t_ns := t_ns s; frame_counter := frame_counter s;
     last_keypoint_id := last_keypoint_id s; depth_guess := depth_guess s;
     patches := patches s; transforms := transforms s;
     old_pyramid := old_pyramid s; pyramid := pyramid s;
     output_queue := output_queue s; store := v |}.

Definition set_keypoints (v : list (gmap Z Keypoint)) (r : OpticalFlowResult)
    : OpticalFlowResult :=
  {| res_t_ns := res_t_ns r; keypoints := v;
     input_images := input_images r |}.

Definition set_input_images (v : option nat) (r : OpticalFlowResult)
    : OpticalFlowResult :=
  {| res_t_ns := res_t_ns r; keypoints := keypoints r; input_images := v |}.

Definition set_in_depth_guess (v : double) (i : OpticalFlowInput)
    : OpticalFlowInput :=
  {| in_t_ns := in_t_ns i; img_data := img_data i; masks := masks i;
     in_depth_guess := v; stats := stats i |}.

Definition set_stats (v : Stats) (i : OpticalFlowInput) : OpticalFlowInput :=
  {| in_t_ns := in_t_ns i; img_data := img_data i; masks := masks i;
     in_depth_guess := in_depth_guess i; stats := v |}.

(** *** The monad of the member functions

    A member function reads and writes the state; [None] is a run that leaves
    the function abnormally: an exception ([at] out of range) or an access
    the language leaves undefined (a null pointer, an index past the end). *)

Definition M (A : Type) : Type := State -> option (A * State).

Definition ret {A} (a : A) : M A := fun s => Some (a, s).

Definition bind {A B} (k : A -> M B) (m : M A) : M B :=
  fun s => match m s with
           | Some (a, s') => k a s'
           | None => None
           end.

Global Instance M_ret : MRet M := @ret.
Global Instance M_bind : MBind M := @bind.

Definition gets {A} (f : State -> A) : M A := fun s => Some (f s, s).

Definition modify (f : State -> State) : M unit := fun s => Some (tt, f s).

(** Leaving the function abnormally when [o] is [None]. *)
Definition lift {A} (o : option A) : M A :=
  fun s => match o with Some a => Some (a, s) | None => None end.

(** Reading through a pointer: a null or dangling pointer is undefined. *)
Definition deref (a : nat) : M OpticalFlowInput :=
  st ← gets store; lift (st !! a).

Definition get_transforms : M OpticalFlowResult :=
  t ← gets transforms; lift t.

(** *** [trackPoints] (lines 184-262) *)

Definition cast_Scalar (v : Vector2d) : Vector2 := (s_of_d (fst v), s_of_d (snd v)).

Definition cast_double (v : Vector2) : Vector2d := (d_of_s (fst v), d_of_s (snd v)).

(** [const bool use_depth = matching && guess_requires_depth] *)
Definition use_depth (cam1 cam2 : nat) : bool :=
  let matching := negb (Nat.eqb cam1 cam2) in
  let guess_type := optical_flow_matching_guess_type config in
  let guess_requires_depth := negb (bool_decide (guess_type = SAME_PIXEL)) in
  matching && guess_requires_depth.

(** The body of the loop of [compute_func] for one index [r], with
    [id = ids[r]] and [kp = init_vec[r]]; [continue] returns [result]
    unchanged.  [patches_ .at(id)] throws when the id has no patch stack. *)
Definition compute_func_body (pyr_1 pyr_2 : ManagedImagePyr)
    (patches_ : gmap Z (list PatchT)) (depth : double) (cam1 cam2 : nat)
    (id : Z) (kp : Keypoint) (result : gmap Z Keypoint)
    : option (gmap Z Keypoint) :=
  let transform_1 := pose kp in
  let t1 := translation transform_1 in
  let off :=
    if use_depth cam1 cam2 then viewOffset calib t1 depth cam1 cam2
    else (s_of_int 0, s_of_int 0) in
  let transform_2 := set_translation transform_1 (v2_sub t1 off) in
  let t2 := translation transform_2 in
  let ok :=
    s_leb (s_of_int 0) (fst t2) && s_leb (s_of_int 0) (snd t2) &&
    s_ltb (fst t2) (s_of_int (img_w (lvl pyr_2 0))) &&
    s_ltb (snd t2) (s_of_int (img_h (lvl pyr_2 0))) in
  if negb ok then Some result else
  patch_vec ← patches_ !! id;
  '(ok, transform_2) ← trackPoint pyr_2 patch_vec transform_2;
  if negb ok then Some result else
  let transform_1_recovered :=
    set_translation transform_2 (v2_add (translation transform_2) off) in
  '(ok, transform_1_recovered) ←
    trackPoint pyr_1 patch_vec transform_1_recovered;
  if negb ok then Some result else
  let dist2 := squaredNorm (v2_sub t1 (translation transform_1_recovered)) in
  if s_ltb dist2 (optical_flow_max_recovered_dist2 config) then
    Some (<[id := {| pose := transform_2;
                     descriptor := descriptor kp;
                     detected_by_opt_flow := true |}]> result)
  else Some result.

(** [compute_func] over the whole range, in index order (the sequential call
    the source keeps in a comment next to [tbb::parallel_for]). *)
Fixpoint compute_func (pyr_1 pyr_2 : ManagedImagePyr)
    (patches_ : gmap Z (list PatchT)) (depth : double) (cam1 cam2 : nat)
    (ids_init_vec : list (Z * Keypoint)) (result : gmap Z Keypoint)
    : option (gmap Z Keypoint) :=
  match ids_init_vec with
  | [] => Some result
  | (id, kp) :: rest =>
      result' ← compute_func_body pyr_1 pyr_2 patches_ depth cam1 cam2
                                  id kp result;
      compute_func pyr_1 pyr_2 patches_ depth cam1 cam2 rest result'
  end.

(** [transforms->input_images->depth_guess = depth] *)
Definition store_depth_guess (depth : double) : M unit :=
  tr ← get_transforms;
  a ← lift (input_images tr);
  inp ← deref a;
  modify (fun s => set_store (<[a := set_in_depth_guess depth inp]> (store s)) s).

(** Returns the new contents of [keypoint_map_2] (cleared, then filled from
    [result]). *)
Definition trackPoints (pyr_1 pyr_2 : ManagedImagePyr)
    (keypoint_map_1 : gmap Z Keypoint) (cam1 cam2 : nat)
    : M (gmap Z Keypoint) :=
  let ids_init_vec := map_to_list keypoint_map_1 in
  depth ← gets depth_guess;
  store_depth_guess depth;;
  patches_ ← gets patches;
  lift (compute_func pyr_1 pyr_2 patches_ depth cam1 cam2 ids_init_vec ∅).

(** *** [addPoints] (lines 327-377) *)

(** The inner loop over [l]: the patches appended to the stack. *)
Definition new_patches (pyr0 : ManagedImagePyr) (pos : Vector2) : list PatchT :=
  map (fun l => mkPatch (lvl pyr0 l) (v2_div pos (level_scale l)))
      (seqZ 0 (optical_flow_levels config + 1)).

Definition write_keypoints (cam : nat) (m : gmap Z Keypoint) : M unit :=
  tr ← get_transforms;
  _ ← lift (keypoints tr !! cam);
  modify (set_transforms
            (Some (set_keypoints (<[cam := m]> (keypoints tr)) tr))).

Definition read_keypoints (cam : nat) : M (gmap Z Keypoint) :=
  tr ← get_transforms; lift (keypoints tr !! cam).

(** One iteration of the loop over the detected corners. *)
Definition add_corner (pyr0 : ManagedImagePyr) (c : Vector2d * Descriptor)
    (new_kpts0 : gmap Z Keypoint) : M (gmap Z Keypoint) :=
  id ← gets last_keypoint_id;
  let pos := cast_Scalar (fst c) in
  modify (fun s =>
    set_patches (<[id := default [] (patches s !! id) ++ new_patches pyr0 pos]>
                   (patches s)) s);;
  let transform := {| linear := m2_identity; translation := pos |} in
  let kp := {| pose := transform; descriptor := snd c;
               detected_by_opt_flow := false |} in
  kps0 ← read_keypoints 0%nat;
  write_keypoints 0%nat (<[id := kp]> kps0);;
  modify (set_last_keypoint_id (to_size_t (id + 1)));;
  mret (<[id := kp]> new_kpts0).

Fixpoint add_corners (pyr0 : ManagedImagePyr)
    (corners : list (Vector2d * Descriptor)) (new_kpts0 : gmap Z Keypoint)
    : M (gmap Z Keypoint) :=
  match corners with
  | [] => mret new_kpts0
  | c :: rest =>
      new_kpts0' ← add_corner pyr0 c new_kpts0;
      add_corners pyr0 rest new_kpts0'
  end.

(** [std::map::emplace]: an existing entry is kept. *)
Definition emplace (kv : Z * Keypoint) (m : gmap Z Keypoint) : gmap Z Keypoint :=
  match m !! fst kv with
  | Some _ => m
  | None => <[fst kv := snd kv]> m
  end.

Fixpoint emplace_all (cam : nat) (kvs : list (Z * Keypoint)) : M unit :=
  match kvs with
  | [] => mret tt
  | kv :: rest =>
      m ← read_keypoints cam;
      write_keypoints cam (emplace kv m);;
      emplace_all cam rest
  end.

Definition get_pyramid (i : nat) : M ManagedImagePyr :=
  p ← gets pyramid; pyrs ← lift p; lift (pyrs !! i).

Definition get_old_pyramid (i : nat) : M ManagedImagePyr :=
  p ← gets old_pyramid; pyrs ← lift p; lift (pyrs !! i).

(** The corners [detectKeypoints] is asked for in the current state. *)
Definition detect : M (list (Vector2d * Descriptor)) :=
  kps0 ← read_keypoints 0%nat;
  let pts0 := map (fun kv => cast_double (translation (pose (snd kv))))
                  (map_to_list kps0) in
  pyr0 ← get_pyramid 0%nat;
  tr ← get_transforms;
  a ← lift (input_images tr);
  inp ← deref a;
  masks0 ← lift (masks inp !! 0%nat);
  mret (detectKeypoints (lvl pyr0 0)
          (optical_flow_detection_grid_size config)
          (optical_flow_detection_num_points_cell config)
          (optical_flow_detection_min_threshold config)
          (optical_flow_detection_max_threshold config)
          masks0 pts0).

(** The stereo part of [addPoints] (lines 370-376). *)
Definition seed_stereo (pyr0 : ManagedImagePyr) (new_kpts0 : gmap Z Keypoint)
    : M unit :=
  if (1 <? intrinsics_size calib)%nat then
    pyr1 ← get_pyramid 1%nat;
    new_kpts1 ← trackPoints pyr0 pyr1 new_kpts0 0%nat 1%nat;
    emplace_all 1%nat (map_to_list new_kpts1)
  else mret tt.

Definition addPoints : M unit :=
  kd ← detect;
  pyr0 ← get_pyramid 0%nat;
  new_kpts0 ← add_corners pyr0 kd ∅;
  seed_stereo pyr0 new_kpts0.

(** *** [filterPoints] (lines 379-419) *)

(** The ids of camera 1 that camera 0 has too, with both translations. *)
Definition stereo_pairs (kps0 kps1 : gmap Z Keypoint)
    : list (Z * Vector2 * Vector2) :=
  omap (fun kv =>
          match kps0 !! fst kv with
          | Some kp0 =>
              Some (fst kv, translation (pose kp0), translation (pose (snd kv)))
          | None => None
          end)
       (map_to_list kps1).

(** The decision the loop of [filterPoints] takes for one pair. *)
Definition removes (p0 p1 : Vector2) : bool :=
  let '(p3d0, p3d0_success) := unproject calib 0%nat p0 in
  let '(p3d1, p3d1_success) := unproject calib 1%nat p1 in
  if p3d0_success && p3d1_success then
    d_ltb (optical_flow_epipolar_error config)
          (d_of_s (s_abs (bilinear4 p3d0 (essential calib) p3d1)))
  else true.

(** The loop over [i] that fills [lm_to_remove]. *)
Definition lm_to_remove_of (pairs : list (Z * Vector2 * Vector2)) : gset Z :=
  foldl (fun (acc : gset Z) '(kpid, proj0, proj1) =>
           let '(p3d0, p3d0_success) := unproject calib 0%nat proj0 in
           let '(p3d1, p3d1_success) := unproject calib 1%nat proj1 in
           if p3d0_success && p3d1_success then
             let epipolar_error :=
               d_of_s (s_abs (bilinear4 p3d0 (essential calib) p3d1)) in
             if d_ltb (optical_flow_epipolar_error config) epipolar_error
             then acc ∪ {[kpid]} else acc
           else acc ∪ {[kpid]})
        ∅ pairs.

(** [for (int id : lm_to_remove) keypoints.at(1).erase(id)]: the element, a
    [KeypointId], is converted to [int], and back to the key type by
    [erase]. *)
Definition erase_all (ids : list Z) (m : gmap Z Keypoint) : gmap Z Keypoint :=
  foldl (fun acc id => delete (to_size_t (to_int id)) acc) m ids.

Definition filterPoints : M unit :=
  if (intrinsics_size calib <? 2)%nat then mret tt
  else
    kps1 ← read_keypoints 1%nat;
    kps0 ← read_keypoints 0%nat;
    let lm_to_remove := lm_to_remove_of (stereo_pairs kps0 kps1) in
    write_keypoints 1%nat (erase_all (elements lm_to_remove) kps1).

(** *** [processFrame] (lines 123-182) *)

Definition is_null {A} (o : option A) : bool :=
  match o with Some _ => false | None => true end.

(** The pyramids of all cameras; [img_data[i]] past the end is undefined. *)
Fixpoint build_pyramids (inp : OpticalFlowInput) (cams : list nat)
    : option (list ManagedImagePyr) :=
  match cams with
  | [] => Some []
  | i :: rest =>
      v ← img_data inp !! i;
      img ← v;
      pyrs ← build_pyramids inp rest;
      Some (setFromImage img (optical_flow_levels config) :: pyrs)
  end.

(** The loop of temporal tracking; [new_keypoints] is
    [new_transforms->keypoints]. *)
Fixpoint track_cameras (cams : list nat) (new_keypoints : list (gmap Z Keypoint))
    : M (list (gmap Z Keypoint)) :=
  match cams with
  | [] => mret new_keypoints
  | i :: rest =>
      pyr_1 ← get_old_pyramid i;
      pyr_2 ← get_pyramid i;
      keypoint_map_1 ← read_keypoints i;
      _ ← lift (new_keypoints !! i);
      keypoint_map_2 ← trackPoints pyr_1 pyr_2 keypoint_map_1 i i;
      track_cameras rest (<[i := keypoint_map_2]> new_keypoints)
  end.

Definition cameras : list nat := seq 0 (intrinsics_size calib).

Definition empty_Keypoints : gmap Z Keypoint := ∅.

(** The branch [t_ns < 0]. *)
Definition first_frame (curr_t_ns : Z) (new_img_vec : nat)
    (inp : OpticalFlowInput) : M unit :=
  modify (set_t_ns curr_t_ns);;
  modify (set_transforms
            (Some {| res_t_ns := curr_t_ns;
                     keypoints := replicate (intrinsics_size calib)
                                            empty_Keypoints;
                     input_images := None |}));;
  pyrs ← lift (build_pyramids inp cameras);
  modify (set_pyramid (Some pyrs));;
  tr ← get_transforms;
  modify (set_transforms (Some (set_input_images (Some new_img_vec) tr)));;
  addPoints;;
  filterPoints.

(** The branch [t_ns >= 0]. *)
Definition next_frame (curr_t_ns : Z) (new_img_vec : nat)
    (inp : OpticalFlowInput) : M unit :=
  modify (set_t_ns curr_t_ns);;
  modify (fun s => set_old_pyramid (pyramid s) s);;
  pyrs ← lift (build_pyramids inp cameras);
  modify (set_pyramid (Some pyrs));;
  new_keypoints ←
    track_cameras cameras
                  (replicate (length (img_data inp)) empty_Keypoints);
  modify (set_transforms
            (Some {| res_t_ns := curr_t_ns;
                     keypoints := new_keypoints;
                     input_images := Some new_img_vec |}));;
  addPoints;;
  filterPoints.

(** The test and push at the end of [processFrame].  [frame_counter] is a
    [size_t], so the [int] divisor is converted to [size_t]; a zero divisor is
    undefined.  The remainder is not evaluated without an output queue. *)
Definition push_result : M unit :=
  oq ← gets output_queue;
  match oq with
  | None => mret tt
  | Some q =>
      fc ← gets frame_counter;
      let d := to_size_t (optical_flow_skip_frames config) in
      if d =? 0 then lift None
      else if fc mod d =? 0 then
        tr ← get_transforms;
        a ← lift (input_images tr);
        inp ← deref a;
        modify (fun s =>
          set_store (<[a := set_stats (addTime "opticalflow_produced"
                                               (stats inp)) inp]> (store s)) s);;
        modify (set_output_queue (Some (q ++ [Some tr])))
      else mret tt
  end.

Definition processFrame (curr_t_ns : Z) (new_img_vec : nat) : M unit :=
  inp ← deref new_img_vec;
  if existsb is_null (img_data inp) then mret tt
  else
    t ← gets t_ns;
    (if t <? 0 then first_frame curr_t_ns new_img_vec inp
     else next_frame curr_t_ns new_img_vec inp);;
    push_result;;
    modify (fun s => set_frame_counter (to_size_t (frame_counter s + 1)) s).

(** *** [processingLoop] (lines 105-121)

    One turn of the loop sees the depth values that [try_pop] finds, in the
    order they were pushed, and then the bundle that [pop] returns ([None] is
    the null sentinel).  The run of the worker is given by the list of these
    observations. *)

(** [while (input_depth_queue.try_pop(depth_guess)) continue;] *)
Definition drain_depth (pushed : list double) : M unit :=
  modify (fun s => foldl (fun s d => set_depth_guess d s) s pushed).

Fixpoint processingLoop (turns : list (list double * option nat)) : M unit :=
  match turns with
  | [] => mret tt
  | (pushed, input_ptr) :: rest =>
      drain_depth pushed;;
      match input_ptr with
      | None =>
          oq ← gets output_queue;
          q ← lift oq;
          modify (set_output_queue (Some (q ++ [None])))
      | Some a =>
          inp ← deref a;
          modify (fun s =>
            set_store (<[a := set_stats (addTime "frames_received"
                                                 (stats inp)) inp]> (store s)) s);;
          processFrame (in_t_ns inp) a;;
          processingLoop rest
      end
  end.

(** The state in which [processFrame] is entered for the bundle at [a]. *)
Definition at_frame (pushed : list double) (a : nat) (inp : OpticalFlowInput)
    (s : State) : State :=
  set_store (<[a := set_stats (addTime "frames_received" (stats inp)) inp]>
               (store s))
            (foldl (fun s d => set_depth_guess d s) s pushed).

(** The state the constructor leaves, for a given output queue and store. *)
Definition initial_state (oq : option (list (option OpticalFlowResult)))
    (st : gmap nat OpticalFlowInput) : State :=
  {| t_ns := -1; frame_counter := 0; last_keypoint_id := 0;
     depth_guess := optical_flow_matching_default_depth config;
     patches := ∅; transforms := None; old_pyramid := None; pyramid := None;
     output_queue := oq; store := st |}.

End Tracker.

(** ** The algorithms as the specification words them

    These definitions follow the text of the specification, not the header;
    the theorems below compare them with the embedding of the code. *)

Section Specification.
Context {num : Numeric} {ext : Externals}.
Variable config : VioConfig.
Variable calib : Calibration.

(** The scale of pyramid level [level]: two to the power [level]. *)
Definition pow2_scale (level : nat) : Scalar := s_of_int (2 ^ Z.of_nat level).

(** "Within 2 pixels of the image border". *)
Definition near_border (img : Image) (p : Vector2) : bool :=
  negb (InBounds img p (s_of_int 2)).

(** The outcome of one Gauss-Newton step: the step succeeded and left the
    warp [w], or it failed and left the warp [w]. *)
Inductive gn_outcome :=
  | gn_continue (w : Affine)
  | gn_failed (w : Affine).

(** One step: sample the pattern at [linear * pattern + translation]; a
    sampling failure fails the call; the increment is [- H_inv_J_T * r]; a
    non-finite component or an infinity norm of at least 10^6 fails the call;
    otherwise the warp is composed with the exponential of the increment, and
    a translation near the border fails the call. *)
Definition gn_step (img : Image) (dp : PatchT) (warp : Affine) : gn_outcome :=
  let samples :=
    map (fun p => v2_add (m2_mul_v2 (linear warp) p) (translation warp))
        pattern2 in
  match residual dp img samples with
  | None => gn_failed warp
  | Some r =>
      let delta := v3_neg (m3P_mul (H_se2_inv_J_se2_T dp) r) in
      if negb (v3_allFinite delta)
         || negb (d_ltb (d_of_s (v3_lpNormInf delta)) (d_of_int (10 ^ 6)))
      then gn_failed warp
      else
        let warp' := affine_mul_se2 warp (SE2_exp delta) in
        if near_border img (translation warp') then gn_failed warp'
        else gn_continue warp'
  end.

(** At most [n] steps, stopping at the first failure: the number of steps
    taken, whether none failed, and the warp. *)
Fixpoint gn_run (n : nat) (img : Image) (dp : PatchT) (warp : Affine)
    : nat * bool * Affine :=
  match n with
  | O => (O, true, warp)
  | S n' =>
      match gn_step img dp warp with
      | gn_failed w => (1%nat, false, w)
      | gn_continue w =>
          let '(k, ok, w') := gn_run n' img dp w in (S k, ok, w')
      end
  end.

(** [n] steps in a row, none of which fails, lead from [w] to [w']. *)
Inductive gn_chain (img : Image) (dp : PatchT) : nat -> Affine -> Affine -> Prop :=
  | gn_chain_O w : gn_chain img dp O w w
  | gn_chain_S n w w1 w' :
      gn_step img dp w = gn_continue w1 ->
      gn_chain img dp n w1 w' ->
      gn_chain img dp (S n) w w'.

(** The coarse-to-fine loop over the levels [n - 1], ..., [0]: divide the
    translation by [2^level]; an invalid reference patch is a failure;
    otherwise run the per-level tracker; multiply the translation back; a
    failure at a level is the failure of the call. *)
Fixpoint track_levels (n : nat) (pyr : ManagedImagePyr) (patch_vec : list PatchT)
    (warp : Affine) : option (bool * Affine) :=
  match n with
  | O => Some (true, warp)
  | S level =>
      p ← patch_vec !! level;
      let w := div_translation warp (pow2_scale level) in
      if valid p then
        let '(ok, w') :=
          trackPointAtLevel config (lvl pyr (Z.of_nat level)) p w in
        let w'' := mul_translation w' (pow2_scale level) in
        if ok then track_levels level pyr patch_vec w'' else Some (false, w'')
      else Some (false, mul_translation w (pow2_scale level))
  end.

(** One level passed: the patch is valid and the per-level tracker succeeds
    on the translation divided by [2^level]; the translation is multiplied
    back. *)
Definition level_passes (pyr : ManagedImagePyr) (patch_vec : list PatchT)
    (level : nat) (w w' : Affine) : Prop :=
  exists p w1,
    patch_vec !! level = Some p /\ valid p = true /\
    trackPointAtLevel config (lvl pyr (Z.of_nat level)) p
                      (div_translation w (pow2_scale level)) = (true, w1) /\
    w' = mul_translation w1 (pow2_scale level).

(** One level fails: its patch is invalid, or the per-level tracker fails;
    either way the translation is multiplied back. *)
Definition level_fails (pyr : ManagedImagePyr) (patch_vec : list PatchT)
    (level : nat) (w w' : Affine) : Prop :=
  exists p,
    patch_vec !! level = Some p /\
    ((valid p = false /\
      w' = mul_translation (div_translation w (pow2_scale level))
                           (pow2_scale level)) \/
     (valid p = true /\
      exists w1,
        trackPointAtLevel config (lvl pyr (Z.of_nat level)) p
                          (div_translation w (pow2_scale level)) = (false, w1) /\
        w' = mul_translation w1 (pow2_scale level))).

(** The levels [hi - 1], ..., [lo] all pass, leading from [w] to [w']. *)
Inductive levels_pass (pyr : ManagedImagePyr) (patch_vec : list PatchT)
    : nat -> nat -> Affine -> Affine -> Prop :=
  | levels_pass_nil lo w : levels_pass pyr patch_vec lo lo w w
  | levels_pass_cons hi lo w w1 w' :
      (lo <= hi)%nat ->
      level_passes pyr patch_vec hi w w1 ->
      levels_pass pyr patch_vec hi lo w1 w' ->
      levels_pass pyr patch_vec (S hi) lo w w'.

(** *** The writes [trackPoint] makes to its argument

    The same loop as [trackPoint_loop], which also records each write to
    [transform] in the order it is made: the division at line 273, the
    per-level tracker at line 280 (with the warp it leaves) and the
    multiplication at line 283. *)
Inductive warp_write :=
  | Divide (level : nat)
  | Track (level : nat) (out : Affine)
  | Multiply (level : nat).

Fixpoint trackPoint_writes (cnt : nat) (pyr : ManagedImagePyr)
    (patch_vec : list PatchT) (patch_valid : bool) (transform : Affine)
    : option (bool * Affine * list warp_write) :=
  match cnt with
  | O => Some (patch_valid, transform, [])
  | S level =>
      if patch_valid then
        let scale := level_scale (Z.of_nat level) in
        let transform := div_translation transform scale in
        p ← patch_vec !! level;
        let patch_valid := patch_valid && valid p in
        let '(patch_valid, transform, w1) :=
          if patch_valid then
            let '(ok, tr) :=
              trackPointAtLevel config (lvl pyr (Z.of_nat level)) p transform in
            (patch_valid && ok, tr, [Track level tr])
          else (patch_valid, transform, []) in
        let transform := mul_translation transform scale in
        '(r, ws) ← trackPoint_writes level pyr patch_vec patch_valid transform;
        Some (r, Divide level :: w1 ++ Multiply level :: ws)
      else Some (patch_valid, transform, [])
  end.

(** Replaying recorded writes on a warp; scales are powers of two. *)
Definition replay_write (w : Affine) (e : warp_write) : Affine :=
  match e with
  | Divide level => div_translation w (pow2_scale level)
  | Track _ out => out
  | Multiply level => mul_translation w (pow2_scale level)
  end.

Definition replay (ws : list warp_write) (w : Affine) : Affine :=
  foldl replay_write w ws.

(** The writes of one visited level: a division, at most one run of the
    per-level tracker, and the multiplication by the same scale. *)
Definition level_block (level : nat) (ws : list warp_write) : Prop :=
  ws = [Divide level; Multiply level] \/
  exists out, ws = [Divide level; Track level out; Multiply level].

(** Writes that visit the levels [hi - 1], [hi - 2], ..., [lo] in this order,
    one block each. *)
Inductive balanced : nat -> nat -> list warp_write -> Prop :=
  | balanced_nil lo : balanced lo lo []
  | balanced_cons hi lo b ws :
      (lo <= hi)%nat ->
      level_block hi b ->
      balanced hi lo ws ->
      balanced (S hi) lo (b ++ ws).

(** *** Bidirectional tracking as the specification words it *)

(** The offset of the prior: zero when source and destination camera
    coincide or the guess is [SAME_PIXEL], else the view offset at the depth
    guess. *)
Definition prior_offset (depth : double) (t1 : Vector2) (cam_src cam_dst : nat)
    : Vector2 :=
  if decide (cam_src = cam_dst \/
             optical_flow_matching_guess_type config = SAME_PIXEL)
  then (s_of_int 0, s_of_int 0)
  else viewOffset calib t1 depth cam_src cam_dst.

(** [p] lies in [0, w) x [0, h) of the image. *)
Definition in_image (img : Image) (p : Vector2) : Prop :=
  (s_leb (s_of_int 0) (fst p) = true /\ s_ltb (fst p) (s_of_int (img_w img)) = true) /\
  (s_leb (s_of_int 0) (snd p) = true /\ s_ltb (snd p) (s_of_int (img_h img)) = true).

(** The keypoint with warp [warp_src] in the source camera is matched with
    warp [warp_dst] in the destination camera: the prior is in the image, the
    forward track succeeds and gives [warp_dst], the backward track from
    [warp_dst] with the offset added back succeeds, and it comes back close
    enough to where it started. *)
Definition bidirectional_match (pyr_src pyr_dst : ManagedImagePyr)
    (patch_vec : list PatchT) (depth : double) (cam_src cam_dst : nat)
    (warp_src warp_dst : Affine) : Prop :=
  let t1 := translation warp_src in
  let delta := prior_offset depth t1 cam_src cam_dst in
  in_image (lvl pyr_dst 0) (v2_sub t1 delta) /\
  trackPoint config pyr_dst patch_vec
             (set_translation warp_src (v2_sub t1 delta)) =
    Some (true, warp_dst) /\
  exists warp_back,
    trackPoint config pyr_src patch_vec
               (set_translation warp_dst
                                (v2_add (translation warp_dst) delta)) =
      Some (true, warp_back) /\
    s_ltb (squaredNorm (v2_sub t1 (translation warp_back)))
          (optical_flow_max_recovered_dist2 config) = true.

(** The keypoint a match emits: the forward-tracked warp, the descriptor of
    the source keypoint, and the mark of optical flow. *)
Definition emitted (kp_src : Keypoint) (warp_dst : Affine) : Keypoint :=
  {| pose := warp_dst; descriptor := descriptor kp_src;
     detected_by_opt_flow := true |}.


(** *** Views of the state *)

(** The keypoint map of camera [cam] in the current result. *)
Definition keypoints_of (s : State) (cam : nat) : option (gmap Z Keypoint) :=
  r ← transforms s; keypoints r !! cam.

(** The current result without its keypoints: timestamp, retained input and
    number of cameras. *)
Definition result_meta (s : State) : option (Z * option nat * nat) :=
  (fun r => (res_t_ns r, input_images r, length (keypoints r))) <$> transforms s.

(** What an input bundle carries in, for every bundle of the store. *)
Definition bundle_contents (s : State)
    : gmap nat (Z * list (option RawImage) * list Masks) :=
  (fun i => (in_t_ns i, img_data i, masks i)) <$> store s.

(** *** The id and patch-store invariant *)

Definition ids_below (bound : Z) (m : gmap Z Keypoint) : Prop :=
  forall id, is_Some (m !! id) -> 0 <= id < bound.

(** The ids handed out so far are those of [0, last_keypoint_id); each of
    them, and no other id, has a patch stack; a stack has one patch per
    pyramid level; and the keypoint maps only hold ids handed out. *)
Definition tracker_inv (s : State) : Prop :=
  0 <= last_keypoint_id s < 2 ^ 64 /\
  (forall id, is_Some (patches s !! id) <-> 0 <= id < last_keypoint_id s) /\
  (forall id pv, patches s !! id = Some pv ->
     length pv = Z.to_nat (optical_flow_levels config + 1)) /\
  (forall cam m, keypoints_of s cam = Some m ->
     ids_below (last_keypoint_id s) m).

(** The patch stack of a keypoint at [pos] of level 0: for each level [l]
    from 0 to [optical_flow_levels], the reference patch sampled in level [l]
    of the pyramid at [pos / 2^l]. *)
Definition patch_stack (pyr0 : ManagedImagePyr) (pos : Vector2) : list PatchT :=
  map (fun l : nat =>
         mkPatch (lvl pyr0 (Z.of_nat l)) (v2_div pos (pow2_scale l)))
      (seq 0 (Z.to_nat (optical_flow_levels config + 1))).

(** The keypoint detection creates for a corner: the identity warp moved
    to the corner, the descriptor of the corner, not yet tracked. *)
Definition detected_keypoint (c : Vector2d * Descriptor) : Keypoint :=
  {| pose := {| linear := m2_identity; translation := cast_Scalar (fst c) |};
     descriptor := snd c;
     detected_by_opt_flow := false |}.

(** [m'] is [m] with the keypoints of the corners [kd] under the ids
    [first], [first + 1], ... *)
Definition with_corners (first : Z) (kd : list (Vector2d * Descriptor))
    (m m' : gmap Z Keypoint) : Prop :=
  (forall i c, kd !! i = Some c ->
     m' !! (first + Z.of_nat i) = Some (detected_keypoint c)) /\
  (forall id, ~ (first <= id < first + Z.of_nat (length kd)) ->
     m' !! id = m !! id).

(** *** Stereo seeding as the specification words it *)

(** Camera [j] is seeded from camera 0 at depth [depth] between the states
    [s] and [s']: a keypoint detected between the two states (its id is not
    below the counter of [s]) is in the map of camera [j] afterwards exactly
    as the bidirectional match from camera 0 to camera [j] emits it. *)
Definition seeded (depth : double) (j : nat) (s s' : State) : Prop :=
  forall pyrs pyr0 pyrj m0 mj id kp1 pv kp2,
    pyramid s' = Some pyrs -> pyrs !! 0%nat = Some pyr0 ->
    pyrs !! j = Some pyrj ->
    keypoints_of s' 0%nat = Some m0 -> keypoints_of s' j = Some mj ->
    last_keypoint_id s <= id ->
    m0 !! id = Some kp1 -> patches s' !! id = Some pv ->
    (mj !! id = Some kp2 <->
     bidirectional_match pyr0 pyrj pv depth 0%nat j
                         (pose kp1) (pose kp2) /\
     kp2 = emitted kp1 (pose kp2)).

(** Every camera but the reference camera is seeded. *)
Definition seeds_every_camera (s s' : State) : Prop :=
  forall j, (0 < j < intrinsics_size calib)%nat ->
            seeded (depth_guess s) j s s'.

(** *** The epipolar filter as the specification words it *)

(** A stereo observation is rejected when one of the two unprojections fails
    or the residual [|f0^T E f1|] exceeds [optical_flow_epipolar_error]. *)
Definition epipolar_reject (kp0 kp1 : Keypoint) : bool :=
  let '(f0, ok0) := unproject calib 0%nat (translation (pose kp0)) in
  let '(f1, ok1) := unproject calib 1%nat (translation (pose kp1)) in
  negb ok0 || negb ok1 ||
  d_ltb (optical_flow_epipolar_error config)
        (d_of_s (s_abs (bilinear4 f0 (essential calib) f1))).

(** The map of camera 1 after the filter: an id that camera 0 has too is
    erased exactly when its observation is rejected. *)
Definition epipolar_filtered (m0 m1 : gmap Z Keypoint) (id : Z)
    : option Keypoint :=
  match m1 !! id, m0 !! id with
  | Some kp1, Some kp0 => if epipolar_reject kp0 kp1 then None else Some kp1
  | o, _ => o
  end.

(** The filter between [s] and [s']: with two cameras or more, camera 1 is
    filtered and every other camera keeps its map; with fewer, nothing
    changes. *)
Definition epipolar_filter_effect (s s' : State) : Prop :=
  ((2 <= intrinsics_size calib)%nat ->
   forall m0 m1,
     keypoints_of s 0%nat = Some m0 -> keypoints_of s 1%nat = Some m1 ->
     (exists m1', keypoints_of s' 1%nat = Some m1' /\
                  forall id, m1' !! id = epipolar_filtered m0 m1 id) /\
     (forall j, j <> 1%nat -> keypoints_of s' j = keypoints_of s j)) /\
  ((intrinsics_size calib < 2)%nat -> s' = s).

(** *** Emission and the depth guess *)

(** Of a list, the elements whose index, counted from [k], is a multiple of
    [n]. *)
Fixpoint every_nth {A} (n k : Z) (l : list A) : list A :=
  match l with
  | [] => []
  | x :: l' =>
      if k mod n =? 0 then x :: every_nth n (k + 1) l'
      else every_nth n (k + 1) l'
  end.

(** A turn of the worker loop that pops a bundle of the store; [contents]
    is what the bundles of the store carry in. *)
Definition pops_bundle
    (contents : gmap nat (Z * list (option RawImage) * list Masks))
    (turn : list double * option nat) : Prop :=
  exists a, snd turn = Some a /\ is_Some (contents !! a).

(** The bundle the turn pops has all its images. *)
Definition is_full
    (contents : gmap nat (Z * list (option RawImage) * list Masks))
    (turn : list double * option nat) : bool :=
  match snd turn with
  | Some a =>
      match contents !! a with
      | Some (_, imgs, _) => negb (existsb is_null imgs)
      | None => false
      end
  | None => false
  end.

(** The fully processed frames of a run: the turns whose bundle has all its
    images. *)
Definition processed
    (contents : gmap nat (Z * list (option RawImage) * list Masks))
    (turns : list (list double * option nat))
    : list (list double * option nat) :=
  List.filter (is_full contents) turns.

(** The timestamp of the bundle a turn pops. *)
Definition turn_t_ns
    (contents : gmap nat (Z * list (option RawImage) * list Masks))
    (turn : list double * option nat) : Z :=
  match snd turn with
  | Some a => match contents !! a with Some (t, _, _) => t | None => 0 end
  | None => 0
  end.

(** For a turn that pushes a result, the depth guess the pushed result
    reports (through the bundle it retains) is the newest value of the depth
    channel. *)
Definition reports_newest_depth (pushed : list double) (s s' : State) : Prop :=
  forall q r a,
    output_queue s = Some q -> output_queue s' = Some (q ++ [Some r]) ->
    input_images r = Some a ->
    exists inp, store s' !! a = Some inp /\
                in_depth_guess inp = List.last pushed (depth_guess s).

End Specification.

(** ** Predicates on runs and states

    What the theorems below say about a run: the parts of the state it
    leaves alone, and the states and bundles on which a frame runs to its
    end. *)

Section Readiness.
Context {num : Numeric} {ext : Externals}.
Variable config : VioConfig.
Variable calib : Calibration.

(** [m] does not change the part [f] of the state. *)
Definition unchanged {X A} (f : State -> X) (m : M A) : Prop :=
  forall s a s', m s = Some (a, s') -> f s' = f s.

(** The state holds a result with a keypoint map for every camera, the
    result retains a bundle of the store that has a mask, and there is a
    pyramid for every camera. *)
Definition has_result (s : State) : Prop :=
  exists t a k c pyrs,
    result_meta s = Some (t, Some a, k) /\
    (intrinsics_size calib <= k)%nat /\
    bundle_contents s !! a = Some c /\ (0 < length (snd c))%nat /\
    pyramid s = Some pyrs /\ (intrinsics_size calib <= length pyrs)%nat.

(** The state between two frames: the invariant of ids and patches, and,
    once a frame has been processed, its result. *)
Definition ready (s : State) : Prop :=
  tracker_inv config s /\ (0 <= t_ns s -> has_result s).

(** A bundle with an image slot for every camera and a mask for camera 0. *)
Definition bundle_ready (c : Z * list (option RawImage) * list Masks) : Prop :=
  (intrinsics_size calib <= length (snd (fst c)))%nat /\
  (0 < length (snd c))%nat.

(** A turn of the worker loop that pops a bundle of the store that is
    ready. *)
Definition pops_ready_bundle
    (contents : gmap nat (Z * list (option RawImage) * list Masks))
    (turn : list double * option nat) : Prop :=
  exists a c, snd turn = Some a /\ contents !! a = Some c /\ bundle_ready c.

End Readiness.

(** ** A small implementation of the two interfaces

    Scalars are integers.  An image is its width and height, a pyramid halves
    both at each level.  A patch is its [valid] flag and a drift: sampling
    succeeds when the sample points are inside the image, and every
    Gauss-Newton step moves the translation by minus the drift.  The detector
    proposes the two corners [(g, g)] and [(2g, g)] for grid size [g] and
    keeps those where no keypoint sits yet.  Unprojection succeeds left of
    column 1000, and the epipolar residual is the essential "matrix" times
    the difference of the rows. *)

Module Toy.

Definition num : Numeric :=
  {| Scalar := Z; double := Z;
     s_add := Z.add; s_sub := Z.sub; s_mul := Z.mul; s_div := Z.div;
     s_neg := Z.opp; s_abs := Z.abs; s_max := Z.max;
     s_of_int := fun z => z;
     s_leb := Z.leb; s_ltb := Z.ltb; s_isFinite := fun _ => true;
     d_of_s := fun z => z; s_of_d := fun z => z; d_of_int := fun z => z;
     d_ltb := Z.ltb |}.

#[local] Existing Instance num.

Definition inside (img : Z * Z) (p : Z * Z) : bool :=
  (0 <=? fst p) && (fst p <? fst img) && (0 <=? snd p) && (snd p <? snd img).

Definition in_bounds (img : Z * Z) (p : Z * Z) (border : Z) : bool :=
  (border <=? fst p) && (fst p <? fst img - border - 1) &&
  (border <=? snd p) && (snd p <? snd img - border - 1).

Definition detector (img : Z * Z) (g _ _ _ : Z) (_ : unit)
    (pts0 : list (Z * Z)) : list ((Z * Z) * Z) :=
  filter (fun c => negb (existsb (fun q => (fst q =? fst (fst c)) &&
                                           (snd q =? snd (fst c))) pts0) = true)
         [((g, g), 1); ((2 * g, g), 2)].

Definition ext : @Externals num :=
  {| Image := Z * Z;
     img_w := fst; img_h := snd;
     InBounds := in_bounds : (Z * Z) -> @Vector2 num -> @Scalar num -> bool;
     RawImage := Z * Z;
     ManagedImagePyr := Z * Z;
     setFromImage := fun img _ => img;
     lvl := fun pyr l => (fst pyr / 2 ^ l, snd pyr / 2 ^ l);
     PatchT := bool * (Z * Z);
     VectorP := Z * Z;
     Matrix3P := unit;
     pattern2 := [(0, 0)];
     mkPatch := fun img pos => (in_bounds img pos 2, (0, 0));
     valid := fst;
     H_se2_inv_J_se2_T := fun _ => tt;
     residual := fun dp img pts =>
       if forallb (inside img) pts then Some (snd dp) else None;
     m3P_mul := fun _ r => (fst r, snd r, 0);
     SE2_exp := fun v => (((1, 0), (0, 1)), (fst (fst v), snd (fst v)));
     Descriptor := Z;
     Masks := unit;
     detectKeypoints := detector;
     Stats := list string;
     addTime := fun label st => st ++ [label];
     Vector4 := Z * Z;
     Matrix4 := Z;
     bilinear4 := fun a e b => e * (snd a - snd b) |}.

(** Two pyramid levels, two Gauss-Newton steps per level, a result pushed
    every second frame. *)
Definition config (guess : MatchingGuessType) : @VioConfig num :=
  {| optical_flow_levels := 1;
     optical_flow_max_iterations := 2;
     optical_flow_max_recovered_dist2 := 4;
     optical_flow_epipolar_error := 0;
     optical_flow_skip_frames := 2;
     optical_flow_detection_grid_size := 8;
     optical_flow_detection_num_points_cell := 1;
     optical_flow_detection_min_threshold := 5;
     optical_flow_detection_max_threshold := 40;
     optical_flow_matching_guess_type := guess;
     optical_flow_matching_default_depth := 1 |}.

(** A rig of [n] cameras; the view offset is the depth, along the row. *)
Definition calib (n : nat) : @Calibration num ext :=
  {| intrinsics_size := n;
     viewOffset := (fun (_ : Z * Z) (depth : Z) (_ _ : nat) => (depth, 0))
                   : @Vector2 num -> @double num -> nat -> nat -> @Vector2 num;
     unproject := (fun (_ : nat) (p : Z * Z) => (p, fst p <? 1000))
                  : nat -> @Vector2 num -> @Vector4 num ext * bool;
     essential := 1 |}.

Definition identity_at (p : Z * Z) : @Affine num :=
  {| linear := ((1, 0), (0, 1)); translation := p |}.

#[local] Existing Instance ext.

Definition raw_image (w h : Z) : RawImage := (w, h).

Definition no_masks : Masks := tt.

Definition no_stats : Stats := @nil string.

(** An input bundle of [n] images of 64x48 pixels. *)
Definition bundle (t : Z) (n : nat) (depth : Z) : OpticalFlowInput :=
  {| in_t_ns := t; img_data := replicate n (Some (raw_image 64 48));
     masks := replicate n no_masks; in_depth_guess := depth;
     stats := no_stats |}.

(** The same with the image of one more camera, which is missing. *)
Definition bundle_missing (t : Z) (n : nat) : OpticalFlowInput :=
  {| in_t_ns := t; img_data := replicate n (Some (raw_image 64 48)) ++ [None];
     masks := replicate (S n) no_masks; in_depth_guess := 0;
     stats := no_stats |}.

(** *** Concrete inputs *)

Definition cfg : VioConfig := config REPROJ_AVG_DEPTH.

Definition kp_at (p : Z * Z) (d : Z) : Keypoint :=
  {| pose := identity_at p; descriptor := d; detected_by_opt_flow := false |}.

Definition patch (ok : bool) (drift : Z * Z) : PatchT := (ok, drift).

Definition pyr_64x48 : ManagedImagePyr := (64, 48).

(** A stack with a valid, drift-free patch on both levels. *)
Definition good_stack : list PatchT := [patch true (0, 0); patch true (0, 0)].

(** A stack whose level-1 patch drifts by one column per step and whose
    level-0 patch is invalid. *)
Definition drift_stack : list PatchT := [patch false (0, 0); patch true (1, 0)].


(** The state of a rig of [n] cameras right before detection in its first
    frame, with depth guess 4 and the bundle at address 0. *)
Definition before_detection (n : nat) : State :=
  {| t_ns := 0; frame_counter := 0; last_keypoint_id := 0; depth_guess := 4;
     patches := ∅;
     transforms := Some {| res_t_ns := 0;
                           keypoints := replicate n empty_Keypoints;
                           input_images := Some 0%nat |};
     old_pyramid := None; pyramid := Some (replicate n pyr_64x48);
     output_queue := Some [];
     store := {[ 0%nat := bundle 0 n 0 ]} |}.

(** A state in which camera 0 tracks keypoint [id] at (8, 8) and camera 1
    holds [kps1]. *)
Definition tracking (id : Z) (kps1 : gmap Z Keypoint) : State :=
  {| t_ns := 0; frame_counter := 1; last_keypoint_id := id + 1;
     depth_guess := 4;
     patches := {[ id := good_stack ]};
     transforms := Some {| res_t_ns := 0;
                           keypoints := [ {[ id := kp_at (8, 8) 1 ]}; kps1 ];
                           input_images := Some 0%nat |};
     old_pyramid := None; pyramid := Some [pyr_64x48; pyr_64x48];
     output_queue := Some [];
     store := {[ 0%nat := bundle 0 2 0 ]} |}.

(** The state a run ends in ([d] if it ends abnormally). *)
Definition final {A} (o : option (A * State)) (d : State) : State :=
  match o with Some (_, s) => s | None => d end.

(** The run ends normally. *)
Definition returns {A} (o : option A) : Prop :=
  match o with Some _ => True | None => False end.

(** A store with three bundles of [n] images, at the addresses 0, 1, 2, and
    at address 3 a bundle that misses an image. *)
Definition three_bundles (n : nat) : gmap nat OpticalFlowInput :=
  {[ 0%nat := bundle 0 n 0; 1%nat := bundle 100 n 0; 2%nat := bundle 200 n 0;
     3%nat := bundle_missing 50 n ]}.

End Toy.

(** ** Further concrete inputs *)

Module ToyEdges.
Import Toy.
#[local] Existing Instance Toy.num.
#[local] Existing Instance Toy.ext.

(** The configuration [cfg] with another value of
    [optical_flow_skip_frames]. *)
Definition cfg_skip (k : Z) : VioConfig :=
  {| optical_flow_levels := 1;
     optical_flow_max_iterations := 2;
     optical_flow_max_recovered_dist2 := 4;
     optical_flow_epipolar_error := 0;
     optical_flow_skip_frames := k;
     optical_flow_detection_grid_size := 8;
     optical_flow_detection_num_points_cell := 1;
     optical_flow_detection_min_threshold := 5;
     optical_flow_detection_max_threshold := 40;
     optical_flow_matching_guess_type := REPROJ_AVG_DEPTH;
     optical_flow_matching_default_depth := 1 |}.

(** The state [tracking 0 ∅] after the bundle of a next frame has arrived at
    address 1. *)
Definition tracking_next : State :=
  set_store {[ 0%nat := bundle 0 2 0; 1%nat := bundle 100 2 0 ]}
            (tracking 0 ∅).

(** A stereo rig right before detection, where camera 0 already holds a
    keypoint at each of the two corners the detector can propose. *)
Definition saturated : State :=
  {| t_ns := 0; frame_counter := 1; last_keypoint_id := 2; depth_guess := 4;
     patches := {[ 0 := good_stack; 1 := good_stack ]};
     transforms := Some {| res_t_ns := 0;
                           keypoints := [ {[ 0 := kp_at (8, 8) 1;
                                             1 := kp_at (16, 8) 2 ]}; ∅ ];
                           input_images := Some 0%nat |};
     old_pyramid := None; pyramid := Some [pyr_64x48; pyr_64x48];
     output_queue := Some [];
     store := {[ 0%nat := bundle 0 2 0 ]} |}.

End ToyEdges.

(** * Properties *)

Section GaussNewton.
Context {num : Numeric} {ext : Externals}.
Variable config : VioConfig.

(** The loop body of the source is one step of the specification. *)
Lemma trackPointAtLevel_body_step img dp w :
  trackPointAtLevel_body img dp w =
  match gn_step img dp w with
  | gn_continue w' => (true, w')
  | gn_failed w' => (false, w')
  end.
Proof.
  unfold trackPointAtLevel_body, gn_step, transformed_pat, near_border,
    filter_margin.
  destruct (residual dp img _) as [res|]; [|reflexivity].
  change (10 ^ 6) with 1000000.
  destruct (v3_allFinite _); simpl; [|reflexivity].
  destruct (d_ltb _ _); simpl; [|reflexivity].
  destruct (InBounds _ _ _); reflexivity.
Qed.

(** Once [patch_valid] is false the loop condition fails. *)
Lemma trackPointAtLevel_loop_false fuel img dp it w :
  trackPointAtLevel_loop fuel img dp it false w = (it, false, w).
Proof. destruct fuel; reflexivity. Qed.

Lemma trackPointAtLevel_loop_run fuel img dp : forall it w,
  trackPointAtLevel_loop fuel img dp it true w =
  let '(k, ok, w') := gn_run fuel img dp w in (it + Z.of_nat k, ok, w').
Proof.
  induction fuel as [|fuel IH]; intros it w; simpl.
  - f_equal. f_equal. lia.
  - rewrite trackPointAtLevel_body_step.
    destruct (gn_step img dp w) as [w1|w1].
    + rewrite IH. destruct (gn_run fuel img dp w1) as [[k ok] w'].
      f_equal. f_equal. lia.
    + rewrite trackPointAtLevel_loop_false. reflexivity.
Qed.

Lemma gn_run_steps n img dp : forall w,
  (fst (fst (gn_run n img dp w)) <= n)%nat.
Proof.
  induction n as [|n IH]; intros w; simpl; [lia|].
  destruct (gn_step img dp w) as [w1|w1]; simpl; [|lia].
  specialize (IH w1). destruct (gn_run n img dp w1) as [[k ok] w']; simpl in *.
  lia.
Qed.

Lemma gn_run_success n img dp : forall w k w',
  gn_run n img dp w = (k, true, w') <-> k = n /\ gn_chain img dp n w w'.
Proof.
  induction n as [|n IH]; intros w k w'; simpl.
  - split.
    + intros [= <- <-]. split; [reflexivity|constructor].
    + intros [-> Hc]. inversion Hc; subst. reflexivity.
  - destruct (gn_step img dp w) as [w1|w1] eqn:Hs.
    + specialize (IH w1).
      destruct (gn_run n img dp w1) as [[k1 ok1] w1'] eqn:Hr. split.
      * intros [= <- -> <-]. destruct (proj1 (IH k1 w1') eq_refl) as [-> Hc].
        split; [reflexivity|]. econstructor; eassumption.
      * intros [-> Hc]. inversion Hc as [|? ? w2 ? Hs' Hc']; subst.
        rewrite Hs in Hs'. injection Hs' as <-.
        pose proof (proj2 (IH n w') (conj eq_refl Hc')) as [= -> -> ->].
        reflexivity.
    + split; [discriminate|].
      intros [_ Hc]. inversion Hc as [|? ? w2 ? Hs' Hc']; subst.
      rewrite Hs in Hs'. discriminate.
Qed.

Lemma gn_run_failure n img dp : forall w k w',
  gn_run n img dp w = (k, false, w') <->
  exists j wj, k = S j /\ (j < n)%nat /\ gn_chain img dp j w wj /\
               gn_step img dp wj = gn_failed w'.
Proof.
  induction n as [|n IH]; intros w k w'; simpl.
  - split; [discriminate|]. intros (j & wj & _ & Hlt & _). lia.
  - destruct (gn_step img dp w) as [w1|w1] eqn:Hs.
    + specialize (IH w1).
      destruct (gn_run n img dp w1) as [[k1 ok1] w1'] eqn:Hr. split.
      * intros [= <- -> <-].
        destruct (proj1 (IH k1 w1') eq_refl) as (j & wj & -> & Hlt & Hc & Hf).
        exists (S j), wj. repeat split; [lia| |assumption].
        econstructor; eassumption.
      * intros (j & wj & -> & Hlt & Hc & Hf).
        inversion Hc as [|j' ? w2 ? Hs' Hc']; subst.
        { rewrite Hs in Hf. discriminate. }
        rewrite Hs in Hs'. injection Hs' as <-.
        assert (Hex : exists j0 wj0, S j' = S j0 /\ (j0 < n)%nat /\
                  gn_chain img dp j0 w1 wj0 /\ gn_step img dp wj0 = gn_failed w').
        { exists j', wj. repeat split; [lia|assumption|assumption]. }
        pose proof (proj2 (IH (S j') w') Hex) as [= -> -> ->]. reflexivity.
    + split.
      * intros [= <- <-]. exists O, w. repeat split; [lia|constructor|assumption].
      * intros (j & wj & -> & Hlt & Hc & Hf).
        inversion Hc as [|j' ? w2 ? Hs' Hc']; subst.
        -- rewrite Hs in Hf. injection Hf as <-. reflexivity.
        -- rewrite Hs in Hs'. discriminate.
Qed.

(** C2. The per-level tracker is the Gauss-Newton iteration the
    specification describes: it runs [gn_run] for
    [optical_flow_max_iterations] steps (sample at
    [linear * pattern + translation], increment [- H_inv_J_T * r], failure on
    a sampling failure, on a non-finite increment, on an infinity norm of at
    least 10^6 and on a translation within 2 pixels of the border, else
    composition with the exponential); the iteration counter never exceeds
    [optical_flow_max_iterations]; the call returns true exactly when that
    many steps succeeded in a row, and false exactly when some step failed
    after fewer successful ones, with the warp that step left. *)
Theorem trackPointAtLevel_gauss_newton img dp w :
  let n := Z.to_nat (optical_flow_max_iterations config) in
  trackPointAtLevel config img dp w =
    (let '(_, ok, w') := gn_run n img dp w in (ok, w')) /\
  0 <= fst (fst (trackPointAtLevel_run config img dp w))
    <= Z.max 0 (optical_flow_max_iterations config) /\
  (forall w', trackPointAtLevel config img dp w = (true, w') <->
              gn_chain img dp n w w') /\
  (forall w', trackPointAtLevel config img dp w = (false, w') <->
              exists j wj, (j < n)%nat /\ gn_chain img dp j w wj /\
                           gn_step img dp wj = gn_failed w').
Proof.
  intros n.
  assert (Hrun : trackPointAtLevel_run config img dp w =
                 let '(k, ok, w') := gn_run n img dp w in (Z.of_nat k, ok, w')).
  { unfold trackPointAtLevel_run. fold n. rewrite trackPointAtLevel_loop_run.
    destruct (gn_run n img dp w) as [[k ok] w']. reflexivity. }
  pose proof (gn_run_steps n img dp w) as Hle.
  unfold trackPointAtLevel. rewrite Hrun.
  destruct (gn_run n img dp w) as [[k ok] w0] eqn:Hg. simpl in Hle |- *.
  split; [reflexivity|]. split; [lia|]. split; intros w'.
  - split.
    + intros [= -> ->]. apply (gn_run_success n img dp w k w'). assumption.
    + intros Hc.
      pose proof (proj2 (gn_run_success n img dp w n w') (conj eq_refl Hc)) as E.
      rewrite Hg in E. injection E as _ -> ->. reflexivity.
  - split.
    + intros [= -> ->].
      destruct (proj1 (gn_run_failure n img dp w k w') Hg)
        as (j & wj & _ & Hlt & Hc & Hf).
      exists j, wj. auto.
    + intros (j & wj & Hlt & Hc & Hf).
      assert (E : gn_run n img dp w = (S j, false, w')).
      { apply gn_run_failure. exists j, wj. auto. }
      rewrite Hg in E. injection E as _ -> ->. reflexivity.
Qed.

End GaussNewton.

Section Pyramid.
Context {num : Numeric} {ext : Externals}.
Variable config : VioConfig.

Lemma to_int_small z : - 2 ^ 31 <= z < 2 ^ 31 -> to_int z = z.
Proof.
  intros H. unfold to_int. rewrite Z.mod_small; lia.
Qed.

(** On [int], [1 << level] is [2^level] for the levels 0 to 30. *)
Lemma shl1_pow2 level : 0 <= level <= 30 -> shl1 level = 2 ^ level.
Proof.
  intros H. unfold shl1. rewrite Z.shiftl_1_l. apply to_int_small.
  split.
  - pose proof (Z.pow_pos_nonneg 2 level). lia.
  - apply Z.pow_lt_mono_r; lia.
Qed.

Lemma level_scale_pow2 (level : nat) :
  (level <= 30)%nat -> level_scale (Z.of_nat level) = pow2_scale level.
Proof.
  intros H. unfold level_scale, pow2_scale. rewrite shl1_pow2; [reflexivity|lia].
Qed.

Lemma trackPoint_loop_false cnt pyr pv w :
  trackPoint_loop config cnt pyr pv false w = Some (false, w).
Proof. destruct cnt; reflexivity. Qed.

Lemma trackPoint_loop_levels pyr pv : forall cnt w,
  (cnt <= 31)%nat ->
  trackPoint_loop config cnt pyr pv true w = track_levels config cnt pyr pv w.
Proof.
  induction cnt as [|level IH]; intros w Hc; simpl; [reflexivity|].
  rewrite level_scale_pow2 by lia.
  destruct (pv !! level) as [p|]; simpl; [|reflexivity].
  destruct (valid p); simpl.
  - destruct (trackPointAtLevel _ _ _ _) as [ok tr]. destruct ok; simpl.
    + apply IH. lia.
    + apply trackPoint_loop_false.
  - apply trackPoint_loop_false.
Qed.

Lemma track_levels_success pyr pv : forall n w w',
  track_levels config n pyr pv w = Some (true, w') <->
  levels_pass config pyr pv n 0 w w'.
Proof.
  induction n as [|level IH]; intros w w'; simpl.
  - split.
    + intros [= <-]. constructor.
    + intros H. inversion H; subst. reflexivity.
  - split.
    + destruct (pv !! level) as [p|] eqn:Hp; simpl; [|discriminate].
      destruct (valid p) eqn:Hv; [|discriminate].
      destruct (trackPointAtLevel _ _ _ _) as [ok w1] eqn:Ht.
      destruct ok; [|discriminate].
      intros H. apply IH in H.
      eapply levels_pass_cons; [lia| |exact H].
      exists p, w1. auto.
    + intros H. inversion H as [|? ? ? w2 ? _ (p & w1 & Hp & Hv & Ht & ->) Hrest];
        subst.
      rewrite Hp. simpl. rewrite Hv, Ht. apply IH. assumption.
Qed.

Lemma track_levels_failure pyr pv : forall n w w',
  track_levels config n pyr pv w = Some (false, w') <->
  exists level wl, (level < n)%nat /\
    levels_pass config pyr pv n (S level) w wl /\
    level_fails config pyr pv level wl w'.
Proof.
  induction n as [|level IH]; intros w w'; simpl.
  - split; [discriminate|]. intros (l & wl & Hlt & _). lia.
  - split.
    + destruct (pv !! level) as [p|] eqn:Hp; simpl; [|discriminate].
      destruct (valid p) eqn:Hv.
      * destruct (trackPointAtLevel _ _ _ _) as [ok w1] eqn:Ht. destruct ok.
        -- intros H. apply IH in H. destruct H as (l & wl & Hlt & Hpass & Hf).
           exists l, wl. split; [lia|]. split; [|assumption].
           eapply levels_pass_cons; [lia| |exact Hpass].
           exists p, w1. auto.
        -- intros [= <-]. exists level, w. split; [lia|].
           split; [constructor|]. exists p. split; [assumption|].
           right. split; [assumption|]. exists w1. auto.
      * intros [= <-]. exists level, w. split; [lia|].
        split; [constructor|]. exists p. split; [assumption|]. left. auto.
    + intros (l & wl & Hlt & Hpass & (p & Hp & Hf)).
      inversion Hpass as [|? ? ? w2 ? Hle (p' & w1 & Hp' & Hv' & Ht' & ->) Hrest];
        subst.
      * rewrite Hp. simpl.
        destruct Hf as [[Hv ->]|[Hv (w1 & Ht & ->)]]; rewrite Hv; [reflexivity|].
        rewrite Ht. reflexivity.
      * rewrite Hp'. simpl. rewrite Hv', Ht'. apply IH.
        exists l, wl. split; [lia|]. split; [assumption|].
        exists p. auto.
Qed.

(** C3. For a pyramid depth of at most 30, where [1 << level] is
    [2^level], [trackPoint] is the coarse-to-fine loop of the specification:
    levels from [optical_flow_levels] down to 0, the translation divided by
    [2^level] on entry and multiplied back afterwards, a failure when the
    patch of the level is invalid and otherwise the per-level tracker.  The
    two rescalings leave the linear part as it is.  The call succeeds exactly
    when every level passes, and fails exactly when the levels above some
    level pass and that level fails. *)
Theorem trackPoint_coarse_to_fine pyr pv w :
  optical_flow_levels config <= 30 ->
  let n := Z.to_nat (optical_flow_levels config + 1) in
  trackPoint config pyr pv w = track_levels config n pyr pv w /\
  (forall t s, linear (div_translation t s) = linear t /\
               linear (mul_translation t s) = linear t) /\
  (forall w', trackPoint config pyr pv w = Some (true, w') <->
              levels_pass config pyr pv n 0 w w') /\
  (forall w', trackPoint config pyr pv w = Some (false, w') <->
              exists level wl, (level < n)%nat /\
                levels_pass config pyr pv n (S level) w wl /\
                level_fails config pyr pv level wl w').
Proof.
  intros Hl n.
  assert (E : trackPoint config pyr pv w = track_levels config n pyr pv w).
  { unfold trackPoint. apply trackPoint_loop_levels. lia. }
  split; [exact E|]. split; [intros; split; reflexivity|].
  rewrite E. split; intros w'.
  - apply track_levels_success.
  - apply track_levels_failure.
Qed.

End Pyramid.

Section Writes.
Context {num : Numeric} {ext : Externals}.
Variable config : VioConfig.

Lemma trackPoint_writes_false cnt pyr pv w :
  trackPoint_writes config cnt pyr pv false w = Some (false, w, []).
Proof. destruct cnt; reflexivity. Qed.

(** Forgetting the record of writes gives back the loop of the source. *)
Lemma trackPoint_writes_erase pyr pv : forall cnt b w,
  trackPoint_loop config cnt pyr pv b w =
  fst <$> trackPoint_writes config cnt pyr pv b w.
Proof.
  induction cnt as [|level IH]; intros b w; simpl; [reflexivity|].
  destruct b; [|reflexivity].
  destruct (pv !! level) as [p|]; simpl; [|reflexivity].
  destruct (valid p); simpl.
  - destruct (trackPointAtLevel _ _ _ _) as [ok tr]. rewrite IH.
    destruct (trackPoint_writes _ _ _ _ _ _) as [[r ws]|]; reflexivity.
  - rewrite IH.
    destruct (trackPoint_writes _ _ _ _ _ _) as [[r ws]|]; reflexivity.
Qed.

Lemma replay_app ws1 ws2 (w : Affine) :
  replay (ws1 ++ ws2) w = replay ws2 (replay ws1 w).
Proof. unfold replay. apply foldl_app. Qed.

Lemma trackPoint_writes_balanced pyr pv : forall cnt w,
  (cnt <= 31)%nat -> (cnt <= length pv)%nat ->
  exists ok w' ws lo,
    trackPoint_writes config cnt pyr pv true w = Some (ok, w', ws) /\
    balanced cnt lo ws /\
    (ok = true -> lo = 0%nat) /\
    (ok = false -> (lo < cnt)%nat) /\
    replay ws w = w' /\
    ((0 < cnt)%nat -> exists x, w' = mul_translation x (pow2_scale lo)).
Proof.
  induction cnt as [|level IH]; intros w Hc Hlen.
  - exists true, w, [], 0%nat. simpl.
    repeat split; try constructor; try discriminate; lia.
  - destruct (lookup_lt_is_Some_2 pv level) as [p Hp]; [lia|].
    simpl. rewrite Hp. simpl. rewrite level_scale_pow2 by lia.
    destruct (valid p) eqn:Hv; simpl.
    + destruct (trackPointAtLevel _ _ _ _) as [ok tr] eqn:Ht. destruct ok; simpl.
      * destruct (IH (mul_translation tr (pow2_scale level)))
          as (ok & w' & ws & lo & Hw & Hb & Hok & Hko & Hr & Hx); [lia|lia|].
        rewrite Hw. simpl.
        exists ok, w', ([Divide level; Track level tr; Multiply level] ++ ws), lo.
        split; [reflexivity|].
        assert (Hlo : (lo <= level)%nat).
        { destruct ok; [rewrite Hok by reflexivity; lia|].
          specialize (Hko eq_refl). lia. }
        split; [constructor; [exact Hlo|right; eexists; reflexivity|exact Hb]|].
        split; [exact Hok|]. split; [intros; lia|].
        split; [rewrite replay_app; exact Hr|].
        intros _. destruct level as [|level'].
        -- inversion Hb; subst. simpl. eexists; reflexivity.
        -- apply Hx. lia.
      * rewrite trackPoint_writes_false. simpl.
        exists false, (mul_translation tr (pow2_scale level)),
          ([Divide level; Track level tr; Multiply level] ++ []), level.
        split; [reflexivity|].
        split; [constructor; [lia|right; eexists; reflexivity|constructor]|].
        split; [discriminate|]. split; [intros; lia|].
        split; [reflexivity|]. intros _. eexists; reflexivity.
    + rewrite trackPoint_writes_false. simpl.
      exists false,
        (mul_translation (div_translation w (pow2_scale level))
                         (pow2_scale level)),
        ([Divide level; Multiply level] ++ []), level.
      split; [reflexivity|].
      split; [constructor; [lia|left; reflexivity|constructor]|].
      split; [discriminate|]. split; [intros; lia|].
      split; [reflexivity|]. intros _. eexists; reflexivity.
Qed.

(** C10. With a pyramid depth of at most 30 and a patch stack that has a
    patch for every level, [trackPoint] returns, and what it leaves in its
    argument, on success and on failure alike, is the argument after all the
    writes the loop made: the warp is changed in place even when the result
    is false.  These writes come in one block per visited level, from the top
    level down to the last level visited: the division by [2^level], at most
    one run of the per-level tracker, and the multiplication by [2^level];
    a successful call visits every level.  So the last write before any
    return is the multiplication by the scale of the level that was entered
    last. *)
Theorem trackPoint_rescaling_balanced pyr pv w :
  optical_flow_levels config <= 30 ->
  (Z.to_nat (optical_flow_levels config + 1) <= length pv)%nat ->
  let n := Z.to_nat (optical_flow_levels config + 1) in
  exists ok w' ws lo,
    trackPoint config pyr pv w = Some (ok, w') /\
    trackPoint_writes config n pyr pv true w = Some (ok, w', ws) /\
    balanced n lo ws /\
    (ok = true -> lo = 0%nat) /\
    (ok = false -> (lo < n)%nat) /\
    replay ws w = w' /\
    ((0 < n)%nat -> exists x, w' = mul_translation x (pow2_scale lo)).
Proof.
  intros Hl Hlen n.
  destruct (trackPoint_writes_balanced pyr pv n w)
    as (ok & w' & ws & lo & Hw & Hrest); [lia|exact Hlen|].
  exists ok, w', ws, lo. split; [|split; [exact Hw|exact Hrest]].
  unfold trackPoint. fold n. rewrite trackPoint_writes_erase, Hw. reflexivity.
Qed.

End Writes.

(** ** Running the monad *)

Section Monad.
Context {num : Numeric} {ext : Externals}.

Lemma run_bind {A B} (m : M A) (k : A -> M B) s :
  (m ≫= k) s = match m s with Some (a, s1) => k a s1 | None => None end.
Proof. reflexivity. Qed.

Lemma run_mret {A} (a : A) (s : State) : (mret a : M A) s = Some (a, s).
Proof. reflexivity. Qed.

Lemma run_gets {A} (f : State -> A) s : gets f s = Some (f s, s).
Proof. reflexivity. Qed.

Lemma run_modify f s : modify f s = Some (tt, f s).
Proof. reflexivity. Qed.

Lemma run_lift_Some {A} (a : A) (s : State) : lift (Some a) s = Some (a, s).
Proof. reflexivity. Qed.

Lemma run_lift_None {A} (s : State) : lift (@None A) s = None.
Proof. reflexivity. Qed.

Lemma bind_Some {A B} (m : M A) (k : A -> M B) s b s' :
  (m ≫= k) s = Some (b, s') <->
  exists a s1, m s = Some (a, s1) /\ k a s1 = Some (b, s').
Proof.
  rewrite run_bind. destruct (m s) as [[a s1]|].
  - split; [eauto|]. intros (a' & s1' & [= -> ->] & H). exact H.
  - split; [discriminate|]. intros (a' & s1' & [=] & _).
Qed.

Lemma lift_Some {A} (o : option A) (s : State) a s' :
  lift o s = Some (a, s') <-> o = Some a /\ s' = s.
Proof.
  unfold lift. destruct o; split.
  - intros [= -> ->]. auto.
  - intros [[= ->] ->]. reflexivity.
  - discriminate.
  - intros [[=] _].
Qed.

Lemma gets_Some {A} (f : State -> A) s a s' :
  gets f s = Some (a, s') <-> a = f s /\ s' = s.
Proof.
  unfold gets. split; [intros [= <- <-]; auto|intros [-> ->]; reflexivity].
Qed.

Lemma modify_Some f (s : State) u s' :
  modify f s = Some (u, s') <-> s' = f s.
Proof.
  unfold modify. destruct u.
  split; [intros [= <-]; auto|intros ->; reflexivity].
Qed.

Lemma mret_Some {A} (x : A) (s : State) a s' :
  (mret x : M A) s = Some (a, s') <-> a = x /\ s' = s.
Proof.
  split; [intros [= <- <-]; auto|intros [-> ->]; reflexivity].
Qed.

End Monad.

(** Taking a successful run apart, one bind at a time. *)
Ltac inv_prim H1 :=
  match type of H1 with
  | gets _ _ = Some _ => apply gets_Some in H1; destruct H1 as [? ?]; subst
  | modify _ _ = Some _ => apply modify_Some in H1; subst
  | @mret _ _ _ _ _ = Some _ =>
      apply mret_Some in H1; destruct H1 as [? ?]; subst
  | lift _ _ = Some _ => apply lift_Some in H1; destruct H1 as [H1 ?]; subst
  end.

Ltac inv_run H :=
  match type of H with
  | (_ ≫= _) _ = Some _ =>
      let a := fresh "a" in
      let s1 := fresh "s" in
      let H1 := fresh "Hrun" in
      apply bind_Some in H; destruct H as (a & s1 & H1 & H);
      inv_run H1; inv_run H
  | _ => try inv_prim H
  end.

Ltac run_step :=
  first [ rewrite run_bind | rewrite run_gets | rewrite run_modify
        | rewrite run_mret | rewrite run_lift_Some ].

Ltac run := repeat run_step.

Section Bidirectional.
Context {num : Numeric} {ext : Externals}.
Variable config : VioConfig.
Variable calib : Calibration.

(** With a patch for every level the pyramid loop returns. *)
Lemma trackPoint_loop_total pyr pv : forall cnt b w,
  (cnt <= length pv)%nat ->
  exists r, trackPoint_loop config cnt pyr pv b w = Some r.
Proof.
  induction cnt as [|level IH]; intros b w Hlen; simpl; [eauto|].
  destruct b; [|eauto].
  destruct (lookup_lt_is_Some_2 pv level) as [p Hp]; [lia|].
  rewrite Hp. simpl.
  destruct (valid p); simpl.
  - destruct (trackPointAtLevel _ _ _ _) as [ok tr]. apply IH. lia.
  - apply IH. lia.
Qed.

Lemma trackPoint_total pyr pv w :
  (Z.to_nat (optical_flow_levels config + 1) <= length pv)%nat ->
  exists r, trackPoint config pyr pv w = Some r.
Proof. apply trackPoint_loop_total. Qed.

Lemma use_depth_prior_offset depth t1 cam1 cam2 :
  (if use_depth config cam1 cam2 then viewOffset calib t1 depth cam1 cam2
   else (s_of_int 0, s_of_int 0)) =
  prior_offset config calib depth t1 cam1 cam2.
Proof.
  unfold use_depth, prior_offset.
  destruct (Nat.eqb_spec cam1 cam2) as [E|E]; simpl.
  - destruct (decide _) as [_|n]; [reflexivity|]. exfalso. apply n. auto.
  - destruct (decide (optical_flow_matching_guess_type config = SAME_PIXEL))
      as [G|G].
    + rewrite bool_decide_eq_true_2 by exact G. simpl.
      destruct (decide _) as [_|n]; [reflexivity|]. exfalso. apply n. auto.
    + rewrite bool_decide_eq_false_2 by exact G. simpl.
      destruct (decide _) as [[?|?]|_]; [contradiction|contradiction|reflexivity].
Qed.

Lemma bounds_check_in_image (img : Image) (p : Vector2) :
  s_leb (s_of_int 0) (fst p) && s_leb (s_of_int 0) (snd p) &&
  s_ltb (fst p) (s_of_int (img_w img)) &&
  s_ltb (snd p) (s_of_int (img_h img)) = true <->
  in_image img p.
Proof.
  unfold in_image. rewrite !andb_true_iff. tauto.
Qed.

(** What one index of the loop of [compute_func] does to [result]: with a
    full patch stack for the keypoint it returns, and it either leaves
    [result] as it is or adds the keypoint a bidirectional match emits. *)
Lemma compute_func_body_spec pyr_1 pyr_2 patches_ depth cam1 cam2 id kp pv :
  patches_ !! id = Some pv ->
  (Z.to_nat (optical_flow_levels config + 1) <= length pv)%nat ->
  exists o : option Keypoint,
    (forall result,
       compute_func_body config calib pyr_1 pyr_2 patches_ depth cam1 cam2
                         id kp result =
       Some (match o with Some k => <[id := k]> result | None => result end)) /\
    (forall kp2, o = Some kp2 <->
       bidirectional_match config calib pyr_1 pyr_2 pv depth cam1 cam2
                           (pose kp) (pose kp2) /\
       kp2 = emitted kp (pose kp2)).
Proof.
  intros Hpv Hlen.
  unfold compute_func_body, bidirectional_match.
  rewrite use_depth_prior_offset.
  set (t1 := translation (pose kp)).
  set (off := prior_offset config calib depth t1 cam1 cam2).
  set (w0 := set_translation (pose kp) (v2_sub t1 off)).
  change (translation w0) with (v2_sub t1 off).
  pose proof (bounds_check_in_image (lvl pyr_2 0) (v2_sub t1 off)) as Hb.
  destruct (_ && _ && _ && _) eqn:Hchk; simpl.
  2:{ exists None. split; [reflexivity|]. intros kp2. split; [discriminate|].
      intros [[Hin _] _]. apply Hb in Hin. discriminate. }
  assert (Hin : in_image (lvl pyr_2 0) (v2_sub t1 off)) by (apply Hb; reflexivity).
  rewrite Hpv. simpl.
  destruct (trackPoint_total pyr_2 pv w0 Hlen) as [[ok2 w2] Hf].
  rewrite Hf. simpl.
  destruct ok2; simpl.
  2:{ exists None. split; [reflexivity|]. intros kp2. split; [discriminate|].
      intros [(_ & [=] & _) _]. }
  destruct (trackPoint_total pyr_1 pv
              (set_translation w2 (v2_add (translation w2) off)) Hlen)
    as [[ok1 w1] Hbk].
  rewrite Hbk. simpl.
  destruct ok1; simpl.
  2:{ exists None. split; [reflexivity|]. intros kp2. split; [discriminate|].
      intros [(_ & [= <-] & wb & Hwb & _) _]. rewrite Hbk in Hwb.
      discriminate. }
  destruct (s_ltb (squaredNorm _) _) eqn:Hd.
  - exists (Some (emitted kp w2)). split; [reflexivity|]. intros kp2. split.
    + intros [= <-]. simpl. split; [|reflexivity].
      split; [exact Hin|]. split; [reflexivity|]. exists w1. auto.
    + intros [(_ & [= <-] & _) ->]. reflexivity.
  - exists None. split; [reflexivity|]. intros kp2. split; [discriminate|].
    intros [(_ & [= <-] & wb & Hwb & Hlt) _]. rewrite Hbk in Hwb.
    injection Hwb as <-. rewrite Hd in Hlt. discriminate.
Qed.

(** The loop of [compute_func], on a list of distinct ids none of which is
    in [result] yet. *)
Lemma compute_func_spec pyr_1 pyr_2 patches_ depth cam1 cam2 :
  forall (l : list (Z * Keypoint)) (result : gmap Z Keypoint),
  NoDup l.*1 ->
  (forall id kp, (id, kp) ∈ l -> result !! id = None) ->
  (forall id kp, (id, kp) ∈ l ->
     exists pv, patches_ !! id = Some pv /\
       (Z.to_nat (optical_flow_levels config + 1) <= length pv)%nat) ->
  exists res,
    compute_func config calib pyr_1 pyr_2 patches_ depth cam1 cam2 l result =
      Some res /\
    forall id kp2, res !! id = Some kp2 <->
      result !! id = Some kp2 \/
      exists kp1 pv, (id, kp1) ∈ l /\ patches_ !! id = Some pv /\
        bidirectional_match config calib pyr_1 pyr_2 pv depth cam1 cam2
                            (pose kp1) (pose kp2) /\
        kp2 = emitted kp1 (pose kp2).
Proof.
  induction l as [|[id kp] l IH]; intros result Hnd Hfresh Hpatch; simpl.
  - exists result. split; [reflexivity|]. intros id kp2. split; [auto|].
    intros [H|(kp1 & pv & Hin & _)]; [exact H|]. inversion Hin.
  - destruct (Hpatch id kp) as (pv & Hpv & Hlen); [left|].
    destruct (compute_func_body_spec pyr_1 pyr_2 patches_ depth cam1 cam2
                id kp pv Hpv Hlen) as (o & Hbody & Ho).
    rewrite Hbody. simpl.
    apply NoDup_cons in Hnd. destruct Hnd as [Hnotin Hnd].
    assert (Hid : forall kp', (id, kp') ∉ l).
    { intros kp' Hin. apply Hnotin. apply list_elem_of_fmap.
      exists (id, kp'). auto. }
    set (result' := match o with Some k => <[id := k]> result
                              | None => result end).
    destruct (IH result' Hnd) as (res & Hres & Hlook).
    + intros id' kp' Hin. unfold result'. destruct o.
      * rewrite lookup_insert_ne; [apply (Hfresh id' kp'); right; exact Hin|].
        intros ->. exact (Hid kp' Hin).
      * apply (Hfresh id' kp'). right. exact Hin.
    + intros id' kp' Hin. apply (Hpatch id' kp'). right. exact Hin.
    + exists res. split; [exact Hres|]. intros id' kp2. rewrite Hlook.
      split.
      * intros [Hr|(kp1 & pv' & Hin & Hp & Hm)].
        -- unfold result' in Hr. destruct o as [k|].
           ++ destruct (decide (id = id')) as [->|Hne].
              ** rewrite lookup_insert_eq in Hr. injection Hr as ->.
                 right. exists kp, pv. split; [left|]. split; [exact Hpv|].
                 apply Ho. reflexivity.
              ** rewrite lookup_insert_ne in Hr by exact Hne. left. exact Hr.
           ++ left. exact Hr.
        -- right. exists kp1, pv'. split; [right; exact Hin|]. auto.
      * intros [Hr|(kp1 & pv' & Hin & Hp & Hm)].
        -- left. unfold result'. destruct o as [k|]; [|exact Hr].
           rewrite lookup_insert_ne; [exact Hr|]. intros ->.
           rewrite (Hfresh id' kp) in Hr by left. discriminate.
        -- apply elem_of_cons in Hin. destruct Hin as [[= -> ->]|Hin].
           ++ left. rewrite Hpv in Hp. injection Hp as <-.
              apply Ho in Hm. unfold result'. rewrite Hm.
              apply lookup_insert_eq.
           ++ right. exists kp1, pv'. auto.
Qed.

Lemma store_depth_guess_run depth s tr a inp :
  transforms s = Some tr -> input_images tr = Some a ->
  store s !! a = Some inp ->
  store_depth_guess depth s =
  Some (tt, set_store (<[a := set_in_depth_guess depth inp]> (store s)) s).
Proof.
  intros Ht Ha Hs. unfold store_depth_guess, get_transforms, deref.
  run. rewrite Ht. run. rewrite Ha. run. rewrite Hs. run. reflexivity.
Qed.

(** C1. In a state where [trackPoints] can store the depth guess and where
    every keypoint of the source map has a patch stack with a patch per
    level, [trackPoints] returns, and a keypoint [kp2] is in the output map
    under [id] exactly when the source map has a keypoint [kp1] under [id]
    such that: the prior [t1 - delta] is in [0,w) x [0,h) of level 0 of the
    destination pyramid, the forward [trackPoint] on the destination pyramid
    succeeds, the backward [trackPoint] on the source pyramid from the forward
    result with [delta] added back succeeds, the squared distance of the
    recovered translation to [t1] is below
    [optical_flow_max_recovered_dist2], and [kp2] carries the forward-tracked
    warp.  Here [delta] is zero when the cameras coincide or the guess is
    [SAME_PIXEL], and the view offset at the current depth guess otherwise. *)
Theorem trackPoints_bidirectional pyr_1 pyr_2 (keypoint_map_1 : gmap Z Keypoint)
    cam1 cam2 s tr a inp :
  transforms s = Some tr -> input_images tr = Some a ->
  store s !! a = Some inp ->
  (forall id kp, keypoint_map_1 !! id = Some kp ->
     exists pv, patches s !! id = Some pv /\
       (Z.to_nat (optical_flow_levels config + 1) <= length pv)%nat) ->
  exists keypoint_map_2 s',
    trackPoints config calib pyr_1 pyr_2 keypoint_map_1 cam1 cam2 s =
      Some (keypoint_map_2, s') /\
    forall id kp2, keypoint_map_2 !! id = Some kp2 <->
      exists kp1 pv,
        keypoint_map_1 !! id = Some kp1 /\ patches s !! id = Some pv /\
        bidirectional_match config calib pyr_1 pyr_2 pv (depth_guess s)
                            cam1 cam2 (pose kp1) (pose kp2) /\
        kp2 = emitted kp1 (pose kp2).
Proof.
  intros Ht Ha Hs Hpatch.
  destruct (compute_func_spec pyr_1 pyr_2 (patches s) (depth_guess s) cam1 cam2
              (map_to_list keypoint_map_1) ∅) as (res & Hres & Hlook).
  - apply NoDup_fst_map_to_list.
  - intros. apply lookup_empty.
  - intros id kp Hin. apply elem_of_map_to_list in Hin. eauto.
  - exists res. eexists. split.
    + unfold trackPoints. run.
      rewrite (store_depth_guess_run _ s tr a inp Ht Ha Hs). run.
      simpl. rewrite Hres. reflexivity.
    + intros id kp2. rewrite Hlook. rewrite lookup_empty. split.
      * intros [[=]|(kp1 & pv & Hin & H)].
        exists kp1, pv. split; [apply elem_of_map_to_list; exact Hin|exact H].
      * intros (kp1 & pv & Hin & H). right. exists kp1, pv.
        split; [apply elem_of_map_to_list; exact Hin|exact H].
Qed.

End Bidirectional.

(** ** Parts of the state an operation leaves alone *)

Section Unchanged.
Context {num : Numeric} {ext : Externals}.

Lemma unchanged_bind {X A B} (f : State -> X) (m : M A) (k : A -> M B) :
  unchanged f m -> (forall a, unchanged f (k a)) -> unchanged f (m ≫= k).
Proof.
  intros Hm Hk s b s' H. apply bind_Some in H. destruct H as (a & s1 & H1 & H2).
  rewrite (Hk a _ _ _ H2). apply (Hm _ _ _ H1).
Qed.

Lemma unchanged_mret {X A} (f : State -> X) (a : A) : unchanged f (mret a : M A).
Proof. intros s a' s' [= _ <-]. reflexivity. Qed.

Lemma unchanged_gets {X A} (f : State -> X) (g : State -> A) :
  unchanged f (gets g).
Proof. intros s a' s' [= _ <-]. reflexivity. Qed.

Lemma unchanged_lift {X A} (f : State -> X) (o : option A) :
  unchanged f (lift o).
Proof. intros s a s' H. apply lift_Some in H. destruct H as [_ ->]. reflexivity. Qed.

Lemma unchanged_modify {X} (f : State -> X) (g : State -> State) :
  (forall s, f (g s) = f s) -> unchanged f (modify g).
Proof. intros Hg s a s' [= _ <-]. apply Hg. Qed.

Lemma unchanged_if {X A} (f : State -> X) (b : bool) (m1 m2 : M A) :
  unchanged f m1 -> unchanged f m2 -> unchanged f (if b then m1 else m2).
Proof. destruct b; auto. Qed.

End Unchanged.

Ltac unchanged_step :=
  first
    [ apply unchanged_mret
    | apply unchanged_gets
    | apply unchanged_lift
    | apply unchanged_modify; intros; first [reflexivity | solve [auto]]
    | solve [auto]
    | apply unchanged_if
    | apply unchanged_bind; [|intros ?] ].

Ltac solve_unchanged := repeat unchanged_step.

Section UnchangedBySetters.
Context {num : Numeric} {ext : Externals}.
Context {X : Type} (f : State -> X).

Lemma write_keypoints_setter cam m :
  (forall v s, f (set_transforms v s) = f s) ->
  unchanged f (write_keypoints cam m).
Proof. intros H. unfold write_keypoints, get_transforms. solve_unchanged. Qed.

Lemma store_depth_guess_setter depth :
  (forall v s, f (set_store v s) = f s) ->
  unchanged f (store_depth_guess depth).
Proof.
  intros H. unfold store_depth_guess, get_transforms, deref. solve_unchanged.
Qed.

Lemma push_result_setter config :
  (forall v s, f (set_output_queue v s) = f s) ->
  (forall v s, f (set_store v s) = f s) ->
  unchanged f (push_result config).
Proof.
  intros Hq Hs. unfold push_result. apply unchanged_bind; [solve_unchanged|].
  intros [q|]; [|solve_unchanged].
  apply unchanged_bind; [solve_unchanged|]. intros fc.
  unfold get_transforms, deref. solve_unchanged.
Qed.

End UnchangedBySetters.

Section UnchangedOperations.
Context {num : Numeric} {ext : Externals}.
Variable config : VioConfig.
Variable calib : Calibration.
Context {X : Type} (f : State -> X).

Hypothesis f_t_ns : forall v s, f (set_t_ns v s) = f s.
Hypothesis f_last_keypoint_id : forall v s, f (set_last_keypoint_id v s) = f s.
Hypothesis f_patches : forall v s, f (set_patches v s) = f s.
Hypothesis f_transforms : forall v s, f (set_transforms v s) = f s.
Hypothesis f_old_pyramid : forall v s, f (set_old_pyramid v s) = f s.
Hypothesis f_pyramid : forall v s, f (set_pyramid v s) = f s.
Hypothesis f_frame_counter : forall v s, f (set_frame_counter v s) = f s.
Hypothesis unchanged_push_result : unchanged f (push_result config).
Hypothesis unchanged_write_keypoints :
  forall cam m, unchanged f (write_keypoints cam m).
Hypothesis unchanged_store_depth_guess :
  forall depth, unchanged f (store_depth_guess depth).

Lemma unchanged_deref a : unchanged f (deref a).
Proof. unfold deref. solve_unchanged. Qed.

Lemma unchanged_get_transforms : unchanged f get_transforms.
Proof. unfold get_transforms. solve_unchanged. Qed.

Lemma unchanged_read_keypoints cam : unchanged f (read_keypoints cam).
Proof. unfold read_keypoints, get_transforms. solve_unchanged. Qed.

Lemma unchanged_get_pyramid i : unchanged f (get_pyramid i).
Proof. unfold get_pyramid. solve_unchanged. Qed.

Lemma unchanged_get_old_pyramid i : unchanged f (get_old_pyramid i).
Proof. unfold get_old_pyramid. solve_unchanged. Qed.

Lemma unchanged_detect : unchanged f (detect config).
Proof.
  unfold detect, read_keypoints, get_pyramid, get_transforms, deref.
  solve_unchanged.
Qed.

Lemma unchanged_trackPoints pyr_1 pyr_2 m cam1 cam2 :
  unchanged f (trackPoints config calib pyr_1 pyr_2 m cam1 cam2).
Proof.
  unfold trackPoints. pose proof unchanged_store_depth_guess.
  solve_unchanged.
Qed.

Lemma unchanged_emplace_all cam kvs : unchanged f (emplace_all cam kvs).
Proof.
  induction kvs as [|kv kvs IH]; simpl.
  - solve_unchanged.
  - pose proof unchanged_read_keypoints. pose proof unchanged_write_keypoints.
    solve_unchanged.
Qed.

Lemma unchanged_filterPoints : unchanged f (filterPoints config calib).
Proof.
  unfold filterPoints.
  pose proof unchanged_read_keypoints. pose proof unchanged_write_keypoints.
  solve_unchanged.
Qed.

Lemma unchanged_seed_stereo pyr0 new_kpts0 :
  unchanged f (seed_stereo config calib pyr0 new_kpts0).
Proof.
  unfold seed_stereo.
  pose proof unchanged_get_pyramid. pose proof unchanged_trackPoints.
  pose proof unchanged_emplace_all.
  solve_unchanged.
Qed.

Lemma unchanged_add_corner pyr0 c new_kpts0 :
  unchanged f (add_corner config pyr0 c new_kpts0).
Proof.
  unfold add_corner.
  pose proof unchanged_read_keypoints. pose proof unchanged_write_keypoints.
  solve_unchanged.
Qed.

Lemma unchanged_add_corners pyr0 corners : forall new_kpts0,
  unchanged f (add_corners config pyr0 corners new_kpts0).
Proof.
  induction corners as [|c corners IH]; intros new_kpts0; simpl.
  - solve_unchanged.
  - pose proof unchanged_add_corner. solve_unchanged.
Qed.

Lemma unchanged_addPoints : unchanged f (addPoints config calib).
Proof.
  unfold addPoints.
  pose proof unchanged_detect. pose proof unchanged_get_pyramid.
  pose proof unchanged_add_corners. pose proof unchanged_seed_stereo.
  solve_unchanged.
Qed.

Lemma unchanged_track_cameras cams : forall new_keypoints,
  unchanged f (track_cameras config calib cams new_keypoints).
Proof.
  induction cams as [|i cams IH]; intros new_keypoints; simpl.
  - solve_unchanged.
  - pose proof unchanged_get_old_pyramid. pose proof unchanged_get_pyramid.
    pose proof unchanged_read_keypoints. pose proof unchanged_trackPoints.
    solve_unchanged.
Qed.

Lemma unchanged_first_frame curr_t_ns new_img_vec inp :
  unchanged f (first_frame config calib curr_t_ns new_img_vec inp).
Proof.
  unfold first_frame.
  pose proof unchanged_get_transforms. pose proof unchanged_addPoints.
  pose proof unchanged_filterPoints.
  solve_unchanged.
Qed.

Lemma unchanged_next_frame curr_t_ns new_img_vec inp :
  unchanged f (next_frame config calib curr_t_ns new_img_vec inp).
Proof.
  unfold next_frame.
  pose proof unchanged_track_cameras. pose proof unchanged_addPoints.
  pose proof unchanged_filterPoints.
  solve_unchanged.
Qed.

Lemma unchanged_branch curr_t_ns new_img_vec inp (b : bool) :
  unchanged f (if b then first_frame config calib curr_t_ns new_img_vec inp
               else next_frame config calib curr_t_ns new_img_vec inp).
Proof.
  apply unchanged_if;
    [apply unchanged_first_frame|apply unchanged_next_frame].
Qed.

Lemma unchanged_processFrame curr_t_ns new_img_vec :
  unchanged f (processFrame config calib curr_t_ns new_img_vec).
Proof.
  unfold processFrame.
  pose proof unchanged_deref. pose proof unchanged_first_frame.
  pose proof unchanged_next_frame.
  solve_unchanged.
Qed.

End UnchangedOperations.

Ltac by_setters :=
  intros;
  first [ reflexivity
        | apply write_keypoints_setter; intros; reflexivity
        | apply store_depth_guess_setter; intros; reflexivity
        | apply push_result_setter; intros; reflexivity ].

Section Driver.
Context {num : Numeric} {ext : Externals}.
Variable config : VioConfig.
Variable calib : Calibration.

Lemma existsb_is_null {A} (l : list (option A)) :
  existsb is_null l = true <-> None ∈ l.
Proof.
  rewrite existsb_exists. split.
  - intros ([x|] & Hin & Hx); [discriminate|]. apply list_elem_of_In. exact Hin.
  - intros Hin. exists None. split; [apply list_elem_of_In; exact Hin|reflexivity].
Qed.

Lemma last_nonempty {A} (l : list A) x a b :
  List.last (x :: l) a = List.last (x :: l) b.
Proof.
  revert x. induction l as [|y l IH]; intros x; [reflexivity|].
  change (List.last (y :: l) a = List.last (y :: l) b). apply IH.
Qed.

(** The worker's depth state after the drain loop: the value pushed last. *)
Lemma drain_depth_last pushed : forall s,
  depth_guess (foldl (fun s d => set_depth_guess d s) s pushed) =
  List.last pushed (depth_guess s).
Proof.
  induction pushed as [|d pushed IH]; intros s; [reflexivity|].
  simpl foldl. rewrite IH.
  destruct pushed as [|d0 pushed]; [reflexivity|].
  change (List.last (d0 :: pushed) (depth_guess (set_depth_guess d s)) =
          List.last (d0 :: pushed) (depth_guess s)).
  apply last_nonempty.
Qed.

Lemma drain_depth_other {Y} (g : State -> Y) pushed :
  (forall d s, g (set_depth_guess d s) = g s) ->
  forall s, g (foldl (fun s d => set_depth_guess d s) s pushed) = g s.
Proof.
  intros Hg. induction pushed as [|d pushed IH]; intros s; [reflexivity|].
  simpl. rewrite IH. apply Hg.
Qed.

Lemma processingLoop_turn pushed a rest s inp :
  store s !! a = Some inp ->
  processingLoop config calib ((pushed, Some a) :: rest) s =
  match processFrame config calib (in_t_ns inp) a (at_frame pushed a inp s) with
  | Some (_, s1) => processingLoop config calib rest s1
  | None => None
  end.
Proof.
  intros Hs. simpl. unfold drain_depth, deref. run. cbv beta iota.
  rewrite (drain_depth_other store) by reflexivity. rewrite Hs. run.
  cbv beta iota. unfold at_frame.
  rewrite (drain_depth_other store) by reflexivity.
  destruct (processFrame _ _ _ _ _) as [[[] s1]|]; reflexivity.
Qed.

Lemma processFrame_missing curr_t_ns a s inp :
  store s !! a = Some inp -> None ∈ img_data inp ->
  processFrame config calib curr_t_ns a s = Some (tt, s).
Proof.
  intros Hs Hnull. unfold processFrame, deref. run. cbv beta iota.
  rewrite Hs. run. cbv beta iota.
  rewrite (proj2 (existsb_is_null (img_data inp)) Hnull). reflexivity.
Qed.

Lemma processingLoop_missing pushed a rest s inp :
  store s !! a = Some inp -> None ∈ img_data inp ->
  processingLoop config calib ((pushed, Some a) :: rest) s =
  processingLoop config calib rest (at_frame pushed a inp s).
Proof.
  intros Hs Hnull. rewrite (processingLoop_turn pushed a rest s inp Hs).
  rewrite (processFrame_missing (in_t_ns inp) a (at_frame pushed a inp s)
             (set_stats (addTime "frames_received" (stats inp)) inp)).
  - reflexivity.
  - unfold at_frame. simpl. apply lookup_insert_eq.
  - exact Hnull.
Qed.

(** C7. When a payload of the popped bundle is null, [processFrame] returns
    at once and leaves the state it was entered in: nothing is tracked or
    detected, no patch is created and nothing is pushed.  In the turn of the
    worker loop as a whole only the depth guess (the drain) and the timing
    statistics of the bundle change: the keypoint maps, the pyramids,
    [frame_counter], [last_keypoint_id], the patch store, [t_ns] and the
    output queue are those from before the turn, and the loop goes on with
    the next bundle. *)
Theorem missing_frame_skipped pushed a rest s inp :
  store s !! a = Some inp ->
  None ∈ img_data inp ->
  let s1 := at_frame pushed a inp s in
  processFrame config calib (in_t_ns inp) a s1 = Some (tt, s1) /\
  processingLoop config calib ((pushed, Some a) :: rest) s =
    processingLoop config calib rest s1 /\
  transforms s1 = transforms s /\
  pyramid s1 = pyramid s /\ old_pyramid s1 = old_pyramid s /\
  frame_counter s1 = frame_counter s /\
  last_keypoint_id s1 = last_keypoint_id s /\
  patches s1 = patches s /\
  t_ns s1 = t_ns s /\
  output_queue s1 = output_queue s.
Proof.
  intros Hs Hnull s1.
  split.
  { apply (processFrame_missing (in_t_ns inp) a s1
             (set_stats (addTime "frames_received" (stats inp)) inp)).
    - unfold s1, at_frame. simpl. apply lookup_insert_eq.
    - exact Hnull. }
  split; [apply (processingLoop_missing pushed a rest s inp Hs Hnull)|].
  unfold s1, at_frame. simpl.
  rewrite (drain_depth_other transforms), (drain_depth_other pyramid),
    (drain_depth_other old_pyramid), (drain_depth_other frame_counter),
    (drain_depth_other last_keypoint_id), (drain_depth_other patches),
    (drain_depth_other t_ns), (drain_depth_other output_queue) by reflexivity.
  repeat split; reflexivity.
Qed.

(** [processFrame] on a bundle with all its images: one of the two branches,
    then the push, then the increment of [frame_counter]. *)
Lemma processFrame_full curr_t_ns a s s' inp :
  store s !! a = Some inp ->
  None ∉ img_data inp ->
  processFrame config calib curr_t_ns a s = Some (tt, s') ->
  exists s1 s2,
    (if t_ns s <? 0 then first_frame config calib curr_t_ns a inp
     else next_frame config calib curr_t_ns a inp) s = Some (tt, s1) /\
    push_result config s1 = Some (tt, s2) /\
    s' = set_frame_counter (to_size_t (frame_counter s2 + 1)) s2.
Proof.
  intros Hs Hfull H. unfold processFrame, deref in H.
  rewrite !run_bind, run_gets in H. cbv beta iota in H.
  rewrite Hs in H. rewrite run_lift_Some in H. cbv beta iota in H.
  destruct (existsb is_null (img_data inp)) eqn:He.
  { exfalso. apply Hfull. apply existsb_is_null. exact He. }
  apply bind_Some in H. destruct H as (t & s0 & [= <- <-] & H).
  apply bind_Some in H. destruct H as ([] & s1 & Hb & H).
  apply bind_Some in H. destruct H as ([] & s2 & Hp & H).
  rewrite run_modify in H. injection H as <-.
  exists s1, s2. auto.
Qed.

(** The end of [processFrame]: the result is pushed exactly when a queue is
    attached and the counter is a multiple of the divisor. *)
Lemma push_result_spec s s' :
  push_result config s = Some (tt, s') ->
  frame_counter s' = frame_counter s /\
  transforms s' = transforms s /\
  match output_queue s with
  | None => output_queue s' = None
  | Some q =>
      to_size_t (optical_flow_skip_frames config) <> 0 /\
      if frame_counter s mod to_size_t (optical_flow_skip_frames config) =? 0
      then exists r, transforms s = Some r /\
                     output_queue s' = Some (q ++ [Some r])
      else output_queue s' = Some q
  end.
Proof.
  intros H.
  split; [apply (push_result_setter frame_counter) in H;
          [exact H|by_setters|by_setters]|].
  split; [apply (push_result_setter transforms) in H;
          [exact H|by_setters|by_setters]|].
  unfold push_result in H. rewrite run_bind, run_gets in H.
  cbv beta iota in H.
  destruct (output_queue s) as [q|] eqn:Hq.
  2:{ injection H as <-. exact Hq. }
  rewrite run_bind, run_gets in H. cbv beta iota in H.
  destruct (to_size_t (optical_flow_skip_frames config) =? 0) eqn:Hd;
    [discriminate|].
  apply Z.eqb_neq in Hd. split; [exact Hd|].
  destruct (frame_counter s mod _ =? 0).
  - unfold get_transforms, deref in H.
    rewrite !run_bind, run_gets in H. cbv beta iota in H.
    destruct (transforms s) as [r|]; [|discriminate].
    rewrite run_lift_Some in H. cbv beta iota in H.
    rewrite run_bind in H.
    destruct (input_images r) as [a|]; [|discriminate].
    rewrite run_lift_Some in H. cbv beta iota in H.
    rewrite !run_bind, run_gets in H. cbv beta iota in H.
    destruct (store s !! a) as [inp|]; [|discriminate].
    rewrite run_lift_Some in H. cbv beta iota in H.
    rewrite run_bind, !run_modify in H. cbv beta iota in H.
    injection H as <-. exists r. split; [reflexivity|]. simpl. reflexivity.
  - injection H as <-. exact Hq.
Qed.

End Driver.

Section KeypointMaps.
Context {num : Numeric} {ext : Externals}.
Variable config : VioConfig.
Variable calib : Calibration.

Lemma read_keypoints_spec cam s m s' :
  read_keypoints cam s = Some (m, s') <->
  keypoints_of s cam = Some m /\ s' = s.
Proof.
  unfold read_keypoints, get_transforms, keypoints_of.
  rewrite !run_bind, run_gets. cbv beta iota.
  destruct (transforms s) as [r|]; simpl.
  - destruct (keypoints r !! cam) as [m'|]; simpl.
    + split; [intros [= -> ->]; auto|intros [[= ->] ->]; reflexivity].
    + split; [discriminate|intros [[=] _]].
  - split; [discriminate|intros [[=] _]].
Qed.

Lemma write_keypoints_spec cam m s s' :
  write_keypoints cam m s = Some (tt, s') ->
  is_Some (keypoints_of s cam) /\
  keypoints_of s' cam = Some m /\
  (forall j, j <> cam -> keypoints_of s' j = keypoints_of s j) /\
  result_meta s' = result_meta s.
Proof.
  unfold write_keypoints, get_transforms, keypoints_of, result_meta.
  rewrite !run_bind, run_gets. cbv beta iota.
  destruct (transforms s) as [r|]; simpl; [|discriminate].
  destruct (keypoints r !! cam) as [m'|] eqn:Hm; simpl; [|discriminate].
  intros [= <-]. simpl.
  split; [eauto|]. split.
  - apply list_lookup_insert_eq. eapply lookup_lt_Some. exact Hm.
  - split.
    + intros j Hj. apply list_lookup_insert_ne. auto.
    + rewrite length_insert. reflexivity.
Qed.

Lemma write_keypoints_other cam m j :
  j <> cam -> unchanged (fun s => keypoints_of s j) (write_keypoints cam m).
Proof.
  intros Hj s [] s' H. apply write_keypoints_spec in H.
  destruct H as (_ & _ & H & _). apply H. exact Hj.
Qed.

Lemma write_keypoints_meta cam m : unchanged result_meta (write_keypoints cam m).
Proof.
  intros s [] s' H. apply write_keypoints_spec in H. apply H.
Qed.

(** [emplace] keeps what the map has: it is the left-biased union. *)
Lemma emplace_union kv (m : gmap Z Keypoint) :
  emplace kv m = m ∪ {[fst kv := snd kv]}.
Proof.
  unfold emplace. destruct (m !! fst kv) as [k|] eqn:Hk.
  - apply map_eq. intros i. rewrite lookup_union.
    destruct (decide (i = fst kv)) as [->|Hi].
    + rewrite Hk, lookup_singleton_eq. reflexivity.
    + rewrite lookup_singleton_ne by auto. destruct (m !! i); reflexivity.
  - apply insert_union_singleton_r. exact Hk.
Qed.

Lemma foldl_emplace_union kvs : forall (m : gmap Z Keypoint),
  foldl (fun acc kv => emplace kv acc) m kvs = m ∪ list_to_map kvs.
Proof.
  induction kvs as [|[k v] kvs IH]; intros m; simpl.
  - rewrite (right_id_L ∅ (∪)). reflexivity.
  - rewrite IH, emplace_union. simpl.
    rewrite <- (assoc_L (∪)). rewrite <- insert_union_singleton_l.
    reflexivity.
Qed.

Lemma emplace_all_spec cam kvs : forall s s',
  emplace_all cam kvs s = Some (tt, s') ->
  keypoints_of s' cam =
    (fun m => m ∪ list_to_map kvs) <$> keypoints_of s cam /\
  (forall j, j <> cam -> keypoints_of s' j = keypoints_of s j) /\
  result_meta s' = result_meta s.
Proof.
  induction kvs as [|[k v] kvs IH]; intros s s' H; simpl in H.
  - injection H as <-. split; [|auto].
    destruct (keypoints_of s cam) as [m|]; simpl; [|reflexivity].
    rewrite (right_id_L ∅ (∪)). reflexivity.
  - apply bind_Some in H. destruct H as (m & s0 & Hr & H).
    apply read_keypoints_spec in Hr. destruct Hr as [Hm ->].
    apply bind_Some in H. destruct H as ([] & s1 & Hw & H).
    apply write_keypoints_spec in Hw. destruct Hw as (_ & Hc & Ho & Hmeta).
    apply IH in H. destruct H as (Hc' & Ho' & Hmeta').
    split; [|split].
    + rewrite Hc', Hc, Hm. simpl. f_equal.
      rewrite emplace_union. simpl.
      rewrite <- (assoc_L (∪)). rewrite <- insert_union_singleton_l.
      reflexivity.
    + intros j Hj. rewrite Ho', Ho by exact Hj. reflexivity.
    + rewrite Hmeta', Hmeta. reflexivity.
Qed.

(** *** The epipolar filter *)

Lemma elem_of_stereo_pairs (m0 m1 : gmap Z Keypoint) id p0 p1 :
  (id, p0, p1) ∈ stereo_pairs m0 m1 <->
  exists kp0 kp1, m0 !! id = Some kp0 /\ m1 !! id = Some kp1 /\
    p0 = translation (pose kp0) /\ p1 = translation (pose kp1).
Proof.
  unfold stereo_pairs. rewrite list_elem_of_omap. split.
  - intros ([id' kp1] & Hin & H). apply elem_of_map_to_list in Hin.
    simpl in H. destruct (m0 !! id') as [kp0|] eqn:H0; [|discriminate].
    injection H as <- <- <-. exists kp0, kp1. auto.
  - intros (kp0 & kp1 & H0 & H1 & -> & ->). exists (id, kp1). split.
    + apply elem_of_map_to_list. exact H1.
    + simpl. rewrite H0. reflexivity.
Qed.

Lemma removes_epipolar_reject kp0 kp1 :
  removes config calib (translation (pose kp0)) (translation (pose kp1)) =
  epipolar_reject config calib kp0 kp1.
Proof.
  unfold removes, epipolar_reject.
  destruct (unproject calib 0%nat (translation (pose kp0))) as [f0 ok0].
  destruct (unproject calib 1%nat (translation (pose kp1))) as [f1 ok1].
  destruct ok0, ok1; reflexivity.
Qed.

Lemma elem_of_lm_to_remove_of pairs : forall (acc : gset Z) id,
  id ∈ foldl (fun (acc : gset Z) '(kpid, proj0, proj1) =>
                let '(p3d0, p3d0_success) := unproject calib 0%nat proj0 in
                let '(p3d1, p3d1_success) := unproject calib 1%nat proj1 in
                if p3d0_success && p3d1_success then
                  let epipolar_error :=
                    d_of_s (s_abs (bilinear4 p3d0 (essential calib) p3d1)) in
                  if d_ltb (optical_flow_epipolar_error config) epipolar_error
                  then acc ∪ {[kpid]} else acc
                else acc ∪ {[kpid]}) acc pairs <->
  id ∈ acc \/ exists p0 p1, (id, p0, p1) ∈ pairs /\ removes config calib p0 p1 = true.
Proof.
  induction pairs as [|[[k p0] p1] pairs IH]; intros acc id; simpl.
  - split; [auto|]. intros [H|(? & ? & H & _)]; [exact H|inversion H].
  - rewrite IH. clear IH.
    assert (Hstep : id ∈ (let '(p3d0, p3d0_success) := unproject calib 0%nat p0 in
                          let '(p3d1, p3d1_success) := unproject calib 1%nat p1 in
                          if p3d0_success && p3d1_success then
                            if d_ltb (optical_flow_epipolar_error config)
                                 (d_of_s (s_abs (bilinear4 p3d0 (essential calib) p3d1)))
                            then acc ∪ {[k]} else acc
                          else acc ∪ {[k]}) <->
                    id ∈ acc \/ (id = k /\ removes config calib p0 p1 = true)).
    { unfold removes.
      destruct (unproject calib 0%nat p0) as [f0 ok0].
      destruct (unproject calib 1%nat p1) as [f1 ok1].
      destruct (ok0 && ok1); [destruct (d_ltb _ _)|];
        rewrite ?elem_of_union, ?elem_of_singleton; intuition congruence. }
    rewrite Hstep. split.
    + intros [[H|[-> H]]|(q0 & q1 & Hin & H)].
      * left. exact H.
      * right. exists p0, p1. split; [left|exact H].
      * right. exists q0, q1. split; [right; exact Hin|exact H].
    + intros [H|(q0 & q1 & Hin & H)]; [left; left; exact H|].
      apply elem_of_cons in Hin. destruct Hin as [[= -> -> ->]|Hin].
      * left. right. auto.
      * right. exists q0, q1. auto.
Qed.

Lemma elem_of_lm_to_remove (m0 m1 : gmap Z Keypoint) id :
  id ∈ lm_to_remove_of config calib (stereo_pairs m0 m1) <->
  exists kp0 kp1, m0 !! id = Some kp0 /\ m1 !! id = Some kp1 /\
                  epipolar_reject config calib kp0 kp1 = true.
Proof.
  unfold lm_to_remove_of. rewrite elem_of_lm_to_remove_of. split.
  - intros [H|(p0 & p1 & Hin & Hr)]; [apply not_elem_of_empty in H; contradiction|].
    apply elem_of_stereo_pairs in Hin.
    destruct Hin as (kp0 & kp1 & H0 & H1 & -> & ->).
    rewrite removes_epipolar_reject in Hr. eauto.
  - intros (kp0 & kp1 & H0 & H1 & Hr). right.
    exists (translation (pose kp0)), (translation (pose kp1)). split.
    + apply elem_of_stereo_pairs. exists kp0, kp1. auto.
    + rewrite removes_epipolar_reject. exact Hr.
Qed.

Lemma erase_all_lookup ids : forall (m : gmap Z Keypoint) id,
  erase_all ids m !! id =
  if decide (id ∈ (fun x => to_size_t (to_int x)) <$> ids) then None
  else m !! id.
Proof.
  unfold erase_all.
  induction ids as [|x ids IH]; intros m id.
  - rewrite decide_False; [reflexivity|]. intros H. inversion H.
  - rewrite fmap_cons. simpl foldl. rewrite IH.
    destruct (decide (id ∈ (fun x => to_size_t (to_int x)) <$> ids)) as [H|H].
    + rewrite decide_True by (right; exact H). reflexivity.
    + destruct (decide (id = to_size_t (to_int x))) as [->|Hne].
      * rewrite decide_True by left. apply lookup_delete_eq.
      * rewrite decide_False.
        -- apply lookup_delete_ne. auto.
        -- intros Hin. apply elem_of_cons in Hin. tauto.
Qed.

(** An id below [2^31] survives the conversion to [int] and back. *)
Lemma int_round_trip id : 0 <= id < 2 ^ 31 -> to_size_t (to_int id) = id.
Proof.
  intros H. rewrite to_int_small by lia. unfold to_size_t, size_t_modulus.
  apply Z.mod_small. lia.
Qed.

(** The conversion to [int] and back never lands between [2^31] and
    [2^64 - 2^31]. *)
Lemma int_round_trip_range x :
  0 <= to_size_t (to_int x) < 2 ^ 31 \/
  2 ^ 64 - 2 ^ 31 <= to_size_t (to_int x) < 2 ^ 64.
Proof.
  unfold to_size_t, size_t_modulus, to_int.
  assert (H : - 2 ^ 31 <= (x + 2 ^ 31) mod 2 ^ 32 - 2 ^ 31 < 2 ^ 31).
  { pose proof (Z.mod_pos_bound (x + 2 ^ 31) (2 ^ 32)). lia. }
  set (y := (x + 2 ^ 31) mod 2 ^ 32 - 2 ^ 31) in *.
  destruct (Z_lt_le_dec y 0) as [Hneg|Hpos].
  - right. replace (y mod 2 ^ 64) with (y + 2 ^ 64).
    + lia.
    + apply (Z.mod_unique_pos _ _ (-1)); lia.
  - left. rewrite Z.mod_small; lia.
Qed.

Lemma filterPoints_run s s' :
  filterPoints config calib s = Some (tt, s') ->
  if (intrinsics_size calib <? 2)%nat then s' = s
  else exists m0 m1,
    keypoints_of s 0%nat = Some m0 /\ keypoints_of s 1%nat = Some m1 /\
    keypoints_of s' 1%nat =
      Some (erase_all
              (elements (lm_to_remove_of config calib (stereo_pairs m0 m1)))
              m1) /\
    (forall j, j <> 1%nat -> keypoints_of s' j = keypoints_of s j) /\
    result_meta s' = result_meta s.
Proof.
  unfold filterPoints. destruct (_ <? 2)%nat.
  - intros [= <-]. reflexivity.
  - intros H.
    apply bind_Some in H. destruct H as (m1 & s0 & Hr & H).
    apply read_keypoints_spec in Hr. destruct Hr as [H1 ->].
    apply bind_Some in H. destruct H as (m0 & s0 & Hr & H).
    apply read_keypoints_spec in Hr. destruct Hr as [H0 ->].
    apply write_keypoints_spec in H. destruct H as (_ & Hc & Ho & Hm).
    exists m0, m1. auto.
Qed.

(** While every id of camera 1 is below [2^31], the filter does what the
    specification says. *)
Lemma filterPoints_small_ids s s' :
  filterPoints config calib s = Some (tt, s') ->
  (forall m1, keypoints_of s 1%nat = Some m1 -> ids_below (2 ^ 31) m1) ->
  epipolar_filter_effect config calib s s'.
Proof.
  intros H Hsmall. apply filterPoints_run in H. unfold epipolar_filter_effect.
  destruct (Nat.ltb_spec (intrinsics_size calib) 2) as [Hn|Hn].
  - split; [lia|]. intros _. exact H.
  - split; [|lia]. intros _ m0 m1 H0 H1.
    destruct H as (m0' & m1' & H0' & H1' & Hc & Ho & _).
    rewrite H0 in H0'. injection H0' as <-.
    rewrite H1 in H1'. injection H1' as <-.
    split; [|exact Ho]. eexists. split; [exact Hc|].
    intros id. rewrite erase_all_lookup. unfold epipolar_filtered.
    specialize (Hsmall m1 H1).
    case_decide as Hin.
    + apply list_elem_of_fmap in Hin. destruct Hin as (x & -> & Hx).
      apply elem_of_elements, elem_of_lm_to_remove in Hx.
      destruct Hx as (kp0 & kp1 & Hx0 & Hx1 & Hr).
      rewrite int_round_trip by (apply Hsmall; eauto).
      rewrite Hx1, Hx0, Hr. reflexivity.
    + destruct (m1 !! id) as [kp1|] eqn:Hk1; [|reflexivity].
      destruct (m0 !! id) as [kp0|] eqn:Hk0; [|reflexivity].
      destruct (epipolar_reject config calib kp0 kp1) eqn:Hr; [|reflexivity].
      exfalso. apply Hin. apply list_elem_of_fmap. exists id. split.
      * symmetry. apply int_round_trip. apply Hsmall. eauto.
      * apply elem_of_elements, elem_of_lm_to_remove. eauto.
Qed.

(** An id between [2^31] and [2^64 - 2^31] is never erased, whatever the
    epipolar test says about it. *)
Lemma filterPoints_large_id s s' m1 id kp :
  filterPoints config calib s = Some (tt, s') ->
  keypoints_of s 1%nat = Some m1 -> m1 !! id = Some kp ->
  2 ^ 31 <= id < 2 ^ 64 - 2 ^ 31 ->
  exists m1', keypoints_of s' 1%nat = Some m1' /\ m1' !! id = Some kp.
Proof.
  intros H H1 Hk Hid. apply filterPoints_run in H.
  destruct (_ <? 2)%nat.
  - subst s'. eauto.
  - destruct H as (m0' & m1' & _ & H1' & Hc & _).
    rewrite H1 in H1'. injection H1' as <-.
    eexists. split; [exact Hc|]. rewrite erase_all_lookup.
    rewrite decide_False; [exact Hk|].
    intros Hin. apply list_elem_of_fmap in Hin. destruct Hin as (x & -> & _).
    pose proof (int_round_trip_range x). lia.
Qed.

End KeypointMaps.

Section Detection.
Context {num : Numeric} {ext : Externals}.
Variable config : VioConfig.
Variable calib : Calibration.

Lemma to_size_t_small z : 0 <= z < 2 ^ 64 -> to_size_t z = z.
Proof. intros H. unfold to_size_t, size_t_modulus. apply Z.mod_small. exact H. Qed.

Lemma length_new_patches pyr0 pos :
  length (new_patches config pyr0 pos) =
  Z.to_nat (optical_flow_levels config + 1).
Proof. unfold new_patches. rewrite length_map. apply length_seqZ. Qed.

(** The stack the source builds is the stack of the specification. *)
Lemma new_patches_patch_stack pyr0 pos :
  optical_flow_levels config <= 30 ->
  new_patches config pyr0 pos = patch_stack config pyr0 pos.
Proof.
  intros Hl. unfold new_patches, patch_stack, seqZ.
  rewrite <- list_fmap_compose. apply list_eq. intros i.
  rewrite !list_lookup_fmap.
  destruct (seq 0 (Z.to_nat (optical_flow_levels config + 1)) !! i)
    as [l|] eqn:Hi; [|reflexivity].
  simpl. apply lookup_seq in Hi. destruct Hi as [-> Hi].
  rewrite Z.add_0_r. simpl. rewrite level_scale_pow2 by lia. reflexivity.
Qed.

Lemma add_corner_spec pyr0 c new0 s new1 s' :
  add_corner config pyr0 c new0 s = Some (new1, s') ->
  let id := last_keypoint_id s in
  last_keypoint_id s' = to_size_t (id + 1) /\
  patches s' =
    <[id := default [] (patches s !! id) ++
            new_patches config pyr0 (cast_Scalar (fst c))]> (patches s) /\
  new1 = <[id := detected_keypoint c]> new0 /\
  (exists m0, keypoints_of s 0%nat = Some m0 /\
              keypoints_of s' 0%nat = Some (<[id := detected_keypoint c]> m0)) /\
  (forall j, j <> 0%nat -> keypoints_of s' j = keypoints_of s j) /\
  result_meta s' = result_meta s.
Proof.
  intros H id. unfold add_corner in H.
  rewrite run_bind, run_gets in H. cbv beta iota in H.
  rewrite run_bind, run_modify in H. cbv beta iota in H.
  apply bind_Some in H. destruct H as (m0 & s0 & Hr & H).
  apply read_keypoints_spec in Hr. destruct Hr as [Hm0 ->].
  apply bind_Some in H. destruct H as ([] & s1 & Hw & H).
  pose proof (write_keypoints_setter patches _ _ (fun _ _ => eq_refl) _ _ _ Hw)
    as Hp.
  apply write_keypoints_spec in Hw. destruct Hw as (_ & Hc & Ho & Hmeta).
  rewrite run_bind, run_modify in H. cbv beta iota in H.
  injection H as <- <-.
  split; [reflexivity|]. split; [exact Hp|]. split; [reflexivity|].
  split; [exists m0; split; [exact Hm0|exact Hc]|].
  split; [exact Ho|exact Hmeta].
Qed.

Lemma with_corners_cons first c kd (m m' : gmap Z Keypoint) :
  with_corners (first + 1) kd (<[first := detected_keypoint c]> m) m' ->
  with_corners first (c :: kd) m m'.
Proof.
  intros [Hin Hout]. split.
  - intros [|i] c' Hc; simpl in Hc.
    + injection Hc as <-. rewrite Z.add_0_r.
      rewrite Hout by lia. apply lookup_insert_eq.
    + replace (first + Z.of_nat (S i)) with (first + 1 + Z.of_nat i) by lia.
      apply Hin. exact Hc.
  - intros id Hid. simpl length in Hid.
    rewrite Hout by lia. apply lookup_insert_ne. lia.
Qed.

(** The loop over the corners, while the id counter does not wrap: the
    corners get the next ids in order, each id gets the patches of its
    corner, older stacks are not touched, and the new keypoints enter the map
    of camera 0 and [new_kpts0]. *)
Lemma add_corners_spec pyr0 : forall kd new0 s new1 s' m0,
  add_corners config pyr0 kd new0 s = Some (new1, s') ->
  0 <= last_keypoint_id s ->
  last_keypoint_id s + Z.of_nat (length kd) < 2 ^ 64 ->
  (forall id, last_keypoint_id s <= id -> patches s !! id = None) ->
  keypoints_of s 0%nat = Some m0 ->
  let first := last_keypoint_id s in
  last_keypoint_id s' = first + Z.of_nat (length kd) /\
  (forall id, id < first -> patches s' !! id = patches s !! id) /\
  (forall i c, kd !! i = Some c ->
     patches s' !! (first + Z.of_nat i) =
     Some (new_patches config pyr0 (cast_Scalar (fst c)))) /\
  (forall id, first + Z.of_nat (length kd) <= id -> patches s' !! id = None) /\
  with_corners first kd new0 new1 /\
  (exists m0', keypoints_of s' 0%nat = Some m0' /\
               with_corners first kd m0 m0') /\
  (forall j, j <> 0%nat -> keypoints_of s' j = keypoints_of s j) /\
  result_meta s' = result_meta s.
Proof.
  induction kd as [|c kd IH]; intros new0 s new1 s' m0 H Hpos Hwrap Hfresh Hm0;
    simpl in H.
  - injection H as <- <-. simpl. rewrite Z.add_0_r.
    split; [reflexivity|]. split; [auto|].
    split; [intros i c Hc; inversion Hc|]. split; [exact Hfresh|].
    split; [split; [intros i c Hc; inversion Hc|reflexivity]|].
    split; [|auto].
    exists m0. split; [exact Hm0|].
    split; [intros i c Hc; inversion Hc|reflexivity].
  - apply bind_Some in H. destruct H as (newa & sa & Ha & H).
    apply add_corner_spec in Ha.
    destruct Ha as (Hlast & Hpat & -> & (m0a & Hm0a & Hm0a') & Hoth & Hmeta).
    rewrite Hm0 in Hm0a. injection Hm0a as <-.
    simpl length in Hwrap. rewrite Nat2Z.inj_succ in Hwrap.
    rewrite to_size_t_small in Hlast by lia.
    rewrite (Hfresh (last_keypoint_id s)) in Hpat by lia. simpl in Hpat.
    destruct (IH _ _ _ _ (<[last_keypoint_id s := detected_keypoint c]> m0) H)
      as (Hl' & Hold' & Hnew' & Hfresh' & Hwc' & (m0' & Hm0' & Hwc0') & Hoth'
          & Hmeta').
    + lia.
    + lia.
    + intros id Hid. rewrite Hpat. rewrite lookup_insert_ne by lia.
      apply Hfresh. lia.
    + exact Hm0a'.
    + rewrite Hlast in *. simpl length. rewrite Nat2Z.inj_succ.
      split; [lia|]. split.
      { intros id Hid. rewrite Hold' by lia. rewrite Hpat.
        apply lookup_insert_ne. lia. }
      split.
      { intros [|i] c' Hc; simpl in Hc.
        - injection Hc as <-. rewrite Z.add_0_r. rewrite Hold' by lia.
          rewrite Hpat. apply lookup_insert_eq.
        - replace (last_keypoint_id s + Z.of_nat (S i))
            with (last_keypoint_id s + 1 + Z.of_nat i) by lia.
          apply Hnew'. exact Hc. }
      split; [intros id Hid; apply Hfresh'; lia|].
      split; [apply with_corners_cons; exact Hwc'|].
      split; [exists m0'; split; [exact Hm0'|
                                   apply with_corners_cons; exact Hwc0']|].
      split; [intros j Hj; rewrite Hoth', Hoth by exact Hj; reflexivity|].
      rewrite Hmeta', Hmeta. reflexivity.
Qed.

Lemma trackPoints_inv pyr_1 pyr_2 (m1 : gmap Z Keypoint) cam1 cam2 s m2 s' :
  trackPoints config calib pyr_1 pyr_2 m1 cam1 cam2 s = Some (m2, s') ->
  exists tr a inp,
    transforms s = Some tr /\ input_images tr = Some a /\
    store s !! a = Some inp /\
    s' = set_store (<[a := set_in_depth_guess (depth_guess s) inp]> (store s)) s /\
    compute_func config calib pyr_1 pyr_2 (patches s) (depth_guess s) cam1 cam2
                 (map_to_list m1) ∅ = Some m2.
Proof.
  unfold trackPoints, store_depth_guess, get_transforms, deref. intros H.
  inv_run H.
  match goal with H : transforms s = Some ?tr |- _ => exists tr end.
  match goal with H : input_images _ = Some ?a |- _ => exists a end.
  match goal with H : store s !! _ = Some ?i |- _ => exists i end.
  auto.
Qed.

Lemma compute_func_body_cases pyr_1 pyr_2 patches_ depth cam1 cam2 id kp
    (result r' : gmap Z Keypoint) :
  compute_func_body config calib pyr_1 pyr_2 patches_ depth cam1 cam2 id kp
                    result = Some r' ->
  r' = result \/ exists k, r' = <[id := k]> result.
Proof.
  unfold compute_func_body. intros H.
  destruct (negb _); [injection H as <-; auto|].
  destruct (patches_ !! id) as [pv|]; [|discriminate]. simpl in H.
  destruct (trackPoint _ _ _ _) as [[ok2 w2]|]; [|discriminate]. simpl in H.
  destruct (negb ok2); [injection H as <-; auto|].
  destruct (trackPoint _ _ _ _) as [[ok1 w1]|]; [|discriminate]. simpl in H.
  destruct (negb ok1); [injection H as <-; auto|].
  destruct (s_ltb _ _); injection H as <-; eauto.
Qed.

(** The output of the loop only has ids of its input. *)
Lemma compute_func_keys pyr_1 pyr_2 patches_ depth cam1 cam2 :
  forall (l : list (Z * Keypoint)) (result res : gmap Z Keypoint),
  compute_func config calib pyr_1 pyr_2 patches_ depth cam1 cam2 l result =
    Some res ->
  forall id, is_Some (res !! id) -> is_Some (result !! id) \/ id ∈ l.*1.
Proof.
  induction l as [|[k kp] l IH]; intros result res H id Hid; simpl in H.
  - injection H as <-. auto.
  - destruct (compute_func_body _ _ _ _ _ _ _ _ _ _ _) as [r'|] eqn:Hb;
      [|discriminate]. simpl in H.
    destruct (IH _ _ H id Hid) as [Hr|Hin].
    + apply compute_func_body_cases in Hb. destruct Hb as [->|[k0 ->]].
      * auto.
      * destruct (decide (k = id)) as [->|Hne].
        -- right. left.
        -- rewrite lookup_insert_ne in Hr by exact Hne. auto.
    + right. right. exact Hin.
Qed.

Lemma trackPoints_keys pyr_1 pyr_2 (m1 : gmap Z Keypoint) cam1 cam2 s m2 s' :
  trackPoints config calib pyr_1 pyr_2 m1 cam1 cam2 s = Some (m2, s') ->
  forall id, is_Some (m2 !! id) -> is_Some (m1 !! id).
Proof.
  intros H id Hid. apply trackPoints_inv in H.
  destruct H as (_ & _ & _ & _ & _ & _ & _ & Hc).
  destruct (compute_func_keys _ _ _ _ _ _ _ _ _ Hc id Hid) as [He|Hin].
  - rewrite lookup_empty in He. destruct He. discriminate.
  - apply list_elem_of_fmap in Hin. destruct Hin as ([k kp] & -> & Hin).
    apply elem_of_map_to_list in Hin. simpl. eauto.
Qed.

(** The stereo part of [addPoints]: with more than one camera, the new
    keypoints are tracked from camera 0 to camera 1 and the matches join the
    map of camera 1; no other camera is written. *)
Lemma seed_stereo_spec pyr0 (new0 : gmap Z Keypoint) s s' :
  seed_stereo config calib pyr0 new0 s = Some (tt, s') ->
  ((1 < intrinsics_size calib)%nat ->
   exists pyrs pyr1 new1,
     pyramid s = Some pyrs /\ pyrs !! 1%nat = Some pyr1 /\
     compute_func config calib pyr0 pyr1 (patches s) (depth_guess s)
                  0%nat 1%nat (map_to_list new0) ∅ = Some new1 /\
     keypoints_of s' 1%nat = (fun m => m ∪ new1) <$> keypoints_of s 1%nat /\
     (forall j, j <> 1%nat -> keypoints_of s' j = keypoints_of s j) /\
     exists tr a inp,
       transforms s = Some tr /\ input_images tr = Some a /\
       store s !! a = Some inp /\
       store s' = <[a := set_in_depth_guess (depth_guess s) inp]> (store s)) /\
  ((intrinsics_size calib <= 1)%nat -> s' = s).
Proof.
  unfold seed_stereo. intros H.
  destruct (Nat.ltb_spec 1 (intrinsics_size calib)) as [Hn|Hn].
  - split; [|lia]. intros _.
    apply bind_Some in H. destruct H as (pyr1 & s0 & Hp & H).
    unfold get_pyramid in Hp. inv_run Hp.
    match goal with H : pyramid s = Some ?p |- _ => rename H into Hpy; rename p into pyrs end.
    rename Hp into Hp1.
    apply bind_Some in H. destruct H as (new1 & s2 & Ht & H).
    apply trackPoints_inv in Ht.
    destruct Ht as (tr & a & inp & Htr & Ha & Hs & -> & Hc).
    assert (Hst : store s' =
                  <[a := set_in_depth_guess (depth_guess s) inp]> (store s)).
    { eapply (unchanged_emplace_all store) in H; [exact H|by_setters]. }
    apply emplace_all_spec in H. destruct H as (H1 & Ho & _).
    rewrite list_to_map_to_list in H1.
    exists pyrs, pyr1, new1. split; [exact Hpy|]. split; [exact Hp1|].
    split; [exact Hc|]. split; [exact H1|]. split; [exact Ho|].
    exists tr, a, inp. auto.
  - split; [lia|]. intros _. injection H as <-. reflexivity.
Qed.

Lemma detect_spec s kd s' :
  detect config s = Some (kd, s') ->
  s' = s /\ is_Some (keypoints_of s 0%nat) /\
  exists img g n lo hi m pts, kd = detectKeypoints img g n lo hi m pts.
Proof.
  intros H.
  pose proof (unchanged_detect config (fun s => s) _ _ _ H) as Hs.
  simpl in Hs. subst s'. split; [reflexivity|].
  unfold detect in H. apply bind_Some in H.
  destruct H as (kps0 & s0 & Hr & H).
  apply read_keypoints_spec in Hr. destruct Hr as [Hk ->].
  split; [eauto|].
  unfold get_pyramid, get_transforms, deref in H. inv_run H.
  do 7 eexists. reflexivity.
Qed.

Lemma get_pyramid_spec i s p s' :
  get_pyramid i s = Some (p, s') ->
  s' = s /\ exists pyrs, pyramid s = Some pyrs /\ pyrs !! i = Some p.
Proof.
  intros H. unfold get_pyramid in H. inv_run H. eauto.
Qed.

Lemma with_corners_index first (kd : list (Vector2d * Descriptor)) id :
  first <= id < first + Z.of_nat (length kd) ->
  exists i c, id = first + Z.of_nat i /\ kd !! i = Some c.
Proof.
  intros H.
  destruct (lookup_lt_is_Some_2 kd (Z.to_nat (id - first))) as [c Hc]; [lia|].
  exists (Z.to_nat (id - first)), c. split; [lia|exact Hc].
Qed.

Lemma with_corners_ids_below first kd (m m' : gmap Z Keypoint) :
  0 <= first -> ids_below first m -> with_corners first kd m m' ->
  ids_below (first + Z.of_nat (length kd)) m'.
Proof.
  intros Hf Hm [Hin Hout] id Hid.
  destruct (decide (first <= id < first + Z.of_nat (length kd))) as [?|Hn];
    [lia|].
  rewrite (Hout id Hn) in Hid. apply Hm in Hid. lia.
Qed.

Lemma with_corners_new first kd (m m' : gmap Z Keypoint) id kp :
  ids_below first m -> with_corners first kd m m' ->
  first <= id -> m' !! id = Some kp ->
  exists i c, id = first + Z.of_nat i /\ kd !! i = Some c /\
              kp = detected_keypoint c.
Proof.
  intros Hm [Hin Hout] Hid Hk.
  destruct (decide (first <= id < first + Z.of_nat (length kd))) as [Hr|Hn].
  - destruct (with_corners_index first kd id Hr) as (i & c & -> & Hc).
    rewrite (Hin i c Hc) in Hk. injection Hk as <-. eauto.
  - rewrite (Hout id Hn) in Hk.
    assert (His : is_Some (m !! id)) by eauto. apply Hm in His. lia.
Qed.

Lemma inv_fresh s id :
  tracker_inv config s -> last_keypoint_id s <= id -> patches s !! id = None.
Proof.
  intros (Hr & Hdom & _) Hid. apply eq_None_not_Some. intros His.
  apply Hdom in His. lia.
Qed.

(** [addPoints], while the id counter does not wrap ([bound] limits the
    number of corners the detector returns). *)
Lemma addPoints_spec bound sA sB :
  (forall img g n lo hi m pts,
     Z.of_nat (length (detectKeypoints img g n lo hi m pts)) <= bound) ->
  tracker_inv config sA ->
  last_keypoint_id sA + bound < 2 ^ 64 ->
  addPoints config calib sA = Some (tt, sB) ->
  exists kd pyrs pyr0 m0 m0',
    pyramid sA = Some pyrs /\ pyrs !! 0%nat = Some pyr0 /\
    pyramid sB = pyramid sA /\
    keypoints_of sA 0%nat = Some m0 /\ keypoints_of sB 0%nat = Some m0' /\
    with_corners (last_keypoint_id sA) kd m0 m0' /\
    last_keypoint_id sB = last_keypoint_id sA + Z.of_nat (length kd) /\
    (forall id, id < last_keypoint_id sA ->
       patches sB !! id = patches sA !! id) /\
    (forall i c, kd !! i = Some c ->
       patches sB !! (last_keypoint_id sA + Z.of_nat i) =
       Some (new_patches config pyr0 (cast_Scalar (fst c)))) /\
    tracker_inv config sB /\
    ((1 < intrinsics_size calib)%nat ->
     seeded config calib (depth_guess sA) 1%nat sA sB) /\
    (forall j, (2 <= j)%nat -> keypoints_of sB j = keypoints_of sA j) /\
    (forall j m m' id,
       keypoints_of sA j = Some m -> keypoints_of sB j = Some m' ->
       id < last_keypoint_id sA -> m' !! id = m !! id).
Proof.
  intros Hbound Hinv Hwrap H.
  pose proof Hinv as (Hrange & Hdom & Hlen & Hids).
  unfold addPoints in H.
  apply bind_Some in H. destruct H as (kd & s0 & Hd & H).
  apply detect_spec in Hd.
  destruct Hd as (-> & [m0 Hm0] & (img & g & n & lo & hi & mk & pts & Hkd)).
  assert (Hk : Z.of_nat (length kd) <= bound) by (rewrite Hkd; apply Hbound).
  apply bind_Some in H. destruct H as (pyr0 & s0 & Hp & H).
  apply get_pyramid_spec in Hp. destruct Hp as (-> & pyrs & Hpy & Hp0).
  apply bind_Some in H. destruct H as (new0 & s1 & Hc & H).
  assert (Hpy1 : pyramid s1 = pyramid sA).
  { eapply (unchanged_add_corners config pyramid) in Hc;
      [exact Hc|by_setters|by_setters|by_setters]. }
  assert (Hdg1 : depth_guess s1 = depth_guess sA).
  { eapply (unchanged_add_corners config depth_guess) in Hc;
      [exact Hc|by_setters|by_setters|by_setters]. }
  destruct (add_corners_spec pyr0 kd ∅ sA new0 s1 m0 Hc)
    as (Hl1 & Hold1 & Hnew1 & Hfresh1 & Hwc & (m0' & Hm0' & Hwc0) & Hoth1 & _);
    [lia|lia|intros id Hid; apply (inv_fresh sA id Hinv Hid)|exact Hm0|].
  assert (HpB : patches sB = patches s1).
  { eapply (unchanged_seed_stereo config calib patches) in H;
      [exact H|by_setters|by_setters]. }
  assert (HlB : last_keypoint_id sB = last_keypoint_id s1).
  { eapply (unchanged_seed_stereo config calib last_keypoint_id) in H;
      [exact H|by_setters|by_setters]. }
  assert (HpyB : pyramid sB = pyramid s1).
  { eapply (unchanged_seed_stereo config calib pyramid) in H;
      [exact H|by_setters|by_setters]. }
  apply seed_stereo_spec in H. destruct H as [Hstereo Hmono].
  assert (Hnew0 : ids_below (last_keypoint_id sA + Z.of_nat (length kd)) new0).
  { apply (with_corners_ids_below _ kd ∅ new0); [lia| |exact Hwc].
    intros id [x Hx]. rewrite lookup_empty in Hx. discriminate. }
  assert (HkB : forall cam m, keypoints_of sB cam = Some m ->
            ids_below (last_keypoint_id sA + Z.of_nat (length kd)) m).
  { intros cam m Hm.
    assert (Hcam1 : forall m1, keypoints_of s1 cam = Some m1 ->
              ids_below (last_keypoint_id sA + Z.of_nat (length kd)) m1).
    { intros m1 Hm1. destruct cam as [|cam].
      - rewrite Hm0' in Hm1. injection Hm1 as <-.
        apply (with_corners_ids_below _ kd m0 m0'); [lia| |exact Hwc0].
        apply (Hids 0%nat). exact Hm0.
      - rewrite Hoth1 in Hm1 by lia. intros id Hid.
        apply (Hids _ _ Hm1) in Hid. lia. }
    destruct (Nat.ltb_spec 1 (intrinsics_size calib)) as [Hn|Hn].
    - destruct (Hstereo Hn)
        as (pyrs' & pyr1 & new1 & _ & _ & Hcf & H1 & Ho & _).
      destruct (decide (cam = 1%nat)) as [->|Hne].
      + rewrite H1 in Hm. destruct (keypoints_of s1 1%nat) as [m1|] eqn:Hm1;
          [|discriminate]. simpl in Hm. injection Hm as <-.
        intros id Hid. rewrite lookup_union_is_Some in Hid.
        destruct Hid as [Hid|Hid].
        * apply (Hcam1 m1 eq_refl). exact Hid.
        * destruct (compute_func_keys _ _ _ _ _ _ _ _ _ Hcf id Hid)
            as [He|Hin].
          -- rewrite lookup_empty in He. destruct He. discriminate.
          -- apply list_elem_of_fmap in Hin. destruct Hin as ([k kp] & -> & Hin).
             apply elem_of_map_to_list in Hin. apply Hnew0. simpl. eauto.
      + rewrite Ho in Hm by exact Hne. apply Hcam1. exact Hm.
    - rewrite (Hmono Hn) in Hm. apply Hcam1. exact Hm. }
  exists kd, pyrs, pyr0, m0, m0'.
  split; [exact Hpy|]. split; [exact Hp0|].
  split; [rewrite HpyB; exact Hpy1|]. split; [exact Hm0|].
  assert (Hm0B : keypoints_of sB 0%nat = Some m0').
  { destruct (Nat.ltb_spec 1 (intrinsics_size calib)) as [Hn|Hn].
    - destruct (Hstereo Hn) as (_ & _ & _ & _ & _ & _ & _ & Ho & _).
      rewrite Ho by lia. exact Hm0'.
    - rewrite (Hmono Hn). exact Hm0'. }
  split; [exact Hm0B|]. split; [exact Hwc0|].
  split; [rewrite HlB; exact Hl1|].
  split; [intros id Hid; rewrite HpB; apply Hold1; exact Hid|].
  split; [intros i c Hi; rewrite HpB; apply Hnew1; exact Hi|].
  split.
  { (* the invariant *)
    rewrite <- Hl1, <- HlB in HkB.
    split; [rewrite HlB, Hl1; lia|]. split; [|split; [|exact HkB]].
    - intros id. rewrite HpB, HlB, Hl1. split.
      + intros His.
        destruct (Z_lt_le_dec id (last_keypoint_id sA)) as [Hlt|Hge].
        * rewrite Hold1 in His by exact Hlt. apply Hdom in His. lia.
        * destruct (Z_lt_le_dec id
                      (last_keypoint_id sA + Z.of_nat (length kd))) as [Hlt|Hge'].
          -- lia.
          -- rewrite Hfresh1 in His by exact Hge'. destruct His. discriminate.
      + intros Hid.
        destruct (Z_lt_le_dec id (last_keypoint_id sA)) as [Hlt|Hge].
        * rewrite Hold1 by exact Hlt. apply Hdom. lia.
        * destruct (with_corners_index (last_keypoint_id sA) kd id)
            as (i & c & -> & Hc'); [lia|].
          rewrite (Hnew1 i c Hc'). eauto.
    - intros id pv. rewrite HpB. intros Hpv.
      destruct (Z_lt_le_dec id (last_keypoint_id sA)) as [Hlt|Hge].
      + rewrite Hold1 in Hpv by exact Hlt. apply (Hlen id pv Hpv).
      + assert (His : is_Some (patches s1 !! id)) by eauto.
        destruct (Z_lt_le_dec id
                    (last_keypoint_id sA + Z.of_nat (length kd))) as [Hlt|Hge'].
        * destruct (with_corners_index (last_keypoint_id sA) kd id)
            as (i & c & -> & Hc'); [lia|].
          rewrite (Hnew1 i c Hc') in Hpv. injection Hpv as <-.
          apply length_new_patches.
        * rewrite Hfresh1 in His by exact Hge'. destruct His. discriminate. }
  split.
  { (* seeding of camera 1 *)
    intros Hn.
    destruct (Hstereo Hn)
      as (pyrs' & pyr1 & new1 & Hpy' & Hp1 & Hcf & H1 & Ho & _).
    rewrite Hpy1, Hpy in Hpy'. injection Hpy' as <-.
    intros pyrsB pyr0B pyrjB m0B mjB id kp1 pv kp2
           HpyB' Hp0B HpjB Hm0B' HmjB Hid Hkp1 Hpv.
    rewrite HpyB, Hpy1, Hpy in HpyB'. injection HpyB' as <-.
    rewrite Hp0 in Hp0B. injection Hp0B as <-.
    rewrite Hp1 in HpjB. injection HpjB as <-.
    rewrite Hm0B in Hm0B'. injection Hm0B' as <-.
    rewrite H1 in HmjB.
    destruct (keypoints_of s1 1%nat) as [m1|] eqn:Hm1; [|discriminate].
    simpl in HmjB. injection HmjB as <-.
    assert (Hm1id : m1 !! id = None).
    { apply eq_None_not_Some. intros His.
      rewrite Hoth1 in Hm1 by lia. apply (Hids _ _ Hm1) in His. lia. }
    rewrite lookup_union_r by exact Hm1id.
    destruct (with_corners_new _ kd m0 m0' id kp1 (Hids _ _ Hm0) Hwc0 Hid Hkp1)
      as (i & c & -> & Hc' & ->).
    assert (Hn0 : new0 !! (last_keypoint_id sA + Z.of_nat i) =
                  Some (detected_keypoint c)).
    { destruct Hwc as [Hin _]. apply Hin. exact Hc'. }
    rewrite HpB in Hpv.
    destruct (compute_func_spec config calib pyr0 pyr1 (patches s1)
                (depth_guess s1) 0%nat 1%nat (map_to_list new0) ∅)
      as (res & Hres & Hlook).
    - apply NoDup_fst_map_to_list.
    - intros. apply lookup_empty.
    - intros id' kp' Hin. apply elem_of_map_to_list in Hin.
      assert (His : is_Some (new0 !! id')) by eauto.
      pose proof (Hnew0 id' His) as Hr.
      destruct (Z_lt_le_dec id' (last_keypoint_id sA)) as [Hlt|Hge].
      + destruct Hwc as [_ Hout]. rewrite Hout in Hin by lia.
        rewrite lookup_empty in Hin. discriminate.
      + destruct (with_corners_index (last_keypoint_id sA) kd id')
          as (i' & c' & -> & Hc''); [lia|].
        eexists. split; [apply (Hnew1 i' c' Hc'')|].
        rewrite length_new_patches. lia.
    - rewrite Hcf in Hres. injection Hres as <-.
      rewrite Hlook, lookup_empty, Hdg1. split.
      + intros [[=]|(kp1' & pv' & Hin & Hpv' & Hm)].
        apply elem_of_map_to_list in Hin. rewrite Hn0 in Hin.
        injection Hin as <-. rewrite Hpv in Hpv'. injection Hpv' as <-.
        exact Hm.
      + intros Hm. right. exists (detected_keypoint c), pv.
        split; [apply elem_of_map_to_list; exact Hn0|]. auto. }
  split.
  { intros j Hj.
    destruct (Nat.ltb_spec 1 (intrinsics_size calib)) as [Hn|Hn].
    - destruct (Hstereo Hn) as (_ & _ & _ & _ & _ & _ & _ & Ho & _).
      rewrite Ho by lia. apply Hoth1. lia.
    - rewrite (Hmono Hn). apply Hoth1. lia. }
  intros j m m' id Hm Hm' Hid.
  destruct j as [|j].
  { rewrite Hm0 in Hm. injection Hm as <-.
    rewrite Hm0B in Hm'. injection Hm' as <-.
    destruct Hwc0 as [_ Hout]. apply Hout. lia. }
  assert (Hs1 : keypoints_of s1 (S j) = Some m).
  { rewrite Hoth1 by lia. exact Hm. }
  destruct (Nat.ltb_spec 1 (intrinsics_size calib)) as [Hn|Hn].
  - destruct (Hstereo Hn) as (_ & pyr1 & new1 & _ & _ & Hcf & H1 & Ho & _).
    destruct (decide (S j = 1%nat)) as [E|Hne].
    + rewrite E in *. rewrite H1, Hs1 in Hm'. simpl in Hm'.
      injection Hm' as <-. apply lookup_union_l.
      apply eq_None_not_Some. intros His.
      destruct (compute_func_keys _ _ _ _ _ _ _ _ _ Hcf id His) as [He|Hin].
      * rewrite lookup_empty in He. destruct He. discriminate.
      * apply list_elem_of_fmap in Hin. destruct Hin as ([k kp] & -> & Hin).
        apply elem_of_map_to_list in Hin. simpl in Hid.
        destruct Hwc as [_ Hout]. rewrite Hout in Hin by lia.
        rewrite lookup_empty in Hin. discriminate.
    + rewrite Ho, Hs1 in Hm' by exact Hne. injection Hm' as <-. reflexivity.
  - rewrite (Hmono Hn), Hs1 in Hm'. injection Hm' as <-. reflexivity.
Qed.

(** The invariant only looks at the counter, the patch store and the ids of
    the keypoint maps. *)
Lemma tracker_inv_frame s s' :
  patches s' = patches s -> last_keypoint_id s' = last_keypoint_id s ->
  (forall cam m, keypoints_of s' cam = Some m ->
     ids_below (last_keypoint_id s) m) ->
  tracker_inv config s -> tracker_inv config s'.
Proof.
  intros Hp Hl Hk (Hr & Hdom & Hlen & _). unfold tracker_inv.
  rewrite Hp, Hl. auto.
Qed.

Lemma ids_below_empty bound : ids_below bound (∅ : gmap Z Keypoint).
Proof. intros id [x Hx]. rewrite lookup_empty in Hx. discriminate. Qed.

Lemma filterPoints_inv s s' :
  tracker_inv config s ->
  filterPoints config calib s = Some (tt, s') ->
  tracker_inv config s'.
Proof.
  intros Hinv H. pose proof Hinv as (_ & _ & _ & Hids).
  apply (tracker_inv_frame s s'); [| | |exact Hinv].
  - eapply (unchanged_filterPoints config calib patches) in H;
      [exact H|by_setters].
  - eapply (unchanged_filterPoints config calib last_keypoint_id) in H;
      [exact H|by_setters].
  - apply filterPoints_run in H. destruct (_ <? 2)%nat.
    + subst s'. exact Hids.
    + destruct H as (m0 & m1 & H0 & H1 & Hc & Ho & _).
      intros cam m Hm. destruct (decide (cam = 1%nat)) as [->|Hne].
      * rewrite Hc in Hm. injection Hm as <-. intros id His.
        rewrite erase_all_lookup in His.
        destruct (decide _); [destruct His; discriminate|].
        apply (Hids _ _ H1). exact His.
      * rewrite Ho in Hm by exact Hne. apply (Hids _ _ Hm).
Qed.

Lemma track_cameras_ids bound : forall cams new_keypoints s res s',
  track_cameras config calib cams new_keypoints s = Some (res, s') ->
  (forall cam m, keypoints_of s cam = Some m -> ids_below bound m) ->
  (forall m, m ∈ new_keypoints -> ids_below bound m) ->
  forall m, m ∈ res -> ids_below bound m.
Proof.
  induction cams as [|i cams IH]; intros new_keypoints s res s' H Hk Hn;
    simpl in H.
  - inv_run H. exact Hn.
  - apply bind_Some in H. destruct H as (pyr_1 & s0 & Hp1 & H).
    eapply (unchanged_get_old_pyramid (fun s => s)) in Hp1. simpl in Hp1.
    subst s0.
    apply bind_Some in H. destruct H as (pyr_2 & s0 & Hp2 & H).
    eapply (unchanged_get_pyramid (fun s => s)) in Hp2. simpl in Hp2.
    subst s0.
    apply bind_Some in H. destruct H as (km1 & s0 & Hr & H).
    apply read_keypoints_spec in Hr. destruct Hr as [Hkm1 ->].
    apply bind_Some in H. destruct H as (x & s0 & Hl & H).
    apply lift_Some in Hl. destruct Hl as [_ ->].
    apply bind_Some in H. destruct H as (km2 & s2 & Ht & H).
    assert (Htr : transforms s2 = transforms s).
    { eapply (unchanged_trackPoints config calib transforms) in Ht;
        [exact Ht|by_setters]. }
    apply (IH _ _ _ _ H).
    + intros cam m. unfold keypoints_of. rewrite Htr. apply Hk.
    + intros m Hm. apply list_elem_of_lookup in Hm. destruct Hm as [j Hj].
      apply list_lookup_insert_Some in Hj.
      destruct Hj as [(_ & <- & _)|[_ Hj]].
      * intros id His. apply (Hk _ _ Hkm1).
        apply (trackPoints_keys _ _ _ _ _ _ _ _ Ht). exact His.
      * apply Hn. apply list_elem_of_lookup. eauto.
Qed.

(** Both branches of [processFrame] end with [addPoints] and
    [filterPoints]; what comes before leaves the counter and the patch store
    alone and keeps the invariant. *)
Lemma store_depth_guess_contents depth :
  unchanged bundle_contents (store_depth_guess depth).
Proof.
  intros s0 [] s0' Hs. unfold store_depth_guess, get_transforms, deref in Hs.
  inv_run Hs. unfold bundle_contents. simpl.
  rewrite fmap_insert. apply insert_id. rewrite lookup_fmap.
  match goal with Hst : store _ !! _ = Some _ |- _ => rewrite Hst end.
  reflexivity.
Qed.

Lemma frame_branch_spec curr_t_ns a inp s s1 :
  (if t_ns s <? 0 then first_frame config calib curr_t_ns a inp
   else next_frame config calib curr_t_ns a inp) s = Some (tt, s1) ->
  exists sA sB,
    (tracker_inv config s -> tracker_inv config sA) /\
    patches sA = patches s /\ last_keypoint_id sA = last_keypoint_id s /\
    depth_guess sA = depth_guess s /\
    (exists n, result_meta sA = Some (curr_t_ns, Some a, n)) /\
    bundle_contents sA = bundle_contents s /\
    addPoints config calib sA = Some (tt, sB) /\
    filterPoints config calib sB = Some (tt, s1).
Proof.
  intros H.
  destruct (t_ns s <? 0).
  - unfold first_frame, get_transforms in H.
    do 6 (apply bind_Some in H;
          let a := fresh "a" in let s0 := fresh "s" in
          let Hr := fresh "Hrun" in
          destruct H as (a & s0 & Hr & H); inv_run Hr).
    match goal with
    | Hx : transforms _ = Some ?r |- _ => simpl in Hx; injection Hx as <-
    end.
    apply bind_Some in H. destruct H as ([] & sB & Ha & H).
    match type of Ha with addPoints _ _ ?sA = _ => exists sA end.
    exists sB. split; [|split; [reflexivity|split; [reflexivity|
      split; [reflexivity|split; [eexists; reflexivity|
      split; [reflexivity|split; [exact Ha|exact H]]]]]]].
    intros Hinv.
    apply (tracker_inv_frame s); [reflexivity|reflexivity| |exact Hinv].
    intros cam m. unfold keypoints_of. simpl. intros Hm.
    apply lookup_replicate_1 in Hm. destruct Hm as [-> _].
    apply ids_below_empty.
  - unfold next_frame in H.
    do 4 (apply bind_Some in H;
          let a := fresh "a" in let s0 := fresh "s" in
          let Hr := fresh "Hrun" in
          destruct H as (a & s0 & Hr & H); inv_run Hr).
    apply bind_Some in H. destruct H as (new_keypoints & s2 & Ht & H).
    apply bind_Some in H. destruct H as (u & s3 & Hm & H). inv_run Hm.
    apply bind_Some in H. destruct H as ([] & sB & Ha & H).
    match type of Ha with addPoints _ _ ?sA = _ => exists sA end.
    exists sB.
    assert (Hp2 : patches s2 = patches s).
    { eapply (unchanged_track_cameras config calib patches) in Ht;
        [exact Ht|by_setters]. }
    assert (Hl2 : last_keypoint_id s2 = last_keypoint_id s).
    { eapply (unchanged_track_cameras config calib last_keypoint_id) in Ht;
        [exact Ht|by_setters]. }
    assert (Hd2 : depth_guess s2 = depth_guess s).
    { eapply (unchanged_track_cameras config calib depth_guess) in Ht;
        [exact Ht|by_setters]. }
    assert (Hb2 : bundle_contents s2 = bundle_contents s).
    { eapply (unchanged_track_cameras config calib bundle_contents) in Ht;
        [exact Ht|apply store_depth_guess_contents]. }
    split; [|split; [exact Hp2|split; [exact Hl2|split; [exact Hd2|
      split; [eexists; reflexivity|split; [exact Hb2|
      split; [exact Ha|exact H]]]]]]].
    intros Hinv. pose proof Hinv as (_ & _ & _ & Hids).
    apply (tracker_inv_frame s); [exact Hp2|exact Hl2| |exact Hinv].
    intros cam m. unfold keypoints_of. simpl. intros Hm.
    apply (track_cameras_ids (last_keypoint_id s) _ _ _ _ _ Ht).
    + intros cam' m'. unfold keypoints_of. simpl. apply Hids.
    + intros m' Hm'. apply elem_of_replicate_inv in Hm'. subst m'.
      apply ids_below_empty.
    + apply list_elem_of_lookup. eauto.
Qed.

Lemma processFrame_cases curr_t_ns a s s' :
  processFrame config calib curr_t_ns a s = Some (tt, s') ->
  exists inp, store s !! a = Some inp /\
    (((None ∈ img_data inp) /\ s' = s) \/
     ((None ∉ img_data inp) /\
      exists s1 s2,
        (if t_ns s <? 0 then first_frame config calib curr_t_ns a inp
         else next_frame config calib curr_t_ns a inp) s = Some (tt, s1) /\
        push_result config s1 = Some (tt, s2) /\
        s' = set_frame_counter (to_size_t (frame_counter s2 + 1)) s2)).
Proof.
  intros H. pose proof H as H'. unfold processFrame, deref in H.
  apply bind_Some in H. destruct H as (inp & s0 & Hd & H). inv_run Hd.
  exists inp. split; [assumption|].
  destruct (existsb is_null (img_data inp)) eqn:He.
  - left. inv_run H. split; [apply existsb_is_null; exact He|reflexivity].
  - right.
    assert (Hfull : None ∉ img_data inp).
    { intros Hin. apply existsb_is_null in Hin. congruence. }
    split; [exact Hfull|].
    apply (processFrame_full config calib curr_t_ns a s s' inp);
      assumption.
Qed.

(** What a frame that returns does to the ids and the patch store. *)
Lemma processFrame_patch_store bound curr_t_ns a s s' :
  optical_flow_levels config <= 30 ->
  (forall img g n lo hi m pts,
     Z.of_nat (length (detectKeypoints img g n lo hi m pts)) <= bound) ->
  tracker_inv config s ->
  last_keypoint_id s + bound < 2 ^ 64 ->
  processFrame config calib curr_t_ns a s = Some (tt, s') ->
  tracker_inv config s' /\
  last_keypoint_id s <= last_keypoint_id s' /\
  (forall id pv, patches s !! id = Some pv -> patches s' !! id = Some pv) /\
  (forall id, last_keypoint_id s <= id < last_keypoint_id s' ->
     exists pyrs pyr0 m0 kp,
       pyramid s' = Some pyrs /\ pyrs !! 0%nat = Some pyr0 /\
       keypoints_of s' 0%nat = Some m0 /\ m0 !! id = Some kp /\
       detected_by_opt_flow kp = false /\
       patches s' !! id =
         Some (patch_stack config pyr0 (translation (pose kp)))).
Proof.
  intros Hlev Hbound Hinv Hwrap H.
  apply processFrame_cases in H.
  destruct H as (inp & Hs & [[_ ->]|(_ & s1 & s2 & Hb & Hp & ->)]).
  { split; [exact Hinv|]. split; [lia|]. split; [auto|]. intros id Hid. lia. }
  apply (frame_branch_spec curr_t_ns a inp s s1) in Hb.
  destruct Hb as (sA & sB & HinvA & HpA & HlA & _ & _ & _ & Ha & Hf).
  specialize (HinvA Hinv).
  rewrite <- HlA in Hwrap.
  destruct (addPoints_spec bound sA sB Hbound HinvA Hwrap Ha)
    as (kd & pyrs & pyr0 & m0 & m0' & Hpy & Hp0 & HpyB & Hm0 & Hm0' & Hwc & HlB
        & Hold & Hnew & HinvB & _).
  pose proof (filterPoints_inv sB s1 HinvB Hf) as Hinv1.
  assert (Hp1 : patches s1 = patches sB).
  { eapply (unchanged_filterPoints config calib patches) in Hf;
      [exact Hf|by_setters]. }
  assert (Hl1 : last_keypoint_id s1 = last_keypoint_id sB).
  { eapply (unchanged_filterPoints config calib last_keypoint_id) in Hf;
      [exact Hf|by_setters]. }
  assert (Hpy1 : pyramid s1 = pyramid sB).
  { eapply (unchanged_filterPoints config calib pyramid) in Hf;
      [exact Hf|by_setters]. }
  assert (Hk1 : keypoints_of s1 0%nat = keypoints_of sB 0%nat).
  { apply filterPoints_run in Hf. destruct (_ <? 2)%nat.
    - subst s1. reflexivity.
    - destruct Hf as (_ & _ & _ & _ & _ & Ho & _). apply Ho. lia. }
  assert (Hp2 : patches s2 = patches s1).
  { eapply (push_result_setter patches) in Hp; [exact Hp|by_setters|by_setters]. }
  assert (Hl2 : last_keypoint_id s2 = last_keypoint_id s1).
  { eapply (push_result_setter last_keypoint_id) in Hp;
      [exact Hp|by_setters|by_setters]. }
  assert (Hpy2 : pyramid s2 = pyramid s1).
  { eapply (push_result_setter pyramid) in Hp;
      [exact Hp|by_setters|by_setters]. }
  assert (Ht2 : transforms s2 = transforms s1).
  { eapply (push_result_setter transforms) in Hp;
      [exact Hp|by_setters|by_setters]. }
  set (s' := set_frame_counter (to_size_t (frame_counter s2 + 1)) s2).
  assert (Hk' : forall cam, keypoints_of s' cam = keypoints_of s1 cam).
  { intros cam. unfold keypoints_of. simpl. rewrite Ht2. reflexivity. }
  split.
  { apply (tracker_inv_frame s1 s'); [exact Hp2|exact Hl2| |exact Hinv1].
    intros cam m. rewrite Hk'. destruct Hinv1 as (_ & _ & _ & Hids).
    apply Hids. }
  change (last_keypoint_id s') with (last_keypoint_id s2).
  change (patches s') with (patches s2).
  change (pyramid s') with (pyramid s2).
  rewrite Hl2, Hl1, HlB, HlA, Hp2, Hp1, Hpy2, Hpy1, HpyB, Hk', Hk1.
  split; [lia|]. split.
  { intros id pv Hpv.
    assert (Hid : 0 <= id < last_keypoint_id s).
    { destruct Hinv as (_ & Hdom & _). apply Hdom. eauto. }
    rewrite Hold by lia. rewrite HpA. exact Hpv. }
  intros id Hid.
  destruct (with_corners_index (last_keypoint_id sA) kd id)
    as (i & c & -> & Hc); [lia|].
  exists pyrs, pyr0, m0', (detected_keypoint c).
  split; [exact Hpy|]. split; [exact Hp0|]. split; [exact Hm0'|].
  split; [destruct Hwc as [Hin _]; apply Hin; exact Hc|].
  split; [reflexivity|].
  rewrite (Hnew i c Hc). simpl.
  rewrite new_patches_patch_stack by exact Hlev. reflexivity.
Qed.

(** What a call of [addPoints] that returns does to the maps of the cameras
    other than camera 0. *)
Lemma addPoints_seeds_camera_1 bound sA sB :
  (forall img g n lo hi m pts,
     Z.of_nat (length (detectKeypoints img g n lo hi m pts)) <= bound) ->
  tracker_inv config sA ->
  last_keypoint_id sA + bound < 2 ^ 64 ->
  (1 < intrinsics_size calib)%nat ->
  addPoints config calib sA = Some (tt, sB) ->
  seeded config calib (depth_guess sA) 1%nat sA sB /\
  (forall m m' id,
     keypoints_of sA 1%nat = Some m -> keypoints_of sB 1%nat = Some m' ->
     id < last_keypoint_id sA -> m' !! id = m !! id) /\
  (forall j, (2 <= j)%nat -> keypoints_of sB j = keypoints_of sA j).
Proof.
  intros Hbound Hinv Hwrap Hn H.
  destruct (addPoints_spec bound sA sB Hbound Hinv Hwrap H)
    as (kd & pyrs & pyr0 & m0 & m0' & _ & _ & _ & _ & _ & _ & _ & _ & _ & _
        & Hseed & Hrest & Hold).
  split; [exact (Hseed Hn)|]. split; [|exact Hrest].
  intros m m' id. apply Hold.
Qed.

(** A state that has handed out no id satisfies the invariant. *)
Lemma tracker_inv_fresh s :
  last_keypoint_id s = 0 -> patches s = ∅ ->
  (forall cam m, keypoints_of s cam = Some m -> m = ∅) ->
  tracker_inv config s.
Proof.
  intros Hl Hp Hk. unfold tracker_inv. rewrite Hl, Hp.
  split; [lia|]. split; [|split].
  - intros id. rewrite lookup_empty. split; [intros [x Hx]; discriminate|lia].
  - intros id pv. rewrite lookup_empty. discriminate.
  - intros cam m Hm. rewrite (Hk cam m Hm). apply ids_below_empty.
Qed.

Lemma initial_state_inv oq st : tracker_inv config (initial_state config oq st).
Proof.
  apply tracker_inv_fresh; [reflexivity|reflexivity|].
  intros cam m. unfold keypoints_of. simpl. discriminate.
Qed.

End Detection.

Section Emission.
Context {num : Numeric} {ext : Externals}.
Variable config : VioConfig.
Variable calib : Calibration.

Lemma addPoints_meta : unchanged result_meta (addPoints config calib).
Proof.
  apply unchanged_addPoints;
    first [by_setters | intros; apply write_keypoints_meta].
Qed.

Lemma filterPoints_meta : unchanged result_meta (filterPoints config calib).
Proof. apply unchanged_filterPoints. intros. apply write_keypoints_meta. Qed.

Lemma result_meta_inv s r t o n :
  result_meta s = Some (t, o, n) -> transforms s = Some r ->
  res_t_ns r = t /\ input_images r = o.
Proof.
  unfold result_meta. intros H Hr. rewrite Hr in H. simpl in H.
  injection H as <- <- _. auto.
Qed.

(** With more than one camera, [addPoints] leaves the depth guess in the
    bundle the result retains. *)
Lemma addPoints_depth_store sA sB t a n :
  (1 < intrinsics_size calib)%nat ->
  result_meta sA = Some (t, Some a, n) ->
  addPoints config calib sA = Some (tt, sB) ->
  exists inp, store sB !! a = Some inp /\
              in_depth_guess inp = depth_guess sA.
Proof.
  intros Hn Hmeta H. unfold addPoints in H.
  apply bind_Some in H. destruct H as (kd & s0 & Hd & H).
  apply detect_spec in Hd. destruct Hd as (-> & _).
  apply bind_Some in H. destruct H as (pyr0 & s0 & Hp & H).
  apply get_pyramid_spec in Hp. destruct Hp as (-> & _).
  apply bind_Some in H. destruct H as (new0 & s1 & Hc & H).
  assert (Hm1 : result_meta s1 = result_meta sA).
  { eapply (unchanged_add_corners config result_meta) in Hc;
      [exact Hc|by_setters|by_setters|intros; apply write_keypoints_meta]. }
  assert (Hd1 : depth_guess s1 = depth_guess sA).
  { eapply (unchanged_add_corners config depth_guess) in Hc;
      [exact Hc|by_setters|by_setters|by_setters]. }
  apply seed_stereo_spec in H. destruct H as [Hst _].
  destruct (Hst Hn)
    as (_ & _ & _ & _ & _ & _ & _ & _ & tr & a' & inp & Htr & Ha & Hs & HsB).
  rewrite Hmeta in Hm1.
  destruct (result_meta_inv s1 tr t (Some a) n Hm1 Htr) as [_ Ha'].
  rewrite Ha in Ha'. injection Ha' as ->.
  eexists. split; [rewrite HsB; apply lookup_insert_eq|].
  simpl. exact Hd1.
Qed.

(** Pushing a result changes the timing statistics of a bundle at most. *)
Lemma push_result_bundles s s' :
  push_result config s = Some (tt, s') ->
  bundle_contents s' = bundle_contents s /\
  forall a inp, store s !! a = Some inp ->
    exists inp', store s' !! a = Some inp' /\
                 in_depth_guess inp' = in_depth_guess inp.
Proof.
  unfold push_result. intros H.
  apply bind_Some in H. destruct H as (oq & s0 & Hq & H). inv_run Hq.
  destruct (output_queue s) as [q|]; [|inv_run H; split; eauto].
  apply bind_Some in H. destruct H as (fc & s0 & Hf & H). inv_run Hf.
  destruct (_ =? 0); [discriminate|].
  destruct (_ =? 0); [|inv_run H; split; eauto].
  unfold get_transforms, deref in H. inv_run H. simpl.
  match goal with Hst : store s !! ?b = Some ?i |- _ =>
    generalize dependent i; generalize dependent b end.
  intros a0 _ inp0 Hb.
  split.
  - unfold bundle_contents. simpl. rewrite fmap_insert. apply insert_id.
    rewrite lookup_fmap, Hb. reflexivity.
  - intros b inpb Hb'. destruct (decide (a0 = b)) as [->|Hne].
    + rewrite lookup_insert_eq. rewrite Hb in Hb'. injection Hb' as <-.
      eexists. split; reflexivity.
    + rewrite lookup_insert_ne by exact Hne. eauto.
Qed.

Lemma to_size_t_skip :
  1 <= optical_flow_skip_frames config <= int_max ->
  to_size_t (optical_flow_skip_frames config) = optical_flow_skip_frames config.
Proof.
  unfold int_max. intros H. apply to_size_t_small. lia.
Qed.

(** One fully processed frame: the counter is incremented after the test,
    and the result of the frame is pushed exactly when a queue is attached
    and the counter was a multiple of [optical_flow_skip_frames]. *)
Lemma processFrame_emission curr_t_ns a s s' inp :
  1 <= optical_flow_skip_frames config <= int_max ->
  store s !! a = Some inp -> None ∉ img_data inp ->
  processFrame config calib curr_t_ns a s = Some (tt, s') ->
  frame_counter s' = to_size_t (frame_counter s + 1) /\
  bundle_contents s' = bundle_contents s /\
  match output_queue s with
  | None => output_queue s' = None
  | Some q =>
      if frame_counter s mod optical_flow_skip_frames config =? 0
      then exists r, res_t_ns r = curr_t_ns /\ input_images r = Some a /\
                     output_queue s' = Some (q ++ [Some r])
      else output_queue s' = Some q
  end.
Proof.
  intros Hskip Hs Hfull H.
  destruct (processFrame_full config calib curr_t_ns a s s' inp Hs Hfull H)
    as (s1 & s2 & Hb & Hp & ->).
  assert (Hfc : frame_counter s1 = frame_counter s).
  { eapply (unchanged_branch config calib frame_counter) in Hb;
      [exact Hb|by_setters..]. }
  assert (Hoq : output_queue s1 = output_queue s).
  { eapply (unchanged_branch config calib output_queue) in Hb;
      [exact Hb|by_setters..]. }
  apply frame_branch_spec in Hb.
  destruct Hb as (sA & sB & _ & _ & _ & _ & [n HmA] & HcA & Ha & Hf).
  assert (Hm1 : result_meta s1 = Some (curr_t_ns, Some a, n)).
  { rewrite <- HmA. rewrite <- (addPoints_meta _ _ _ Ha).
    apply (filterPoints_meta _ _ _ Hf). }
  assert (Hc1 : bundle_contents s1 = bundle_contents s).
  { rewrite <- HcA.
    eapply (unchanged_filterPoints config calib bundle_contents) in Hf;
      [|by_setters].
    eapply (unchanged_addPoints config calib bundle_contents) in Ha;
      [|by_setters|by_setters|by_setters|apply store_depth_guess_contents].
    congruence. }
  destruct (push_result_bundles s1 s2 Hp) as [Hc2 _].
  apply push_result_spec in Hp. destruct Hp as (Hfc2 & Ht2 & Hq2).
  simpl frame_counter. rewrite Hfc2, Hfc.
  split; [reflexivity|]. split; [unfold bundle_contents in *; simpl; congruence|].
  simpl output_queue. rewrite Hoq in Hq2.
  destruct (output_queue s) as [q|]; [|exact Hq2].
  destruct Hq2 as [_ Hq2]. rewrite to_size_t_skip in Hq2 by exact Hskip.
  rewrite Hfc in Hq2.
  destruct (_ =? 0); [|exact Hq2].
  destruct Hq2 as (r & Hr & Hq2). exists r.
  destruct (result_meta_inv s1 r _ _ _ Hm1 Hr) as [Ht Hi]. auto.
Qed.

Lemma at_frame_contents pushed a inp s :
  store s !! a = Some inp ->
  bundle_contents (at_frame pushed a inp s) = bundle_contents s.
Proof.
  intros Hs. unfold bundle_contents, at_frame. cbn [store set_store].
  rewrite fmap_insert. apply insert_id. rewrite lookup_fmap, Hs. reflexivity.
Qed.

Lemma at_frame_lookup pushed a inp s :
  store (at_frame pushed a inp s) !! a =
  Some (set_stats (addTime "frames_received" (stats inp)) inp).
Proof. unfold at_frame. simpl. apply lookup_insert_eq. Qed.

Lemma bundle_contents_lookup s a t imgs ms :
  bundle_contents s !! a = Some (t, imgs, ms) ->
  exists inp, store s !! a = Some inp /\ in_t_ns inp = t /\
              img_data inp = imgs.
Proof.
  unfold bundle_contents. rewrite lookup_fmap.
  destruct (store s !! a) as [inp|]; [|discriminate].
  simpl. intros [= <- <- <-]. eauto.
Qed.

Lemma every_nth_cons {A} n k (x : A) l :
  every_nth n k (x :: l) =
  if k mod n =? 0 then x :: every_nth n (k + 1) l else every_nth n (k + 1) l.
Proof. reflexivity. Qed.

Lemma turn_t_ns_lookup
    (c : gmap nat (Z * list (option RawImage) * list Masks))
    (pushed : list double) a t imgs ms :
  c !! a = Some (t, imgs, ms) -> turn_t_ns c (pushed, Some a) = t.
Proof. intros H. unfold turn_t_ns. simpl. rewrite H. reflexivity. Qed.

Lemma is_full_true (c : gmap nat (Z * list (option RawImage) * list Masks))
    (pushed : list double) a t imgs ms :
  c !! a = Some (t, imgs, ms) ->
  is_full c (pushed, Some a) = negb (existsb is_null imgs).
Proof. intros H. unfold is_full. simpl. rewrite H. reflexivity. Qed.

(** What a run of the worker that returns has counted and pushed. *)
Lemma processingLoop_emission : forall turns s s',
  1 <= optical_flow_skip_frames config <= int_max ->
  Forall (pops_bundle (bundle_contents s)) turns ->
  0 <= frame_counter s ->
  frame_counter s +
    Z.of_nat (length (processed (bundle_contents s) turns)) < 2 ^ 64 ->
  processingLoop config calib turns s = Some (tt, s') ->
  frame_counter s' =
    frame_counter s + Z.of_nat (length (processed (bundle_contents s) turns)) /\
  match output_queue s with
  | None => output_queue s' = None
  | Some q =>
      exists rs,
        output_queue s' = Some (q ++ map Some rs) /\
        map res_t_ns rs =
          every_nth (optical_flow_skip_frames config) (frame_counter s)
                    (map (turn_t_ns (bundle_contents s))
                         (processed (bundle_contents s) turns))
  end.
Proof.
  induction turns as [|[pushed o] rest IH]; intros s s' Hskip Hpop Hpos Hwrap H.
  - simpl in H. injection H as <-. simpl. split; [lia|].
    destruct (output_queue s) as [q|]; [|reflexivity].
    exists []. simpl. rewrite app_nil_r. auto.
  - apply Forall_cons in Hpop. destruct Hpop as [Hturn Hpop].
    destruct Hturn as (a & Ho & [[[t imgs] ms] Hc]). simpl in Ho. subst o.
    destruct (bundle_contents_lookup s a t imgs ms Hc)
      as (inp & Hs & Ht & Hi).
    assert (Hbc0 : bundle_contents (at_frame pushed a inp s) =
                   bundle_contents s) by (apply at_frame_contents; exact Hs).
    assert (Hfc0 : frame_counter (at_frame pushed a inp s) = frame_counter s).
    { unfold at_frame. simpl.
      apply (drain_depth_other frame_counter). reflexivity. }
    assert (Hoq0 : output_queue (at_frame pushed a inp s) = output_queue s).
    { unfold at_frame. simpl.
      apply (drain_depth_other output_queue). reflexivity. }
    unfold processed in *. simpl List.filter in *.
    rewrite (is_full_true _ pushed a t imgs ms Hc) in *.
    destruct (existsb is_null imgs) eqn:Hnull; simpl negb in *; cbv iota in *.
    + (* a missing image: the frame is skipped *)
      assert (Hin : None ∈ img_data inp).
      { rewrite Hi. apply existsb_is_null. exact Hnull. }
      rewrite (processingLoop_missing config calib pushed a rest s inp Hs Hin)
        in H.
      destruct (IH (at_frame pushed a inp s) s' Hskip) as [Hfc' Hq'];
        [rewrite Hbc0; exact Hpop|rewrite Hfc0; exact Hpos|
         rewrite Hfc0, Hbc0; exact Hwrap|exact H|].
      rewrite Hfc0, Hbc0 in Hfc'. rewrite Hoq0, Hfc0, Hbc0 in Hq'.
      split; [exact Hfc'|exact Hq'].
    + (* a fully processed frame *)
      assert (Himgs : None ∉ imgs).
      { intros Hin. apply existsb_is_null in Hin. congruence. }
      rewrite (processingLoop_turn config calib pushed a rest s inp Hs) in H.
      destruct (processFrame config calib (in_t_ns inp) a
                  (at_frame pushed a inp s)) as [[[] s1]|] eqn:Hp;
        [|discriminate].
      destruct (processFrame_emission (in_t_ns inp) a _ s1 _ Hskip
                  (at_frame_lookup pushed a inp s)
                  ltac:(simpl; rewrite Hi; exact Himgs) Hp)
        as (Hfc & Hbc & Hq).
      rewrite Hbc0 in Hbc. rewrite Hfc0 in Hfc, Hq. rewrite Hoq0 in Hq.
      simpl length in Hwrap. rewrite Nat2Z.inj_succ in Hwrap.
      rewrite to_size_t_small in Hfc by lia.
      destruct (IH s1 s' Hskip) as [Hfc' Hq'];
        [rewrite Hbc; exact Hpop|lia|rewrite Hbc; lia|exact H|].
      rewrite Hbc in Hfc'.
      simpl length. rewrite Nat2Z.inj_succ. split; [lia|].
      destruct (output_queue s) as [q|].
      * change (map (turn_t_ns (bundle_contents s))
                    ((pushed, Some a) ::
                     List.filter (is_full (bundle_contents s)) rest))
          with (turn_t_ns (bundle_contents s) (pushed, Some a) ::
                map (turn_t_ns (bundle_contents s))
                    (List.filter (is_full (bundle_contents s)) rest)).
        rewrite (turn_t_ns_lookup _ pushed a t imgs ms Hc).
        rewrite every_nth_cons.
        rewrite Hbc, Hfc in Hq'.
        destruct (frame_counter s mod optical_flow_skip_frames config =? 0).
        -- destruct Hq as (r & Hr & _ & Hq). rewrite Hq in Hq'.
           destruct Hq' as (rs & Hout & Hts). exists (r :: rs). split.
           ++ rewrite Hout. rewrite <- app_assoc. reflexivity.
           ++ simpl. rewrite Hr, Ht, Hts. reflexivity.
        -- rewrite Hq in Hq'. exact Hq'.
      * rewrite Hq in Hq'. exact Hq'.
Qed.

Lemma at_frame_inv pushed a inp s :
  tracker_inv config s -> tracker_inv config (at_frame pushed a inp s).
Proof.
  intros Hinv. pose proof Hinv as (_ & _ & _ & Hids).
  apply (tracker_inv_frame config s); [| | |exact Hinv].
  - unfold at_frame. simpl. apply (drain_depth_other patches). reflexivity.
  - unfold at_frame. simpl.
    apply (drain_depth_other last_keypoint_id). reflexivity.
  - intros cam m. unfold keypoints_of, at_frame. simpl.
    rewrite (drain_depth_other transforms) by reflexivity. apply Hids.
Qed.

(** What a frame that returns after the drain loop reports as depth. *)
Lemma processFrame_depth_guess bound pushed a s s' inp :
  (forall img g n lo hi m pts,
     Z.of_nat (length (detectKeypoints img g n lo hi m pts)) <= bound) ->
  (1 < intrinsics_size calib)%nat ->
  tracker_inv config s ->
  last_keypoint_id s + bound < 2 ^ 64 ->
  store s !! a = Some inp -> None ∉ img_data inp ->
  processFrame config calib (in_t_ns inp) a (at_frame pushed a inp s) =
    Some (tt, s') ->
  let newest := List.last pushed (depth_guess s) in
  depth_guess (at_frame pushed a inp s) = newest /\
  depth_guess s' = newest /\
  reports_newest_depth pushed s s' /\
  exists sA sB s1 s2,
    addPoints config calib sA = Some (tt, sB) /\
    filterPoints config calib sB = Some (tt, s1) /\
    push_result config s1 = Some (tt, s2) /\
    s' = set_frame_counter (to_size_t (frame_counter s2 + 1)) s2 /\
    seeded config calib newest 1%nat sA sB.
Proof.
  intros Hbound Hn Hinv Hwrap Hs Hfull H newest.
  set (s0 := at_frame pushed a inp s) in *.
  assert (Hd0 : depth_guess s0 = newest).
  { unfold s0, at_frame. simpl. apply drain_depth_last. }
  assert (Hd' : depth_guess s' = newest).
  { rewrite <- Hd0.
    eapply (unchanged_processFrame config calib depth_guess) in H;
      [exact H|by_setters..]. }
  split; [exact Hd0|]. split; [exact Hd'|].
  assert (Hs0 : store s0 !! a =
                Some (set_stats (addTime "frames_received" (stats inp)) inp))
    by apply at_frame_lookup.
  destruct (processFrame_full config calib (in_t_ns inp) a s0 s' _ Hs0
              Hfull H) as (s1 & s2 & Hb & Hp & ->).
  assert (Hoq1 : output_queue s1 = output_queue s).
  { eapply (unchanged_branch config calib output_queue) in Hb;
      [|by_setters..].
    rewrite Hb. unfold s0, at_frame. simpl.
    apply (drain_depth_other output_queue). reflexivity. }
  apply frame_branch_spec in Hb.
  destruct Hb as (sA & sB & HinvA & _ & HlA & HdA & [n HmA] & _ & Ha & Hf).
  specialize (HinvA (at_frame_inv pushed a inp s Hinv)).
  assert (Hl0 : last_keypoint_id s0 = last_keypoint_id s).
  { unfold s0, at_frame. simpl.
    apply (drain_depth_other last_keypoint_id). reflexivity. }
  rewrite <- Hl0, <- HlA in Hwrap.
  destruct (addPoints_spec config calib bound sA sB Hbound HinvA Hwrap Ha)
    as (kd & pyrs & pyr0 & m0 & m0' & _ & _ & _ & _ & _ & _ & _ & _ & _ & _
        & Hseed & _).
  specialize (Hseed Hn). rewrite HdA, Hd0 in Hseed.
  split; [|exists sA, sB, s1, s2; auto].
  destruct (addPoints_depth_store sA sB _ a n Hn HmA Ha) as (inpB & HsB & HdB).
  assert (Hst1 : store s1 = store sB).
  { eapply (unchanged_filterPoints config calib store) in Hf;
      [exact Hf|by_setters]. }
  assert (Hm1 : result_meta s1 = Some (in_t_ns inp, Some a, n)).
  { rewrite <- HmA. rewrite <- (addPoints_meta _ _ _ Ha).
    apply (filterPoints_meta _ _ _ Hf). }
  destruct (push_result_bundles s1 s2 Hp) as [_ Hb2].
  destruct (Hb2 a inpB) as (inp2 & Hs2 & Hd2); [rewrite Hst1; exact HsB|].
  apply push_result_spec in Hp. destruct Hp as (_ & _ & Hq2).
  intros q r a' Hq Hq' Hr. simpl in Hq'.
  rewrite Hoq1, Hq in Hq2. destruct Hq2 as [_ Hq2].
  destruct (_ =? 0).
  - destruct Hq2 as (r0 & Hr0 & Hq2). rewrite Hq2 in Hq'.
    injection Hq' as Hq'. apply app_inv_head in Hq'. injection Hq' as ->.
    destruct (result_meta_inv s1 r _ _ _ Hm1 Hr0) as [_ Hi].
    rewrite Hr in Hi. injection Hi as ->.
    exists inp2. split; [exact Hs2|]. rewrite Hd2, HdB, HdA. exact Hd0.
  - rewrite Hq2 in Hq'. injection Hq' as Hq'.
    apply (f_equal length) in Hq'. rewrite length_app in Hq'. simpl in Hq'.
    lia.
Qed.

End Emission.

(** ** Frames run to their end *)

Section Progress.
Context {num : Numeric} {ext : Externals}.
Variable config : VioConfig.
Variable calib : Calibration.

Lemma bind_returns {A B} (m : M A) (k : A -> M B) s a s1 :
  m s = Some (a, s1) -> is_Some (k a s1) -> is_Some ((m ≫= k) s).
Proof. intros Hm [[b s2] Hk]. exists (b, s2). apply bind_Some. eauto. Qed.

Lemma has_result_inv s :
  has_result calib s ->
  exists tr a inp pyrs,
    transforms s = Some tr /\
    (intrinsics_size calib <= length (keypoints tr))%nat /\
    input_images tr = Some a /\ store s !! a = Some inp /\
    (0 < length (masks inp))%nat /\
    pyramid s = Some pyrs /\ (intrinsics_size calib <= length pyrs)%nat.
Proof.
  intros (t & a & k & c & pyrs & Hm & Hk & Hc & Hms & Hp & Hlen).
  unfold result_meta in Hm. destruct (transforms s) as [tr|]; [|discriminate].
  simpl in Hm. injection Hm as _ Ha <-.
  unfold bundle_contents in Hc. rewrite lookup_fmap in Hc.
  destruct (store s !! a) as [inp|] eqn:Hs; [|discriminate].
  simpl in Hc. injection Hc as <-. simpl in Hms.
  exists tr, a, inp, pyrs. auto 10.
Qed.

Lemma has_result_frame s s' :
  result_meta s' = result_meta s -> bundle_contents s' = bundle_contents s ->
  pyramid s' = pyramid s -> has_result calib s -> has_result calib s'.
Proof.
  intros Hm Hc Hp (t & a & k & c & pyrs & H). unfold has_result.
  rewrite Hm, Hc, Hp. eauto 10.
Qed.

Lemma has_result_keypoints s cam :
  has_result calib s -> (cam < intrinsics_size calib)%nat ->
  is_Some (keypoints_of s cam).
Proof.
  intros H Hcam. apply has_result_inv in H.
  destruct H as (tr & a & inp & pyrs & Ht & Hk & _).
  unfold keypoints_of. rewrite Ht. simpl. apply lookup_lt_is_Some_2. lia.
Qed.

Lemma has_result_pyramid s cam :
  has_result calib s -> (cam < intrinsics_size calib)%nat ->
  exists pyr, get_pyramid cam s = Some (pyr, s).
Proof.
  intros H Hcam. apply has_result_inv in H.
  destruct H as (tr & a & inp & pyrs & _ & _ & _ & _ & _ & Hp & Hlen).
  destruct (lookup_lt_is_Some_2 pyrs cam) as [pyr Hpyr]; [lia|].
  exists pyr. unfold get_pyramid. run. rewrite Hp. run. rewrite Hpyr.
  reflexivity.
Qed.

Lemma write_keypoints_returns cam m s :
  is_Some (keypoints_of s cam) ->
  exists s', write_keypoints cam m s = Some (tt, s').
Proof.
  unfold keypoints_of, write_keypoints, get_transforms. intros [m0 H].
  destruct (transforms s) as [tr|] eqn:Ht; [|discriminate]. simpl in H.
  eexists. run. rewrite Ht. run. rewrite H. run. reflexivity.
Qed.

Lemma emplace_all_returns cam kvs : forall s,
  is_Some (keypoints_of s cam) ->
  exists s', emplace_all cam kvs s = Some (tt, s').
Proof.
  induction kvs as [|kv kvs IH]; intros s [m Hm]; simpl.
  - eexists. reflexivity.
  - destruct (write_keypoints_returns cam (emplace kv m) s) as [s1 Hw]; [eauto|].
    destruct (IH s1) as [s' H'].
    { apply write_keypoints_spec in Hw. destruct Hw as (_ & Hc & _). eauto. }
    exists s'. apply bind_Some. exists m, s.
    split; [apply read_keypoints_spec; auto|].
    apply bind_Some. exists tt, s1. auto.
Qed.

Lemma add_corner_returns pyr0 c new0 s :
  is_Some (keypoints_of s 0%nat) ->
  exists new1 s', add_corner config pyr0 c new0 s = Some (new1, s').
Proof.
  intros [m0 Hm0]. unfold add_corner.
  set (s1 := set_patches
               (<[last_keypoint_id s :=
                    default [] (patches s !! last_keypoint_id s) ++
                    new_patches config pyr0 (cast_Scalar (fst c))]> (patches s))
               s).
  destruct (write_keypoints_returns 0%nat
              (<[last_keypoint_id s :=
                   {| pose := {| linear := m2_identity;
                                 translation := cast_Scalar (fst c) |};
                      descriptor := snd c; detected_by_opt_flow := false |}]> m0)
              s1) as [s2 Hw]; [exists m0; exact Hm0|].
  do 2 eexists. run. cbv beta iota. fold s1.
  rewrite (proj2 (read_keypoints_spec 0%nat s1 m0 s1)) by (split; [exact Hm0|reflexivity]).
  cbv beta iota. run. rewrite Hw. cbv beta iota. run. reflexivity.
Qed.

Lemma add_corners_returns pyr0 kd : forall new0 s,
  is_Some (keypoints_of s 0%nat) ->
  exists new1 s', add_corners config pyr0 kd new0 s = Some (new1, s').
Proof.
  induction kd as [|c kd IH]; intros new0 s Hk; simpl.
  - do 2 eexists. reflexivity.
  - destruct (add_corner_returns pyr0 c new0 s Hk) as (newa & sa & Ha).
    destruct (IH newa sa) as (new1 & s' & H').
    { apply add_corner_spec in Ha.
      destruct Ha as (_ & _ & _ & (m0 & _ & Hm0) & _). eauto. }
    exists new1, s'. apply bind_Some. eauto.
Qed.

Lemma detect_returns s :
  has_result calib s -> (0 < intrinsics_size calib)%nat ->
  exists kd, detect config s = Some (kd, s).
Proof.
  intros H Hn.
  destruct (has_result_keypoints s 0%nat H Hn) as [m0 Hm0].
  destruct (has_result_pyramid s 0%nat H Hn) as [pyr0 Hp0].
  apply has_result_inv in H.
  destruct H as (tr & a & inp & pyrs & Ht & _ & Ha & Hs & Hms & _).
  destruct (lookup_lt_is_Some_2 (masks inp) 0%nat Hms) as [mk Hmk].
  eexists. unfold detect.
  rewrite run_bind.
  rewrite (proj2 (read_keypoints_spec 0%nat s m0 s)) by auto.
  cbv beta iota. rewrite run_bind, Hp0. cbv beta iota.
  unfold get_transforms, deref. run. rewrite Ht. run. rewrite Ha. run.
  rewrite Hs. run. rewrite Hmk. run. reflexivity.
Qed.

(** The patch stacks [trackPoints] reads for the keypoints of [m]. *)
Lemma inv_patches s (m : gmap Z Keypoint) :
  tracker_inv config s -> ids_below (last_keypoint_id s) m ->
  forall id kp, m !! id = Some kp ->
    exists pv, patches s !! id = Some pv /\
      (Z.to_nat (optical_flow_levels config + 1) <= length pv)%nat.
Proof.
  intros (_ & Hdom & Hlen & _) Hm id kp Hid.
  destruct (proj2 (Hdom id)) as [pv Hpv]; [apply Hm; eauto|].
  exists pv. split; [exact Hpv|]. rewrite (Hlen id pv Hpv). lia.
Qed.

Lemma trackPoints_returns pyr_1 pyr_2 (m : gmap Z Keypoint) cam1 cam2 s :
  has_result calib s ->
  (forall id kp, m !! id = Some kp ->
     exists pv, patches s !! id = Some pv /\
       (Z.to_nat (optical_flow_levels config + 1) <= length pv)%nat) ->
  exists m2 s', trackPoints config calib pyr_1 pyr_2 m cam1 cam2 s = Some (m2, s').
Proof.
  intros H Hpatch. apply has_result_inv in H.
  destruct H as (tr & a & inp & pyrs & Ht & _ & Ha & Hs & _).
  destruct (compute_func_spec config calib pyr_1 pyr_2 (patches s)
              (depth_guess s) cam1 cam2 (map_to_list m) ∅)
    as (res & Hres & _).
  - apply NoDup_fst_map_to_list.
  - intros. apply lookup_empty.
  - intros id kp Hin. apply elem_of_map_to_list in Hin. eauto.
  - exists res. eexists. unfold trackPoints. run.
    rewrite (store_depth_guess_run _ s tr a inp Ht Ha Hs). run.
    simpl. rewrite Hres. reflexivity.
Qed.

Lemma seed_stereo_returns pyr0 (new0 : gmap Z Keypoint) s :
  has_result calib s ->
  (forall id kp, new0 !! id = Some kp ->
     exists pv, patches s !! id = Some pv /\
       (Z.to_nat (optical_flow_levels config + 1) <= length pv)%nat) ->
  exists s', seed_stereo config calib pyr0 new0 s = Some (tt, s').
Proof.
  intros H Hpatch. unfold seed_stereo.
  destruct (Nat.ltb_spec 1 (intrinsics_size calib)) as [Hn|Hn];
    [|eexists; reflexivity].
  destruct (has_result_pyramid s 1%nat H Hn) as [pyr1 Hp1].
  destruct (trackPoints_returns pyr0 pyr1 new0 0%nat 1%nat s H Hpatch)
    as (new1 & s2 & Ht).
  destruct (emplace_all_returns 1%nat (map_to_list new1) s2) as [s' H'].
  { pose proof Ht as Hi. apply trackPoints_inv in Hi.
    destruct Hi as (tr & a & inp & _ & _ & _ & -> & _).
    exact (has_result_keypoints s 1%nat H Hn). }
  exists s'. apply bind_Some. exists pyr1, s. split; [exact Hp1|].
  apply bind_Some. exists new1, s2. auto.
Qed.

Lemma filterPoints_returns s :
  has_result calib s -> exists s', filterPoints config calib s = Some (tt, s').
Proof.
  intros H. unfold filterPoints.
  destruct (Nat.ltb_spec (intrinsics_size calib) 2) as [Hn|Hn];
    [eexists; reflexivity|].
  destruct (has_result_keypoints s 1%nat H) as [m1 Hm1]; [lia|].
  destruct (has_result_keypoints s 0%nat H) as [m0 Hm0]; [lia|].
  destruct (write_keypoints_returns 1%nat
              (erase_all
                 (elements (lm_to_remove_of config calib (stereo_pairs m0 m1)))
                 m1) s) as [s' Hw]; [eauto|].
  exists s'. apply bind_Some. exists m1, s.
  split; [apply read_keypoints_spec; auto|].
  apply bind_Some. exists m0, s.
  split; [apply read_keypoints_spec; auto|exact Hw].
Qed.

(** Detection and seeding return, and leave a state in which the filter
    returns. *)
Lemma addPoints_returns bound s :
  (forall img g n lo hi m pts,
     Z.of_nat (length (detectKeypoints img g n lo hi m pts)) <= bound) ->
  tracker_inv config s ->
  last_keypoint_id s + bound < 2 ^ 64 ->
  (0 < intrinsics_size calib)%nat ->
  has_result calib s ->
  exists s', addPoints config calib s = Some (tt, s') /\
             last_keypoint_id s' <= last_keypoint_id s + bound.
Proof.
  intros Hbound Hinv Hwrap Hn H.
  pose proof Hinv as (Hrange & _ & _ & Hids).
  destruct (detect_returns s H Hn) as [kd Hd].
  destruct (has_result_pyramid s 0%nat H Hn) as [pyr0 Hp0].
  destruct (has_result_keypoints s 0%nat H Hn) as [m0 Hm0].
  destruct (add_corners_returns pyr0 kd ∅ s) as (new1 & s1 & Hc); [eauto|].
  assert (Hk : Z.of_nat (length kd) <= bound).
  { apply detect_spec in Hd.
    destruct Hd as (_ & _ & (img & g & n & lo & hi & mk & pts & ->)).
    apply Hbound. }
  destruct (add_corners_spec config pyr0 kd ∅ s new1 s1 m0 Hc)
    as (Hl1 & _ & Hnew & _ & Hwc & _ & _ & Hmeta);
    [lia|lia|intros id Hid; apply (inv_fresh config s id Hinv Hid)|exact Hm0|].
  assert (H1 : has_result calib s1).
  { apply (has_result_frame s s1); [exact Hmeta| | |exact H].
    - eapply (unchanged_add_corners config bundle_contents) in Hc;
        [exact Hc|by_setters|by_setters|by_setters].
    - eapply (unchanged_add_corners config pyramid) in Hc;
        [exact Hc|by_setters|by_setters|by_setters]. }
  destruct (seed_stereo_returns pyr0 new1 s1 H1) as [s' H'].
  { intros id kp Hid.
    destruct (decide (last_keypoint_id s <= id)) as [Hge|Hlt].
    - destruct (with_corners_new (last_keypoint_id s) kd ∅ new1 id kp)
        as (i & c & -> & Hc' & _);
        [apply ids_below_empty|exact Hwc|exact Hge|exact Hid|].
      eexists. split; [apply (Hnew i c Hc')|].
      rewrite length_new_patches. lia.
    - destruct Hwc as [_ Hout]. rewrite Hout in Hid by lia.
      rewrite lookup_empty in Hid. discriminate. }
  exists s'. split.
  - unfold addPoints. apply bind_Some. exists kd, s.
    split; [exact Hd|]. apply bind_Some. exists pyr0, s.
    split; [exact Hp0|]. apply bind_Some. exists new1, s1. auto.
  - eapply (unchanged_seed_stereo config calib last_keypoint_id) in H';
      [|by_setters..].
    rewrite H', Hl1. lia.
Qed.

(** The tail of both branches of [processFrame]. *)
Lemma detect_and_filter_returns bound s :
  (forall img g n lo hi m pts,
     Z.of_nat (length (detectKeypoints img g n lo hi m pts)) <= bound) ->
  tracker_inv config s ->
  last_keypoint_id s + bound < 2 ^ 64 ->
  (0 < intrinsics_size calib)%nat ->
  has_result calib s ->
  exists s',
    (addPoints config calib;; filterPoints config calib) s = Some (tt, s') /\
    has_result calib s' /\ tracker_inv config s' /\
    last_keypoint_id s' <= last_keypoint_id s + bound.
Proof.
  intros Hbound Hinv Hwrap Hn H.
  destruct (addPoints_returns bound s Hbound Hinv Hwrap Hn H) as (sB & Ha & Hl).
  assert (HB : has_result calib sB).
  { apply (has_result_frame s sB); [| | |exact H].
    - apply (addPoints_meta config calib _ _ _ Ha).
    - eapply (unchanged_addPoints config calib bundle_contents) in Ha;
        [exact Ha|by_setters|by_setters|by_setters
        |apply store_depth_guess_contents].
    - eapply (unchanged_addPoints config calib pyramid) in Ha;
        [exact Ha|by_setters..]. }
  destruct (filterPoints_returns sB HB) as [s' Hf].
  destruct (addPoints_spec config calib bound s sB Hbound Hinv Hwrap Ha)
    as (kd & pyrs & pyr0 & m0 & m0' & _ & _ & _ & _ & _ & _ & _ & _ & _
        & HinvB & _).
  exists s'. split; [apply bind_Some; exists tt, sB; auto|].
  split; [|split].
  - apply (has_result_frame sB s'); [| | |exact HB].
    + apply (filterPoints_meta config calib _ _ _ Hf).
    + eapply (unchanged_filterPoints config calib bundle_contents) in Hf;
        [exact Hf|by_setters].
    + eapply (unchanged_filterPoints config calib pyramid) in Hf;
        [exact Hf|by_setters].
  - apply (filterPoints_inv config calib sB s' HinvB Hf).
  - eapply (unchanged_filterPoints config calib last_keypoint_id) in Hf;
      [|by_setters].
    rewrite Hf. exact Hl.
Qed.

Lemma build_pyramids_returns inp : forall cams,
  None ∉ img_data inp ->
  (forall i, i ∈ cams -> (i < length (img_data inp))%nat) ->
  exists pyrs, build_pyramids config inp cams = Some pyrs /\
               length pyrs = length cams.
Proof.
  induction cams as [|i cams IH]; intros Hfull Hlt; simpl.
  - exists []. auto.
  - destruct (lookup_lt_is_Some_2 (img_data inp) i) as [v Hv];
      [apply Hlt; left|].
    rewrite Hv. simpl. destruct v as [img|].
    2:{ exfalso. apply Hfull. apply list_elem_of_lookup. eauto. }
    simpl. destruct IH as (pyrs & Hp & Hlen);
      [exact Hfull|intros j Hj; apply Hlt; right; exact Hj|].
    rewrite Hp. simpl. eexists. split; [reflexivity|]. simpl. lia.
Qed.

Lemma trackPoints_keeps pyr_1 pyr_2 (m : gmap Z Keypoint) cam1 cam2 s m2 s' :
  trackPoints config calib pyr_1 pyr_2 m cam1 cam2 s = Some (m2, s') ->
  (has_result calib s -> has_result calib s') /\
  (tracker_inv config s -> tracker_inv config s') /\
  old_pyramid s' = old_pyramid s.
Proof.
  intros Ht.
  assert (Hb : bundle_contents s' = bundle_contents s).
  { eapply (unchanged_trackPoints config calib bundle_contents) in Ht;
      [exact Ht|apply store_depth_guess_contents]. }
  apply trackPoints_inv in Ht.
  destruct Ht as (tr & a & inp & _ & _ & _ & -> & _).
  split; [|split; [|reflexivity]].
  - apply has_result_frame; [reflexivity|exact Hb|reflexivity].
  - intros Hinv. pose proof Hinv as (_ & _ & _ & Hids).
    apply (tracker_inv_frame config s); [reflexivity|reflexivity| |exact Hinv].
    exact Hids.
Qed.

Lemma track_cameras_returns opyrs : forall cams new_keypoints s,
  (forall i, i ∈ cams -> (i < intrinsics_size calib)%nat) ->
  has_result calib s -> tracker_inv config s ->
  old_pyramid s = Some opyrs ->
  (intrinsics_size calib <= length opyrs)%nat ->
  (intrinsics_size calib <= length new_keypoints)%nat ->
  exists res s',
    track_cameras config calib cams new_keypoints s = Some (res, s') /\
    length res = length new_keypoints.
Proof.
  induction cams as [|i cams IH]; intros new_keypoints s Hlt H Hinv Ho Hlo Hln;
    simpl.
  - do 2 eexists. split; reflexivity.
  - assert (Hi : (i < intrinsics_size calib)%nat) by (apply Hlt; left).
    destruct (lookup_lt_is_Some_2 opyrs i) as [p1 Hp1]; [lia|].
    destruct (has_result_pyramid s i H Hi) as [p2 Hp2].
    destruct (has_result_keypoints s i H Hi) as [m1 Hm1].
    destruct (lookup_lt_is_Some_2 new_keypoints i) as [x Hx]; [lia|].
    pose proof Hinv as (_ & _ & _ & Hids).
    destruct (trackPoints_returns p1 p2 m1 i i s H
                (inv_patches s m1 Hinv (Hids i m1 Hm1))) as (m2 & s2 & Ht).
    destruct (trackPoints_keeps _ _ _ _ _ _ _ _ Ht) as (H2 & Hinv2 & Ho2).
    destruct (IH (<[i := m2]> new_keypoints) s2) as (res & s' & Hr & Hlen).
    + intros j Hj. apply Hlt. right. exact Hj.
    + apply H2. exact H.
    + apply Hinv2. exact Hinv.
    + rewrite Ho2. exact Ho.
    + exact Hlo.
    + rewrite length_insert. exact Hln.
    + exists res, s'. split; [|rewrite Hlen; apply length_insert].
      apply bind_Some. exists p1, s. split.
      { unfold get_old_pyramid. run. rewrite Ho. run. rewrite Hp1.
        reflexivity. }
      apply bind_Some. exists p2, s. split; [exact Hp2|].
      apply bind_Some. exists m1, s.
      split; [apply read_keypoints_spec; auto|].
      apply bind_Some. exists x, s. split; [rewrite Hx; reflexivity|].
      apply bind_Some. exists m2, s2. auto.
Qed.

Lemma cameras_lt i : i ∈ cameras calib -> (i < intrinsics_size calib)%nat.
Proof. unfold cameras. intros H. apply elem_of_seq in H. lia. Qed.

Lemma first_frame_returns bound curr_t_ns a inp s :
  (forall img g n lo hi m pts,
     Z.of_nat (length (detectKeypoints img g n lo hi m pts)) <= bound) ->
  tracker_inv config s ->
  last_keypoint_id s + bound < 2 ^ 64 ->
  (0 < intrinsics_size calib)%nat ->
  store s !! a = Some inp -> None ∉ img_data inp ->
  bundle_ready calib (in_t_ns inp, img_data inp, masks inp) ->
  exists s1,
    first_frame config calib curr_t_ns a inp s = Some (tt, s1) /\
    has_result calib s1 /\ tracker_inv config s1 /\
    last_keypoint_id s1 <= last_keypoint_id s + bound.
Proof.
  intros Hbound Hinv Hwrap Hn Hs Hfull [Himg Hms]. simpl in Himg, Hms.
  destruct (build_pyramids_returns inp (cameras calib) Hfull)
    as (pyrs & Hb & Hlen).
  { intros i Hi. apply cameras_lt in Hi. lia. }
  unfold cameras in Hlen. rewrite length_seq in Hlen.
  set (tr := {| res_t_ns := curr_t_ns;
                keypoints := replicate (intrinsics_size calib) empty_Keypoints;
                input_images := Some a |}).
  set (sA := set_transforms (Some tr)
               (set_pyramid (Some pyrs)
                  (set_transforms
                     (Some {| res_t_ns := curr_t_ns;
                              keypoints := replicate (intrinsics_size calib)
                                                     empty_Keypoints;
                              input_images := None |})
                     (set_t_ns curr_t_ns s)))).
  destruct (detect_and_filter_returns bound sA Hbound) as (s1 & H1 & Hr);
    [| exact Hwrap | exact Hn | |].
  - apply (tracker_inv_frame config s); [reflexivity|reflexivity| |exact Hinv].
    intros cam m. unfold keypoints_of. simpl. intros Hm.
    apply lookup_replicate_1 in Hm. destruct Hm as [-> _].
    apply ids_below_empty.
  - exists curr_t_ns, a, (intrinsics_size calib),
           (in_t_ns inp, img_data inp, masks inp), pyrs.
    split; [unfold result_meta; simpl; rewrite length_replicate; reflexivity|].
    split; [lia|]. split.
    { unfold bundle_contents. simpl. rewrite lookup_fmap, Hs. reflexivity. }
    split; [exact Hms|]. split; [reflexivity|lia].
  - exists s1. split; [|exact Hr].
    unfold first_frame, get_transforms. run. cbv beta iota.
    rewrite Hb. run. cbv beta iota. simpl transforms. run. cbv beta iota.
    exact H1.
Qed.

Lemma next_frame_returns bound curr_t_ns a inp s :
  (forall img g n lo hi m pts,
     Z.of_nat (length (detectKeypoints img g n lo hi m pts)) <= bound) ->
  tracker_inv config s -> has_result calib s ->
  last_keypoint_id s + bound < 2 ^ 64 ->
  (0 < intrinsics_size calib)%nat ->
  store s !! a = Some inp -> None ∉ img_data inp ->
  bundle_ready calib (in_t_ns inp, img_data inp, masks inp) ->
  exists s1,
    next_frame config calib curr_t_ns a inp s = Some (tt, s1) /\
    has_result calib s1 /\ tracker_inv config s1 /\
    last_keypoint_id s1 <= last_keypoint_id s + bound.
Proof.
  intros Hbound Hinv H Hwrap Hn Hs Hfull [Himg Hms]. simpl in Himg, Hms.
  destruct (build_pyramids_returns inp (cameras calib) Hfull)
    as (pyrs & Hb & Hlen).
  { intros i Hi. apply cameras_lt in Hi. lia. }
  unfold cameras in Hlen. rewrite length_seq in Hlen.
  pose proof (has_result_inv s H)
    as (tr0 & a0 & inp0 & pyrs0 & Ht0 & Hk0 & Ha0 & Hs0 & Hms0 & Hp0 & Hl0).
  set (s0 := set_pyramid (Some pyrs)
               (set_old_pyramid (pyramid s) (set_t_ns curr_t_ns s))).
  assert (H0 : has_result calib s0).
  { destruct H as (t & a' & k & c & pyrs' & Hm & Hk & Hc & Hmk & _ & _).
    exists t, a', k, c, pyrs. split; [exact Hm|]. split; [exact Hk|].
    split; [exact Hc|]. split; [exact Hmk|]. split; [reflexivity|lia]. }
  assert (Hinv0 : tracker_inv config s0).
  { pose proof Hinv as (_ & _ & _ & Hids).
    apply (tracker_inv_frame config s); [reflexivity|reflexivity| |exact Hinv].
    exact Hids. }
  destruct (track_cameras_returns pyrs0 (cameras calib)
              (replicate (length (img_data inp)) empty_Keypoints) s0)
    as (new_keypoints & s2 & Ht & Hlk);
    [apply cameras_lt|exact H0|exact Hinv0|exact Hp0|exact Hl0
    |rewrite length_replicate; exact Himg|].
  rewrite length_replicate in Hlk.
  assert (Hp2 : patches s2 = patches s).
  { eapply (unchanged_track_cameras config calib patches) in Ht;
      [exact Ht|by_setters]. }
  assert (Hl2 : last_keypoint_id s2 = last_keypoint_id s).
  { eapply (unchanged_track_cameras config calib last_keypoint_id) in Ht;
      [exact Ht|by_setters]. }
  assert (Hb2 : bundle_contents s2 = bundle_contents s).
  { eapply (unchanged_track_cameras config calib bundle_contents) in Ht;
      [exact Ht|apply store_depth_guess_contents]. }
  assert (Hpy2 : pyramid s2 = Some pyrs).
  { eapply (unchanged_track_cameras config calib pyramid) in Ht;
      [exact Ht|by_setters]. }
  set (sA := set_transforms
               (Some {| res_t_ns := curr_t_ns; keypoints := new_keypoints;
                        input_images := Some a |}) s2).
  destruct (detect_and_filter_returns bound sA Hbound) as (s1 & H1 & Hr);
    [| change (last_keypoint_id sA) with (last_keypoint_id s2);
       rewrite Hl2; exact Hwrap | exact Hn | |].
  - pose proof Hinv as (_ & _ & _ & Hids).
    apply (tracker_inv_frame config s); [exact Hp2|exact Hl2| |exact Hinv].
    intros cam m. unfold keypoints_of. simpl. intros Hm.
    apply (track_cameras_ids config calib (last_keypoint_id s) _ _ _ _ _ Ht).
    + intros cam' m'. unfold keypoints_of. simpl. apply Hids.
    + intros m' Hm'. apply elem_of_replicate_inv in Hm'. subst m'.
      apply ids_below_empty.
    + apply list_elem_of_lookup. eauto.
  - exists curr_t_ns, a, (length new_keypoints),
           (in_t_ns inp, img_data inp, masks inp), pyrs.
    split; [reflexivity|]. split; [lia|]. split.
    { change (bundle_contents sA) with (bundle_contents s2). rewrite Hb2.
      unfold bundle_contents. rewrite lookup_fmap, Hs. reflexivity. }
    split; [exact Hms|]. split; [exact Hpy2|lia].
  - exists s1. split.
    + unfold next_frame. run. cbv beta iota. rewrite Hb. run. cbv beta iota.
      change (set_pyramid (Some pyrs) _) with s0.
      rewrite Ht. cbv beta iota. run. cbv beta iota. exact H1.
    + change (last_keypoint_id sA) with (last_keypoint_id s2) in Hr.
      rewrite Hl2 in Hr. exact Hr.
Qed.

Lemma push_result_returns s :
  has_result calib s ->
  (is_Some (output_queue s) ->
   to_size_t (optical_flow_skip_frames config) <> 0) ->
  exists s', push_result config s = Some (tt, s').
Proof.
  intros H Hskip. apply has_result_inv in H.
  destruct H as (tr & a & inp & pyrs & Ht & _ & Ha & Hs & _).
  unfold push_result. run. cbv beta iota.
  destruct (output_queue s) as [q|]; [|eexists; reflexivity].
  run. cbv beta iota.
  destruct (Z.eqb_spec (to_size_t (optical_flow_skip_frames config)) 0)
    as [E|_]; [exfalso; apply Hskip; eauto|].
  destruct (_ =? 0); [|eexists; reflexivity].
  unfold get_transforms, deref. eexists. run. rewrite Ht. run. rewrite Ha. run.
  rewrite Hs. run. reflexivity.
Qed.

(** A frame runs to its end.  In a state that is ready, with a bundle in
    the store that is ready when it has all its images, and while the id
    counter does not wrap, [processFrame] returns; the state it leaves is
    ready for the next frame, and the frame has handed out at most [bound]
    ids. *)
Theorem processFrame_returns bound curr_t_ns a inp s :
  (forall img g n lo hi m pts,
     Z.of_nat (length (detectKeypoints img g n lo hi m pts)) <= bound) ->
  0 <= bound ->
  last_keypoint_id s + bound < 2 ^ 64 ->
  (0 < intrinsics_size calib)%nat ->
  (is_Some (output_queue s) ->
   to_size_t (optical_flow_skip_frames config) <> 0) ->
  store s !! a = Some inp ->
  (None ∉ img_data inp ->
   bundle_ready calib (in_t_ns inp, img_data inp, masks inp)) ->
  ready config calib s ->
  exists s',
    processFrame config calib curr_t_ns a s = Some (tt, s') /\
    ready config calib s' /\
    last_keypoint_id s' <= last_keypoint_id s + bound.
Proof.
  intros Hbound Hpos Hwrap Hn Hskip Hs Hready [Hinv Hres].
  destruct (existsb is_null (img_data inp)) eqn:He.
  { exists s. split; [|split; [split; assumption|lia]].
    apply (processFrame_missing config calib curr_t_ns a s inp Hs).
    apply existsb_is_null. exact He. }
  assert (Hfull : None ∉ img_data inp).
  { intros Hin. apply existsb_is_null in Hin. congruence. }
  specialize (Hready Hfull).
  assert (Hb : exists s1,
    (if t_ns s <? 0 then first_frame config calib curr_t_ns a inp
     else next_frame config calib curr_t_ns a inp) s = Some (tt, s1) /\
    has_result calib s1 /\ tracker_inv config s1 /\
    last_keypoint_id s1 <= last_keypoint_id s + bound).
  { destruct (Z.ltb_spec (t_ns s) 0) as [Hlt|Hge].
    - apply first_frame_returns; assumption.
    - apply next_frame_returns; try assumption. apply Hres. exact Hge. }
  destruct Hb as (s1 & Hb & H1 & Hinv1 & Hl1).
  assert (Hoq : output_queue s1 = output_queue s).
  { eapply (unchanged_branch config calib output_queue) in Hb;
      [exact Hb|by_setters..]. }
  destruct (push_result_returns s1 H1) as [s2 Hp];
    [rewrite Hoq; exact Hskip|].
  exists (set_frame_counter (to_size_t (frame_counter s2 + 1)) s2).
  assert (Hp2 : patches s2 = patches s1).
  { eapply (push_result_setter patches) in Hp; [exact Hp|by_setters|by_setters]. }
  assert (Hl2 : last_keypoint_id s2 = last_keypoint_id s1).
  { eapply (push_result_setter last_keypoint_id) in Hp;
      [exact Hp|by_setters|by_setters]. }
  assert (Hpy2 : pyramid s2 = pyramid s1).
  { eapply (push_result_setter pyramid) in Hp;
      [exact Hp|by_setters|by_setters]. }
  assert (Ht2 : transforms s2 = transforms s1).
  { eapply (push_result_setter transforms) in Hp;
      [exact Hp|by_setters|by_setters]. }
  destruct (push_result_bundles config s1 s2 Hp) as [Hc2 _].
  split; [|split; [split|]].
  - unfold processFrame, deref. run. cbv beta iota. rewrite Hs. run.
    cbv beta iota. rewrite He. run. cbv beta iota.
    rewrite Hb. cbv beta iota. run. rewrite Hp. cbv beta iota. reflexivity.
  - apply (tracker_inv_frame config s1); [exact Hp2|exact Hl2| |exact Hinv1].
    intros cam m. unfold keypoints_of. simpl. rewrite Ht2.
    destruct Hinv1 as (_ & _ & _ & Hids). apply Hids.
  - intros _. apply (has_result_frame s1); [| | |exact H1].
    + unfold result_meta. simpl. rewrite Ht2. reflexivity.
    + exact Hc2.
    + exact Hpy2.
  - simpl. rewrite Hl2. exact Hl1.
Qed.

Lemma processFrame_contents curr_t_ns a :
  unchanged bundle_contents (processFrame config calib curr_t_ns a).
Proof.
  apply unchanged_processFrame; try by_setters.
  - intros s [] s' H. apply push_result_bundles in H. apply H.
  - apply store_depth_guess_contents.
Qed.

Lemma at_frame_ready pushed a inp s :
  store s !! a = Some inp ->
  ready config calib s -> ready config calib (at_frame pushed a inp s).
Proof.
  intros Hs [Hinv Hres]. split; [apply at_frame_inv; exact Hinv|].
  unfold at_frame at 1. simpl.
  rewrite (drain_depth_other t_ns) by reflexivity. intros Ht.
  apply (has_result_frame s); [| | |apply Hres; exact Ht].
  - unfold result_meta, at_frame. simpl.
    rewrite (drain_depth_other transforms) by reflexivity. reflexivity.
  - apply at_frame_contents. exact Hs.
  - unfold at_frame. simpl. apply (drain_depth_other pyramid). reflexivity.
Qed.

(** The worker runs to the end of its input.  From a state that is ready,
    over turns that each pop a ready bundle of the store, and while the id
    counter does not wrap, [processingLoop] returns and leaves a state that
    is ready. *)
Theorem processingLoop_returns bound : forall turns s,
  (forall img g n lo hi m pts,
     Z.of_nat (length (detectKeypoints img g n lo hi m pts)) <= bound) ->
  0 <= bound ->
  (0 < intrinsics_size calib)%nat ->
  1 <= optical_flow_skip_frames config <= int_max ->
  Forall (pops_ready_bundle calib (bundle_contents s)) turns ->
  last_keypoint_id s + bound * Z.of_nat (length turns) < 2 ^ 64 ->
  ready config calib s ->
  exists s', processingLoop config calib turns s = Some (tt, s') /\
             ready config calib s'.
Proof.
  induction turns as [|[pushed o] rest IH];
    intros s Hbound Hpos Hn Hskip Hpop Hwrap Hready.
  - exists s. split; [reflexivity|exact Hready].
  - apply Forall_cons in Hpop. destruct Hpop as [Hturn Hpop].
    destruct Hturn as (a & [[t imgs] ms] & Ho & Hc & Hrd). simpl in Ho.
    subst o.
    destruct (bundle_contents_lookup s a t imgs ms Hc)
      as (inp & Hs & Ht & Himgs).
    assert (Hms : masks inp = ms).
    { unfold bundle_contents in Hc. rewrite lookup_fmap, Hs in Hc.
      simpl in Hc. injection Hc as _ _ Hm. exact Hm. }
    set (s0 := at_frame pushed a inp s).
    assert (Hl0 : last_keypoint_id s0 = last_keypoint_id s).
    { unfold s0, at_frame. simpl.
      apply (drain_depth_other last_keypoint_id). reflexivity. }
    simpl length in Hwrap. rewrite Nat2Z.inj_succ in Hwrap.
    destruct (processFrame_returns bound (in_t_ns inp) a
                (set_stats (addTime "frames_received" (stats inp)) inp) s0)
      as (s1 & Hp & Hr1 & Hl1).
    + exact Hbound.
    + exact Hpos.
    + rewrite Hl0. nia.
    + exact Hn.
    + intros _. rewrite to_size_t_skip by exact Hskip. lia.
    + apply at_frame_lookup.
    + intros _. simpl. rewrite Ht, Himgs, Hms. exact Hrd.
    + apply at_frame_ready; assumption.
    + destruct (IH s1) as (s' & Hrest & Hr'); try assumption.
      * rewrite (processFrame_contents _ _ _ _ _ Hp).
        unfold s0. rewrite at_frame_contents by exact Hs. exact Hpop.
      * rewrite Hl0 in Hl1. nia.
      * exists s'. split; [|exact Hr'].
        rewrite (processingLoop_turn config calib pushed a rest s inp Hs).
        fold s0. rewrite Hp. exact Hrest.
Qed.

End Progress.

(** ** Frames and sessions

    The theorems on whole frames: what a run that returns has done, and that
    the run returns on a state that is ready. *)

Section Frames.
Context {num : Numeric} {ext : Externals}.
Variable config : VioConfig.
Variable calib : Calibration.

(** C6. Take a pyramid depth of at most 30 and a frame in which the id
    counter does not wrap (the detector returns at most [bound] corners and
    [last_keypoint_id + bound] is below [2^64]).  Every frame keeps the id
    and patch-store invariant: the ids handed out are those below
    [last_keypoint_id], each has a patch stack and no other id has one.  The
    counter never decreases, so the ids of a frame are above all earlier ones
    and none is handed out twice.  The store is append-only and write-once:
    a stack that was there before the frame is there unchanged after it.
    Each id handed out in the frame is a keypoint of camera 0 that detection
    created, and its stack is the one of the specification: one patch per
    level [l], sampled in level [l] of the pyramid of camera 0 at the
    position of the keypoint divided by [2^l].  And the frame does return,
    in a state that is ready for the next frame, when the state holds the
    result of the last frame (if there was one) and the bundle is ready. *)
Theorem patch_store_append_only bound curr_t_ns a s :
  optical_flow_levels config <= 30 ->
  (forall img g n lo hi m pts,
     Z.of_nat (length (detectKeypoints img g n lo hi m pts)) <= bound) ->
  tracker_inv config s ->
  last_keypoint_id s + bound < 2 ^ 64 ->
  (forall s',
     processFrame config calib curr_t_ns a s = Some (tt, s') ->
     tracker_inv config s' /\
     last_keypoint_id s <= last_keypoint_id s' /\
     (forall id pv, patches s !! id = Some pv -> patches s' !! id = Some pv) /\
     (forall id, last_keypoint_id s <= id < last_keypoint_id s' ->
        exists pyrs pyr0 m0 kp,
          pyramid s' = Some pyrs /\ pyrs !! 0%nat = Some pyr0 /\
          keypoints_of s' 0%nat = Some m0 /\ m0 !! id = Some kp /\
          detected_by_opt_flow kp = false /\
          patches s' !! id =
            Some (patch_stack config pyr0 (translation (pose kp))))) /\
  (forall inp,
     0 <= bound -> (0 < intrinsics_size calib)%nat ->
     (is_Some (output_queue s) ->
      to_size_t (optical_flow_skip_frames config) <> 0) ->
     store s !! a = Some inp ->
     (None ∉ img_data inp ->
      bundle_ready calib (in_t_ns inp, img_data inp, masks inp)) ->
     (0 <= t_ns s -> has_result calib s) ->
     exists s', processFrame config calib curr_t_ns a s = Some (tt, s') /\
                ready config calib s').
Proof.
  intros Hlev Hbound Hinv Hwrap. split.
  - intros s' H.
    exact (processFrame_patch_store config calib bound curr_t_ns a s s'
             Hlev Hbound Hinv Hwrap H).
  - intros inp Hpos Hn Hskip Hs Hrd Hres.
    destruct (processFrame_returns config calib bound curr_t_ns a inp s
                Hbound Hpos Hwrap Hn Hskip Hs Hrd (conj Hinv Hres))
      as (s' & H & Hr & _).
    exists s'. auto.
Qed.

(** C5 (amended). In a rig with more than one camera, while the id
    counter does not wrap, [addPoints] seeds camera 1 and only camera 1: a
    keypoint detected in the call is in the map of camera 1 afterwards
    exactly as the bidirectional match from camera 0 to camera 1 emits it,
    with the configured guess policy and the current depth guess; what the
    maps held before under older ids is kept; and the maps of the cameras
    from 2 on are left as they were.  And the call does return when the
    state holds the result and the pyramids of the frame. *)
Theorem stereo_seeding_camera_1 bound sA :
  (forall img g n lo hi m pts,
     Z.of_nat (length (detectKeypoints img g n lo hi m pts)) <= bound) ->
  tracker_inv config sA ->
  last_keypoint_id sA + bound < 2 ^ 64 ->
  (1 < intrinsics_size calib)%nat ->
  (forall sB,
     addPoints config calib sA = Some (tt, sB) ->
     seeded config calib (depth_guess sA) 1%nat sA sB /\
     (forall m m' id,
        keypoints_of sA 1%nat = Some m -> keypoints_of sB 1%nat = Some m' ->
        id < last_keypoint_id sA -> m' !! id = m !! id) /\
     (forall j, (2 <= j)%nat -> keypoints_of sB j = keypoints_of sA j)) /\
  (has_result calib sA ->
   exists sB, addPoints config calib sA = Some (tt, sB)).
Proof.
  intros Hbound Hinv Hwrap Hn. split.
  - intros sB H.
    exact (addPoints_seeds_camera_1 config calib bound sA sB
             Hbound Hinv Hwrap Hn H).
  - intros Hres.
    destruct (addPoints_returns config calib bound sA Hbound Hinv Hwrap)
      as (sB & H & _); [lia|exact Hres|].
    exists sB. exact H.
Qed.

(** C9. Take [optical_flow_skip_frames] between 1 and the largest [int]
    and a run of the worker over turns that each pop a bundle, with few
    enough fully processed frames (bundles with every image present) for
    [frame_counter] not to wrap.  Then [frame_counter] counts the fully
    processed frames, and the frames pushed to an attached output queue are
    exactly the fully processed frames during which the counter was a
    multiple of [optical_flow_skip_frames] (the counter is incremented after
    the test): starting from counter 0 these are the first processed frame
    and every N-th processed frame after it.  Without an output queue
    nothing is pushed.  And the run does return when it starts in a state
    that is ready, every bundle it pops is ready, and the id counter does
    not wrap. *)
Theorem frame_skipping_emission bound : forall turns s,
  1 <= optical_flow_skip_frames config <= int_max ->
  Forall (pops_bundle (bundle_contents s)) turns ->
  0 <= frame_counter s ->
  frame_counter s +
    Z.of_nat (length (processed (bundle_contents s) turns)) < 2 ^ 64 ->
  (forall s',
     processingLoop config calib turns s = Some (tt, s') ->
     frame_counter s' =
       frame_counter s +
       Z.of_nat (length (processed (bundle_contents s) turns)) /\
     match output_queue s with
     | None => output_queue s' = None
     | Some q =>
         exists rs,
           output_queue s' = Some (q ++ map Some rs) /\
           map res_t_ns rs =
             every_nth (optical_flow_skip_frames config) (frame_counter s)
                       (map (turn_t_ns (bundle_contents s))
                            (processed (bundle_contents s) turns))
     end) /\
  ((forall img g n lo hi m pts,
      Z.of_nat (length (detectKeypoints img g n lo hi m pts)) <= bound) ->
   0 <= bound -> (0 < intrinsics_size calib)%nat ->
   Forall (pops_ready_bundle calib (bundle_contents s)) turns ->
   last_keypoint_id s + bound * Z.of_nat (length turns) < 2 ^ 64 ->
   ready config calib s ->
   exists s', processingLoop config calib turns s = Some (tt, s')).
Proof.
  intros turns s Hskip Hpop Hpos Hwrap. split.
  - intros s' H.
    exact (processingLoop_emission config calib turns s s'
             Hskip Hpop Hpos Hwrap H).
  - intros Hbound Hb Hn Hrd Hids Hready.
    destruct (processingLoop_returns config calib bound turns s
                Hbound Hb Hn Hskip Hrd Hids Hready) as (s' & H & _).
    exists s'. exact H.
Qed.

(** C8 (amended). The drain loop leaves the newest value of the depth
    channel in the worker's depth state, and a frame does not change it.  In
    a rig with at least two cameras (and while the id counter does not wrap)
    a result pushed by the frame reports, at the time it is pushed, that
    value through the bundle it retains, and the stereo seeding of the frame
    is the bidirectional match at that depth.  And the frame does return
    when the state holds the result of the last frame (if there was one) and
    the bundle is ready. *)
Theorem depth_guess_latest_wins bound pushed a s inp :
  (forall img g n lo hi m pts,
     Z.of_nat (length (detectKeypoints img g n lo hi m pts)) <= bound) ->
  (1 < intrinsics_size calib)%nat ->
  tracker_inv config s ->
  last_keypoint_id s + bound < 2 ^ 64 ->
  store s !! a = Some inp -> None ∉ img_data inp ->
  let newest := List.last pushed (depth_guess s) in
  depth_guess (at_frame pushed a inp s) = newest /\
  (forall s',
     processFrame config calib (in_t_ns inp) a (at_frame pushed a inp s) =
       Some (tt, s') ->
     depth_guess s' = newest /\
     reports_newest_depth pushed s s' /\
     exists sA sB s1 s2,
       addPoints config calib sA = Some (tt, sB) /\
       filterPoints config calib sB = Some (tt, s1) /\
       push_result config s1 = Some (tt, s2) /\
       s' = set_frame_counter (to_size_t (frame_counter s2 + 1)) s2 /\
       seeded config calib newest 1%nat sA sB) /\
  (0 <= bound ->
   (is_Some (output_queue s) ->
    to_size_t (optical_flow_skip_frames config) <> 0) ->
   bundle_ready calib (in_t_ns inp, img_data inp, masks inp) ->
   (0 <= t_ns s -> has_result calib s) ->
   exists s',
     processFrame config calib (in_t_ns inp) a (at_frame pushed a inp s) =
       Some (tt, s')).
Proof.
  intros Hbound Hn Hinv Hwrap Hs Hfull newest.
  split; [unfold at_frame; simpl; apply drain_depth_last|]. split.
  - intros s' H.
    destruct (processFrame_depth_guess config calib bound pushed a s s' inp
                Hbound Hn Hinv Hwrap Hs Hfull H) as (_ & H').
    exact H'.
  - intros Hpos Hskip Hrd Hres.
    destruct (processFrame_returns config calib bound (in_t_ns inp) a
                (set_stats (addTime "frames_received" (stats inp)) inp)
                (at_frame pushed a inp s)) as (s' & H & _).
    + exact Hbound.
    + exact Hpos.
    + unfold at_frame. simpl.
      rewrite (drain_depth_other last_keypoint_id) by reflexivity.
      exact Hwrap.
    + lia.
    + unfold at_frame. simpl.
      rewrite (drain_depth_other output_queue) by reflexivity. exact Hskip.
    + apply at_frame_lookup.
    + intros _. exact Hrd.
    + apply at_frame_ready; [exact Hs|split; assumption].
    + exists s'. exact H.
Qed.

End Frames.

(** * Further properties of the tracker *)

(** ** The two tracking loops *)

Section TrackingEdges.
Context {num : Numeric} {ext : Externals}.
Variable config : VioConfig.
Variable calib : Calibration.

Lemma trackPointAtLevel_body_true img dp w w' :
  trackPointAtLevel_body img dp w = (true, w') ->
  InBounds img (translation w') (s_of_int filter_margin) = true.
Proof.
  unfold trackPointAtLevel_body.
  destruct (residual dp img _) as [res|]; [|discriminate].
  cbv zeta.
  destruct (v3_allFinite _ && d_ltb _ _); [|discriminate].
  simpl. intros [= H <-]. exact H.
Qed.

Lemma trackPointAtLevel_loop_true img dp : forall fuel it w it' w',
  trackPointAtLevel_loop (S fuel) img dp it true w = (it', true, w') ->
  InBounds img (translation w') (s_of_int filter_margin) = true.
Proof.
  induction fuel as [|fuel IH]; intros it w it' w' H.
  - simpl in H. destruct (trackPointAtLevel_body img dp w) as [pv tr] eqn:Hb.
    injection H as _ -> ->. apply (trackPointAtLevel_body_true _ _ _ _ Hb).
  - change (trackPointAtLevel_loop (S (S fuel)) img dp it true w)
      with (let '(pv, tr) := trackPointAtLevel_body img dp w in
            trackPointAtLevel_loop (S fuel) img dp (it + 1) pv tr) in H.
    destruct (trackPointAtLevel_body img dp w) as [pv tr].
    destruct pv; [exact (IH _ _ _ _ H)|].
    rewrite trackPointAtLevel_loop_false in H. discriminate.
Qed.

Lemma trackPointAtLevel_true img dp w w' :
  0 < optical_flow_max_iterations config ->
  trackPointAtLevel config img dp w = (true, w') ->
  InBounds img (translation w') (s_of_int filter_margin) = true.
Proof.
  intros Hit H. unfold trackPointAtLevel, trackPointAtLevel_run in H.
  destruct (Z.to_nat (optical_flow_max_iterations config)) as [|fuel] eqn:Hf;
    [lia|].
  destruct (trackPointAtLevel_loop (S fuel) img dp 0 true w)
    as [[it pv] tr] eqn:Hl.
  injection H as -> ->.
  exact (trackPointAtLevel_loop_true img dp fuel 0 w it w' Hl).
Qed.

(** X1. When [trackPointAtLevel] makes at least one iteration and reports
    success, the translation it leaves is inside the image with the margin
    of two pixels: the bounds test of the last iteration has passed. *)
Theorem trackPointAtLevel_success_in_bounds img dp w w' :
  0 < optical_flow_max_iterations config ->
  trackPointAtLevel config img dp w = (true, w') ->
  InBounds img (translation w') (s_of_int filter_margin) = true.
Proof. apply trackPointAtLevel_true. Qed.

Lemma trackPoint_is_Some pyr pv w :
  is_Some (trackPoint config pyr pv w) <->
  optical_flow_levels config < Z.of_nat (length pv).
Proof.
  split.
  - destruct (Z.ltb_spec (optical_flow_levels config) 0) as [Hneg|Hpos];
      [lia|].
    unfold trackPoint.
    replace (Z.to_nat (optical_flow_levels config + 1))
      with (S (Z.to_nat (optical_flow_levels config))) by lia.
    simpl.
    destruct (pv !! Z.to_nat (optical_flow_levels config)) as [p|] eqn:Hp.
    + intros _. apply lookup_lt_Some in Hp. lia.
    + simpl. intros [x Hx]. discriminate.
  - intros Hlen. destruct (trackPoint_total config pyr pv w) as [r Hr];
      [lia|]. rewrite Hr. eauto.
Qed.


Lemma trackPoint_loop_true pyr pv : forall cnt w w',
  0 < optical_flow_max_iterations config ->
  trackPoint_loop config (S cnt) pyr pv true w = Some (true, w') ->
  (forall l, (l <= cnt)%nat -> exists p, pv !! l = Some p /\ valid p = true) /\
  exists w0,
    InBounds (lvl pyr 0) (translation w0) (s_of_int filter_margin) = true /\
    w' = mul_translation w0 (level_scale 0).
Proof.
  induction cnt as [|cnt IH]; intros w w' Hit H.
  - simpl in H. destruct (pv !! 0%nat) as [p|] eqn:Hp; [|discriminate].
    simpl in H. destruct (valid p) eqn:Hv; simpl in H; [|discriminate].
    change (Z.of_nat 0) with 0 in H.
    destruct (trackPointAtLevel config (lvl pyr 0) p _) as [ok tr] eqn:Ht.
    injection H as -> <-. split.
    + intros l Hl. replace l with 0%nat by lia. eauto.
    + exists tr. split; [|reflexivity].
      exact (trackPointAtLevel_true _ _ _ _ Hit Ht).
  - change (trackPoint_loop config (S (S cnt)) pyr pv true w) with
      (let scale := level_scale (Z.of_nat (S cnt)) in
       let transform := div_translation w scale in
       p ← pv !! S cnt;
       let patch_valid := true && valid p in
       let '(patch_valid, transform) :=
         if patch_valid then
           let '(ok, tr) :=
             trackPointAtLevel config (lvl pyr (Z.of_nat (S cnt))) p transform in
           (patch_valid && ok, tr)
         else (patch_valid, transform) in
       let transform := mul_translation transform scale in
       trackPoint_loop config (S cnt) pyr pv patch_valid transform) in H.
    cbv zeta in H.
    destruct (pv !! S cnt) as [p|] eqn:Hp; [|discriminate].
    cbn [mbind option_bind] in H.
    destruct (valid p) eqn:Hv; cbn [andb] in H.
    2:{ rewrite trackPoint_loop_false in H. discriminate. }
    destruct (trackPointAtLevel config (lvl pyr (Z.of_nat (S cnt))) p _)
      as [ok tr].
    destruct ok; cbn [andb] in H.
    2:{ rewrite trackPoint_loop_false in H. discriminate. }
    destruct (IH _ _ Hit H) as [Hall Hw0]. split; [|exact Hw0].
    intros l Hl. destruct (decide (l = S cnt)) as [->|Hne]; [eauto|].
    apply Hall. lia.
Qed.

(** X3. When [trackPoint] reports success (with at least one level and one
    iteration per level), the reference patch of every level was valid, and
    the warp it leaves is a warp that passed the bounds test in the level-0
    image with the margin of two pixels, rescaled by the level-0 scale. *)
Theorem trackPoint_success pyr pv w w' :
  0 <= optical_flow_levels config ->
  0 < optical_flow_max_iterations config ->
  trackPoint config pyr pv w = Some (true, w') ->
  (forall l, (l <= Z.to_nat (optical_flow_levels config))%nat ->
     exists p, pv !! l = Some p /\ valid p = true) /\
  exists w0,
    InBounds (lvl pyr 0) (translation w0) (s_of_int filter_margin) = true /\
    w' = mul_translation w0 (level_scale 0).
Proof.
  intros Hlev Hit H. unfold trackPoint in H.
  replace (Z.to_nat (optical_flow_levels config + 1))
    with (S (Z.to_nat (optical_flow_levels config))) in H by lia.
  exact (trackPoint_loop_true pyr pv _ w w' Hit H).
Qed.

End TrackingEdges.

(** ** The loop of [trackPoints] *)

Section TrackPointsEdges.
Context {num : Numeric} {ext : Externals}.
Variable config : VioConfig.
Variable calib : Calibration.

(** One index of the loop either fails (the keypoint has no patch stack that
    reaches the top level, and its prior is in the image), or leaves
    [result] alone, or adds a keypoint under the id; which of the three does
    not depend on [result]. *)
Lemma compute_func_body_shape pyr_1 pyr_2 patches_ depth cam1 cam2 id kp :
  exists oo : option (option Keypoint),
    (forall result,
       compute_func_body config calib pyr_1 pyr_2 patches_ depth cam1 cam2
                         id kp result =
       (fun o : option Keypoint =>
          match o with Some k => <[id := k]> result | None => result end)
         <$> oo) /\
    (forall k, oo = Some (Some k) ->
       descriptor k = descriptor kp /\ detected_by_opt_flow k = true) /\
    (oo = None <->
     in_image (lvl pyr_2 0)
              (v2_sub (translation (pose kp))
                      (prior_offset config calib depth (translation (pose kp))
                                    cam1 cam2)) /\
     ~ exists pv, patches_ !! id = Some pv /\
                  optical_flow_levels config < Z.of_nat (length pv)).
Proof.
  unfold compute_func_body.
  rewrite use_depth_prior_offset.
  set (t1 := translation (pose kp)).
  set (off := prior_offset config calib depth t1 cam1 cam2).
  set (w0 := set_translation (pose kp) (v2_sub t1 off)).
  change (translation w0) with (v2_sub t1 off).
  pose proof (bounds_check_in_image (lvl pyr_2 0) (v2_sub t1 off)) as Hb.
  destruct (_ && _ && _ && _) eqn:Hchk; simpl.
  2:{ exists (Some None). split; [reflexivity|]. split; [intros k [=]|].
      split; [discriminate|]. intros [Hin _]. apply Hb in Hin. discriminate. }
  assert (Hin : in_image (lvl pyr_2 0) (v2_sub t1 off)) by (apply Hb; reflexivity).
  destruct (patches_ !! id) as [pv|] eqn:Hpv; simpl.
  2:{ exists None. split; [reflexivity|]. split; [intros k [=]|].
      split; [|reflexivity]. intros _. split; [exact Hin|].
      intros (pv & [=] & _). }
  destruct (trackPoint config pyr_2 pv w0) as [[ok2 w2]|] eqn:Hf; simpl.
  2:{ exists None. split; [reflexivity|]. split; [intros k [=]|].
      split; [|reflexivity]. intros _. split; [exact Hin|].
      intros (pv' & [= <-] & Hlen).
      apply (trackPoint_is_Some config pyr_2 pv w0) in Hlen.
      rewrite Hf in Hlen. destruct Hlen. discriminate. }
  assert (Hlen : optical_flow_levels config < Z.of_nat (length pv)).
  { apply (trackPoint_is_Some config pyr_2 pv w0). rewrite Hf. eauto. }
  assert (Hdef : forall o : option Keypoint,
            Some o = None <->
            in_image (lvl pyr_2 0) (v2_sub t1 off) /\
            ~ exists pv0, Some pv = Some pv0 /\
                          optical_flow_levels config < Z.of_nat (length pv0)).
  { intros o. split; [discriminate|]. intros [_ Hn]. exfalso. apply Hn.
    exists pv. auto. }
  destruct ok2; simpl.
  2:{ exists (Some None). split; [reflexivity|]. split; [intros k [=]|].
      apply Hdef. }
  destruct (trackPoint config pyr_1 pv _) as [[ok1 w1]|] eqn:Hbk; simpl.
  2:{ exfalso.
      match type of Hbk with
      | trackPoint _ _ _ ?w = None =>
          apply (trackPoint_is_Some config pyr_1 pv w) in Hlen
      end.
      rewrite Hbk in Hlen. destruct Hlen. discriminate. }
  destruct ok1; simpl.
  2:{ exists (Some None). split; [reflexivity|]. split; [intros k [=]|].
      apply Hdef. }
  destruct (s_ltb (squaredNorm _) _).
  - eexists (Some (Some _)). split; [reflexivity|].
    split; [intros k [= <-]; split; reflexivity|]. apply Hdef.
  - exists (Some None). split; [reflexivity|]. split; [intros k [=]|].
    apply Hdef.
Qed.



(** Two indices with different ids can be processed in either order. *)
Lemma compute_func_order_perm pyr_1 pyr_2 patches_ depth cam1 cam2 :
  forall l l' : list (Z * Keypoint), l ≡ₚ l' -> NoDup l.*1 ->
  forall result,
    compute_func config calib pyr_1 pyr_2 patches_ depth cam1 cam2 l result =
    compute_func config calib pyr_1 pyr_2 patches_ depth cam1 cam2 l' result.
Proof.
  induction 1 as [|[id kp] l l' Hp IH|[idx kpx] [idy kpy] l|l l' l'' Hp1 IH1 Hp2 IH2];
    intros Hnd result.
  - reflexivity.
  - simpl. simpl in Hnd. apply NoDup_cons in Hnd. destruct Hnd as [_ Hnd].
    destruct (compute_func_body _ _ _ _ _ _ _ _ _ _ _); simpl;
      [apply IH; exact Hnd|reflexivity].
  - simpl in Hnd. apply NoDup_cons in Hnd. destruct Hnd as [Hne _].
    assert (Hxy : idx <> idy).
    { intros ->. apply Hne. left. }
    destruct (compute_func_body_shape pyr_1 pyr_2 patches_ depth cam1 cam2
                idx kpx) as (oox & Hx & _).
    destruct (compute_func_body_shape pyr_1 pyr_2 patches_ depth cam1 cam2
                idy kpy) as (ooy & Hy & _).
    simpl. rewrite (Hx result), (Hy result).
    destruct oox as [ox|], ooy as [oy|]; simpl;
      rewrite ?Hx, ?Hy; simpl; try reflexivity.
    f_equal. destruct ox, oy; try reflexivity.
    apply insert_insert_ne. exact Hxy.
  - rewrite IH1 by exact Hnd. apply IH2.
    assert (Hp' : l.*1 ≡ₚ l'.*1) by (apply fmap_Permutation; exact Hp1).
    rewrite <- Hp'. exact Hnd.
Qed.

(** X5. The loop of [trackPoints] runs under [tbb::parallel_for], in no
    fixed order.  The order does not matter: over a range of distinct ids,
    processing the indices in any order gives the same map, and the same
    failure. *)
Theorem compute_func_order pyr_1 pyr_2 patches_ depth cam1 cam2
    (l l' : list (Z * Keypoint)) result :
  NoDup l.*1 -> l ≡ₚ l' ->
  compute_func config calib pyr_1 pyr_2 patches_ depth cam1 cam2 l result =
  compute_func config calib pyr_1 pyr_2 patches_ depth cam1 cam2 l' result.
Proof.
  intros Hnd Hp. apply compute_func_order_perm; assumption.
Qed.

Lemma compute_func_entries pyr_1 pyr_2 patches_ depth cam1 cam2 :
  forall (l : list (Z * Keypoint)) (result res : gmap Z Keypoint),
  compute_func config calib pyr_1 pyr_2 patches_ depth cam1 cam2 l result =
    Some res ->
  forall id k, res !! id = Some k ->
    result !! id = Some k \/
    exists kp, (id, kp) ∈ l /\ descriptor k = descriptor kp /\
               detected_by_opt_flow k = true.
Proof.
  induction l as [|[id0 kp0] l IH]; intros result res H id k Hk; simpl in H.
  - injection H as <-. auto.
  - destruct (compute_func_body_shape pyr_1 pyr_2 patches_ depth cam1 cam2
                id0 kp0) as (oo & Hbody & Hflag & _).
    rewrite Hbody in H. destruct oo as [o|]; simpl in H; [|discriminate].
    destruct (IH _ _ H id k Hk) as [Hr|(kp & Hin & Hd)].
    + destruct o as [k0|]; [|auto].
      destruct (decide (id0 = id)) as [->|Hne].
      * rewrite lookup_insert_eq in Hr. injection Hr as ->.
        right. exists kp0. split; [left|]. apply Hflag. reflexivity.
      * rewrite lookup_insert_ne in Hr by exact Hne. auto.
    + right. exists kp. split; [right; exact Hin|exact Hd].
Qed.

Lemma trackPoints_entries pyr_1 pyr_2 (m : gmap Z Keypoint) cam1 cam2 s m2 s' :
  trackPoints config calib pyr_1 pyr_2 m cam1 cam2 s = Some (m2, s') ->
  forall id k, m2 !! id = Some k ->
    exists kp, m !! id = Some kp /\ descriptor k = descriptor kp /\
               detected_by_opt_flow k = true.
Proof.
  intros H id k Hk. apply trackPoints_inv in H.
  destruct H as (tr & a & inp & _ & _ & _ & _ & Hc).
  destruct (compute_func_entries _ _ _ _ _ _ _ _ _ Hc id k Hk)
    as [He|(kp & Hin & Hd)].
  - rewrite lookup_empty in He. discriminate.
  - exists kp. split; [apply elem_of_map_to_list; exact Hin|exact Hd].
Qed.

(** X6. What a call of [trackPoints] that returns has done.  Of the state
    it writes one thing only, the depth guess into the bundle the current
    result retains (also when the source map is empty).  And every keypoint
    of the output map is a keypoint of the source map, with the descriptor it
    had there and the mark of optical flow. *)
Theorem trackPoints_effect pyr_1 pyr_2 (keypoint_map_1 : gmap Z Keypoint)
    cam1 cam2 s keypoint_map_2 s' :
  trackPoints config calib pyr_1 pyr_2 keypoint_map_1 cam1 cam2 s =
    Some (keypoint_map_2, s') ->
  (exists tr a inp,
     transforms s = Some tr /\ input_images tr = Some a /\
     store s !! a = Some inp /\
     s' = set_store (<[a := set_in_depth_guess (depth_guess s) inp]> (store s))
                    s) /\
  (forall id k, keypoint_map_2 !! id = Some k ->
     exists kp, keypoint_map_1 !! id = Some kp /\
                descriptor k = descriptor kp /\
                detected_by_opt_flow k = true).
Proof.
  intros H. split.
  - apply trackPoints_inv in H.
    destruct H as (tr & a & inp & Ht & Ha & Hs & Hs' & _).
    exists tr, a, inp. auto.
  - exact (trackPoints_entries _ _ _ _ _ _ _ _ H).
Qed.

End TrackPointsEdges.

(** ** Detection and the epipolar filter *)

Section DetectionEdges.
Context {num : Numeric} {ext : Externals}.
Variable config : VioConfig.
Variable calib : Calibration.

Lemma keypoints_of_meta s s' j :
  result_meta s' = result_meta s ->
  is_Some (keypoints_of s j) -> is_Some (keypoints_of s' j).
Proof.
  unfold result_meta, keypoints_of.
  destruct (transforms s) as [r|]; [|intros _ [x Hx]; discriminate].
  destruct (transforms s') as [r'|]; [|discriminate].
  simpl. intros [= _ _ Hlen] [m Hm].
  apply lookup_lt_is_Some_2. rewrite Hlen. eapply lookup_lt_Some. exact Hm.
Qed.

(** X7. Detection only adds keypoints.  While the id counter does not wrap,
    the map of every camera after [addPoints] contains the map it was
    before: no keypoint is removed, moved or given another descriptor. *)
Theorem addPoints_only_adds bound sA sB :
  (forall img g n lo hi m pts,
     Z.of_nat (length (detectKeypoints img g n lo hi m pts)) <= bound) ->
  tracker_inv config sA ->
  last_keypoint_id sA + bound < 2 ^ 64 ->
  addPoints config calib sA = Some (tt, sB) ->
  forall j m, keypoints_of sA j = Some m ->
    exists m', keypoints_of sB j = Some m' /\ m ⊆ m'.
Proof.
  intros Hbound Hinv Hwrap H j m Hm.
  destruct (addPoints_spec config calib bound sA sB Hbound Hinv Hwrap H)
    as (kd & pyrs & pyr0 & m0 & m0' & _ & _ & _ & _ & _ & _ & _ & _ & _ & _
        & _ & _ & Hold).
  destruct (keypoints_of_meta sA sB j) as [m' Hm'];
    [apply (addPoints_meta config calib _ _ _ H)|eauto|].
  exists m'. split; [exact Hm'|].
  apply map_subseteq_spec. intros id kp Hkp.
  rewrite (Hold j m m' id Hm Hm'); [exact Hkp|].
  destruct Hinv as (_ & _ & _ & Hids).
  apply (Hids j m Hm id). eauto.
Qed.

(** X8. When the detector finds no corner, [addPoints] hands out no id.
    With one camera the state is left as it is.  With more cameras the call
    still runs [trackPoints] on the empty map, which stores the depth guess
    in the bundle of the frame, and that is the only change. *)
Theorem addPoints_no_corners s :
  detect config s = Some ([], s) ->
  ((intrinsics_size calib <= 1)%nat ->
   addPoints config calib s = Some (tt, s)) /\
  ((1 < intrinsics_size calib)%nat ->
   forall pyr1, get_pyramid 1%nat s = Some (pyr1, s) ->
   exists tr a inp,
     transforms s = Some tr /\ input_images tr = Some a /\
     store s !! a = Some inp /\
     addPoints config calib s =
       Some (tt, set_store (<[a := set_in_depth_guess (depth_guess s) inp]>
                              (store s)) s)).
Proof.
  intros Hd.
  assert (Hfacts : exists pyr0 tr a inp,
            get_pyramid 0%nat s = Some (pyr0, s) /\
            transforms s = Some tr /\ input_images tr = Some a /\
            store s !! a = Some inp).
  { pose proof Hd as H. unfold detect in H.
    apply bind_Some in H. destruct H as (kps0 & s0 & Hr & H).
    apply read_keypoints_spec in Hr. destruct Hr as [_ ->].
    apply bind_Some in H. destruct H as (pyr0 & s0 & Hp & H).
    pose proof Hp as Hp'. apply get_pyramid_spec in Hp'.
    destruct Hp' as [-> _].
    unfold get_transforms, deref in H. inv_run H.
    do 4 eexists. split; [exact Hp|]. eauto. }
  destruct Hfacts as (pyr0 & tr & a & inp & Hp0 & Ht & Ha & Hs).
  assert (Hrun : addPoints config calib s =
                 seed_stereo config calib pyr0 ∅ s).
  { unfold addPoints. rewrite run_bind, Hd. cbv beta iota.
    rewrite run_bind, Hp0. cbv beta iota. reflexivity. }
  rewrite Hrun. unfold seed_stereo. split.
  - intros Hn. destruct (Nat.ltb_spec 1 (intrinsics_size calib)); [lia|].
    reflexivity.
  - intros Hn pyr1 Hp1.
    destruct (Nat.ltb_spec 1 (intrinsics_size calib)); [|lia].
    exists tr, a, inp. split; [exact Ht|]. split; [exact Ha|].
    split; [exact Hs|].
    rewrite run_bind, Hp1. cbv beta iota.
    unfold trackPoints. run.
    rewrite (store_depth_guess_run _ s tr a inp Ht Ha Hs). run.
    rewrite map_to_list_empty. simpl. reflexivity.
Qed.

Lemma erase_all_subseteq ids (m : gmap Z Keypoint) : erase_all ids m ⊆ m.
Proof.
  apply map_subseteq_spec. intros id kp. rewrite erase_all_lookup.
  destruct (decide _); [discriminate|auto].
Qed.

(** X9. The filter only removes, and only from camera 1: after
    [filterPoints] the map of camera 1 is contained in the map it was, the
    maps of the other cameras are the same, and so are the patch store, the
    id counter, the store of bundles, the pyramids and the output queue.
    This holds for every id, also where the erase loop narrows the id. *)
Theorem filterPoints_only_removes s s' :
  filterPoints config calib s = Some (tt, s') ->
  (forall j, j <> 1%nat -> keypoints_of s' j = keypoints_of s j) /\
  (forall m1, keypoints_of s 1%nat = Some m1 ->
     exists m1', keypoints_of s' 1%nat = Some m1' /\ m1' ⊆ m1) /\
  result_meta s' = result_meta s /\
  patches s' = patches s /\ last_keypoint_id s' = last_keypoint_id s /\
  store s' = store s /\ pyramid s' = pyramid s /\
  output_queue s' = output_queue s.
Proof.
  intros H.
  assert (Hrest : result_meta s' = result_meta s /\
                  patches s' = patches s /\
                  last_keypoint_id s' = last_keypoint_id s /\
                  store s' = store s /\ pyramid s' = pyramid s /\
                  output_queue s' = output_queue s).
  { split; [apply (filterPoints_meta config calib _ _ _ H)|].
    repeat split;
      match goal with
      | |- ?f s' = ?f s =>
          exact (unchanged_filterPoints config calib f
                   ltac:(by_setters) _ _ _ H)
      end. }
  apply filterPoints_run in H.
  destruct (intrinsics_size calib <? 2)%nat.
  - subst s'. split; [reflexivity|]. split; [|exact Hrest].
    intros m1 Hm1. exists m1. auto.
  - destruct H as (m0 & m1 & H0 & H1 & Hc & Ho & _).
    split; [exact Ho|]. split; [|exact Hrest].
    intros m1' Hm1'. rewrite H1 in Hm1'. injection Hm1' as <-.
    eexists. split; [exact Hc|apply erase_all_subseteq].
Qed.

(** X10. While every id of camera 1 is below [2^31] (the first [2^31]
    detections of a session), the filter does what its loops say: with two
    cameras or more an id that both cameras hold is erased from camera 1
    exactly when an unprojection fails or the epipolar residual exceeds
    [optical_flow_epipolar_error], every other entry stays, and with fewer
    cameras nothing changes. *)
Theorem filterPoints_below_2_31 s s' :
  filterPoints config calib s = Some (tt, s') ->
  (forall m1, keypoints_of s 1%nat = Some m1 -> ids_below (2 ^ 31) m1) ->
  epipolar_filter_effect config calib s s'.
Proof. apply filterPoints_small_ids. Qed.

(** X11. The erase loop of the filter converts the id to [int] and back.
    An id from [2^31] up to [2^64 - 2^31] is the image of no id under that
    conversion, so a keypoint of camera 1 with such an id is never erased,
    whatever the filter finds. *)
Theorem filterPoints_never_erases s s' m1 id kp :
  filterPoints config calib s = Some (tt, s') ->
  keypoints_of s 1%nat = Some m1 -> m1 !! id = Some kp ->
  2 ^ 31 <= id < 2 ^ 64 - 2 ^ 31 ->
  exists m1', keypoints_of s' 1%nat = Some m1' /\ m1' !! id = Some kp.
Proof. apply filterPoints_large_id. Qed.

(** X12. The filter is idempotent: run on the state it has left, it
    returns and changes nothing.  This holds for every id: what a second
    run would erase is among what the first run has erased. *)
Theorem filterPoints_idempotent s s1 :
  filterPoints config calib s = Some (tt, s1) ->
  filterPoints config calib s1 = Some (tt, s1).
Proof.
  intros H. pose proof H as Hrun. apply filterPoints_run in Hrun.
  unfold filterPoints in *.
  destruct (intrinsics_size calib <? 2)%nat; [subst s1; exact H|].
  destruct Hrun as (m0 & m1 & H0 & H1 & Hc & Ho & _).
  set (R := lm_to_remove_of config calib (stereo_pairs m0 m1)) in *.
  set (m1' := erase_all (elements R) m1) in *.
  assert (H0' : keypoints_of s1 0%nat = Some m0) by (rewrite Ho; auto).
  assert (Hfix : erase_all
                   (elements (lm_to_remove_of config calib
                                              (stereo_pairs m0 m1')))
                   m1' = m1').
  { apply map_eq. intros id. rewrite erase_all_lookup.
    destruct (decide _) as [Hin|]; [|reflexivity].
    apply list_elem_of_fmap in Hin. destruct Hin as (x & -> & Hx).
    apply elem_of_elements in Hx. apply elem_of_lm_to_remove in Hx.
    destruct Hx as (kp0 & kp1 & Hk0 & Hk1 & Hrej).
    assert (Hk1' : m1 !! x = Some kp1).
    { pose proof (erase_all_subseteq (elements R) m1) as Hsub.
      rewrite map_subseteq_spec in Hsub. apply Hsub. exact Hk1. }
    symmetry. unfold m1'. rewrite erase_all_lookup.
    rewrite decide_True; [reflexivity|].
    apply list_elem_of_fmap. exists x. split; [reflexivity|].
    apply elem_of_elements. apply elem_of_lm_to_remove. eauto. }
  rewrite run_bind.
  rewrite (proj2 (read_keypoints_spec 1%nat s1 m1' s1)) by auto.
  cbv beta iota. rewrite run_bind.
  rewrite (proj2 (read_keypoints_spec 0%nat s1 m0 s1)) by auto.
  cbv beta iota. rewrite Hfix.
  unfold keypoints_of in Hc.
  destruct (transforms s1) as [r1|] eqn:Ht1; [|discriminate]. simpl in Hc.
  unfold write_keypoints, get_transforms. run. rewrite Ht1. run. rewrite Hc.
  run. f_equal. f_equal.
  rewrite list_insert_id by exact Hc.
  destruct s1 as [t fc lk dg pa tr op py oq st]. simpl in Ht1. subst tr.
  destruct r1. reflexivity.
Qed.

End DetectionEdges.

(** ** Whole frames *)

Section FrameEdges.
Context {num : Numeric} {ext : Externals}.
Variable config : VioConfig.
Variable calib : Calibration.

Lemma build_pyramids_None inp : forall cams i,
  i ∈ cams -> img_data inp !! i = None ->
  build_pyramids config inp cams = None.
Proof.
  induction cams as [|i0 cams IH]; intros i Hin Hi; [inversion Hin|].
  simpl. destruct (img_data inp !! i0) as [v|] eqn:Hv; [|reflexivity].
  simpl. destruct v as [img|]; [|reflexivity]. simpl.
  apply elem_of_cons in Hin. destruct Hin as [->|Hin]; [congruence|].
  rewrite (IH i Hin Hi). reflexivity.
Qed.

(** X13. [processFrame] reads [img_data[i]] for every calibrated camera
    without comparing the two sizes.  A bundle with no null image but with
    fewer images than there are cameras is outside what the code defines: in
    either branch the frame does not return. *)
Theorem processFrame_too_few_images curr_t_ns a s inp :
  store s !! a = Some inp -> None ∉ img_data inp ->
  (length (img_data inp) < intrinsics_size calib)%nat ->
  processFrame config calib curr_t_ns a s = None.
Proof.
  intros Hs Hfull Hlen.
  assert (Hb : build_pyramids config inp (cameras calib) = None).
  { apply (build_pyramids_None inp _ (length (img_data inp))).
    - unfold cameras. apply elem_of_seq. lia.
    - apply lookup_ge_None_2. lia. }
  unfold processFrame, deref. run. cbv beta iota. rewrite Hs. run.
  cbv beta iota.
  destruct (existsb is_null (img_data inp)) eqn:He.
  { exfalso. apply Hfull. apply existsb_is_null. exact He. }
  run. cbv beta iota.
  destruct (t_ns s <? 0).
  - unfold first_frame. run. cbv beta iota. rewrite Hb. reflexivity.
  - unfold next_frame. run. cbv beta iota. rewrite Hb. reflexivity.
Qed.

Lemma build_pyramids_lookup inp : forall cams pyrs,
  build_pyramids config inp cams = Some pyrs ->
  length pyrs = length cams /\
  forall k i, cams !! k = Some i ->
    exists img, img_data inp !! i = Some (Some img) /\
      pyrs !! k = Some (setFromImage img (optical_flow_levels config)).
Proof.
  induction cams as [|i0 cams IH]; intros pyrs H; simpl in H.
  - injection H as <-. split; [reflexivity|]. intros k i Hk. inversion Hk.
  - destruct (img_data inp !! i0) as [v|] eqn:Hv; [|discriminate].
    simpl in H. destruct v as [img|]; [|discriminate]. simpl in H.
    destruct (build_pyramids config inp cams) as [rest|]; [|discriminate].
    simpl in H. injection H as <-.
    destruct (IH rest eq_refl) as [Hlen Hlook].
    split; [simpl; lia|].
    intros [|k] i Hk; simpl in Hk.
    + injection Hk as <-. exists img. auto.
    + apply Hlook. exact Hk.
Qed.

Lemma track_cameras_length : forall cams new_keypoints s res s',
  track_cameras config calib cams new_keypoints s = Some (res, s') ->
  length res = length new_keypoints.
Proof.
  induction cams as [|i cams IH]; intros new_keypoints s res s' H; simpl in H.
  - inv_run H. reflexivity.
  - do 5 (apply bind_Some in H;
          let a := fresh "a" in let s0 := fresh "s" in
          let Hr := fresh "Hrun" in
          destruct H as (a & s0 & Hr & H)).
    apply IH in H. rewrite H. apply length_insert.
Qed.

(** The state in which [addPoints] is entered, in either branch. *)
Lemma frame_branch_shape curr_t_ns a inp s s1 :
  (if t_ns s <? 0 then first_frame config calib curr_t_ns a inp
   else next_frame config calib curr_t_ns a inp) s = Some (tt, s1) ->
  exists sA sB pyrs,
    build_pyramids config inp (cameras calib) = Some pyrs /\
    t_ns sA = curr_t_ns /\ pyramid sA = Some pyrs /\
    old_pyramid sA = (if t_ns s <? 0 then old_pyramid s else pyramid s) /\
    result_meta sA =
      Some (curr_t_ns, Some a,
            if t_ns s <? 0 then intrinsics_size calib
            else length (img_data inp)) /\
    addPoints config calib sA = Some (tt, sB) /\
    filterPoints config calib sB = Some (tt, s1).
Proof.
  intros H.
  destruct (t_ns s <? 0).
  - unfold first_frame, get_transforms in H.
    do 6 (apply bind_Some in H;
          let a := fresh "a" in let s0 := fresh "s" in
          let Hr := fresh "Hrun" in
          destruct H as (a & s0 & Hr & H); inv_run Hr).
    match goal with
    | Hx : transforms _ = Some ?r |- _ => simpl in Hx; injection Hx as <-
    end.
    apply bind_Some in H. destruct H as ([] & sB & Ha & H).
    match type of Ha with addPoints _ _ ?sA = _ => exists sA end.
    match goal with Hb : build_pyramids _ _ _ = Some ?p |- _ =>
      exists sB, p; split; [exact Hb|] end.
    split; [reflexivity|]. split; [reflexivity|]. split; [reflexivity|].
    split; [unfold result_meta; simpl; rewrite length_replicate; reflexivity|].
    auto.
  - unfold next_frame in H.
    do 4 (apply bind_Some in H;
          let a := fresh "a" in let s0 := fresh "s" in
          let Hr := fresh "Hrun" in
          destruct H as (a & s0 & Hr & H); inv_run Hr).
    apply bind_Some in H. destruct H as (new_keypoints & s2 & Ht & H).
    apply bind_Some in H. destruct H as (u & s3 & Hm & H). inv_run Hm.
    apply bind_Some in H. destruct H as ([] & sB & Ha & H).
    match type of Ha with addPoints _ _ ?sA = _ => exists sA end.
    match goal with Hb : build_pyramids _ _ _ = Some ?p |- _ =>
      exists sB, p; split; [exact Hb|] end.
    match type of Ht with
    | track_cameras _ _ _ _ ?s0 = _ =>
        assert (Hkeep : forall {X} (f : State -> X),
                  (forall v s, f (set_store v s) = f s) -> f s2 = f s0)
    end.
    { intros X f F.
      apply (unchanged_track_cameras config calib f
               ltac:(intros; apply store_depth_guess_setter; exact F)
               _ _ _ _ _ Ht). }
    split; [simpl; rewrite (Hkeep _ t_ns) by reflexivity; reflexivity|].
    split; [simpl; rewrite (Hkeep _ pyramid) by reflexivity; reflexivity|].
    split; [simpl; rewrite (Hkeep _ old_pyramid) by reflexivity; reflexivity|].
    split; [|auto].
    unfold result_meta. simpl. rewrite (track_cameras_length _ _ _ _ _ Ht).
    rewrite length_replicate. reflexivity.
Qed.

(** X14. What a fully processed frame leaves.  The stored timestamp is the
    one of the frame, and the result carries it and retains the bundle.  The
    result of a first frame has one keypoint map per calibrated camera, the
    result of a later frame one per image of the bundle.  There is one
    pyramid per calibrated camera, built from the image of that camera; a
    later frame keeps the pyramids it found as the old ones.  The frame
    counter is incremented and the depth state is not touched. *)
Theorem processFrame_result curr_t_ns a s s' inp :
  store s !! a = Some inp -> None ∉ img_data inp ->
  processFrame config calib curr_t_ns a s = Some (tt, s') ->
  t_ns s' = curr_t_ns /\
  result_meta s' =
    Some (curr_t_ns, Some a,
          if t_ns s <? 0 then intrinsics_size calib
          else length (img_data inp)) /\
  (exists pyrs,
     pyramid s' = Some pyrs /\ length pyrs = intrinsics_size calib /\
     forall i, (i < intrinsics_size calib)%nat ->
       exists img, img_data inp !! i = Some (Some img) /\
         pyrs !! i = Some (setFromImage img (optical_flow_levels config))) /\
  old_pyramid s' = (if t_ns s <? 0 then old_pyramid s else pyramid s) /\
  frame_counter s' = to_size_t (frame_counter s + 1) /\
  depth_guess s' = depth_guess s.
Proof.
  intros Hs Hfull H.
  assert (Hd : depth_guess s' = depth_guess s).
  { eapply (unchanged_processFrame config calib depth_guess) in H;
      [exact H|by_setters..]. }
  destruct (processFrame_full config calib curr_t_ns a s s' inp Hs Hfull H)
    as (s1 & s2 & Hb & Hp & ->).
  assert (Hfc : frame_counter s1 = frame_counter s).
  { eapply (unchanged_branch config calib frame_counter) in Hb;
      [exact Hb|by_setters..]. }
  apply frame_branch_shape in Hb.
  destruct Hb as (sA & sB & pyrs & Hbuild & HtA & HpA & HoA & HmA & Ha & Hf).
  assert (Hkeep : forall {X} (f : State -> X),
            (forall v s, f (set_last_keypoint_id v s) = f s) ->
            (forall v s, f (set_patches v s) = f s) ->
            (forall v s, f (set_transforms v s) = f s) ->
            (forall v s, f (set_store v s) = f s) ->
            (forall v s, f (set_output_queue v s) = f s) ->
            f s2 = f sA).
  { intros X f F1 F2 F3 F4 F5.
    rewrite (push_result_setter f config F5 F4 _ _ _ Hp).
    rewrite (unchanged_filterPoints config calib f
               ltac:(intros; apply write_keypoints_setter; exact F3) _ _ _ Hf).
    apply (unchanged_addPoints config calib f F1 F2
             ltac:(intros; apply write_keypoints_setter; exact F3)
             ltac:(intros; apply store_depth_guess_setter; exact F4) _ _ _ Ha). }
  split; [simpl; rewrite (Hkeep _ t_ns) by reflexivity; exact HtA|].
  split.
  { unfold result_meta. simpl.
    rewrite (push_result_setter transforms config
               ltac:(reflexivity) ltac:(reflexivity) _ _ _ Hp).
    change (result_meta s1 = Some (curr_t_ns, Some a,
              if t_ns s <? 0 then intrinsics_size calib
              else length (img_data inp))).
    rewrite (filterPoints_meta config calib _ _ _ Hf).
    rewrite (addPoints_meta config calib _ _ _ Ha). exact HmA. }
  split.
  { exists pyrs. simpl. rewrite (Hkeep _ pyramid) by reflexivity.
    split; [exact HpA|].
    destruct (build_pyramids_lookup inp _ _ Hbuild) as [Hlen Hlook].
    unfold cameras in Hlen, Hlook. rewrite length_seq in Hlen.
    split; [exact Hlen|]. intros i Hi. apply (Hlook i i).
    apply lookup_seq. lia. }
  split; [simpl; rewrite (Hkeep _ old_pyramid) by reflexivity; exact HoA|].
  split; [|exact Hd].
  simpl. f_equal. f_equal.
  rewrite (push_result_setter frame_counter config
             ltac:(reflexivity) ltac:(reflexivity) _ _ _ Hp).
  exact Hfc.
Qed.

(** *** Where the keypoints of a frame come from *)

Lemma track_cameras_entries : forall cams new_keypoints s res s',
  track_cameras config calib cams new_keypoints s = Some (res, s') ->
  forall j mj id k', res !! j = Some mj -> mj !! id = Some k' ->
    (exists m0, new_keypoints !! j = Some m0 /\ m0 !! id = Some k') \/
    (exists m k, keypoints_of s j = Some m /\ m !! id = Some k /\
                 descriptor k' = descriptor k /\
                 detected_by_opt_flow k' = true).
Proof.
  induction cams as [|i cams IH]; intros new_keypoints s res s' H j mj id k'
    Hj Hk; simpl in H.
  - inv_run H. left. eauto.
  - apply bind_Some in H. destruct H as (pyr_1 & s0 & Hp1 & H).
    eapply (unchanged_get_old_pyramid (fun s => s)) in Hp1. simpl in Hp1.
    subst s0.
    apply bind_Some in H. destruct H as (pyr_2 & s0 & Hp2 & H).
    eapply (unchanged_get_pyramid (fun s => s)) in Hp2. simpl in Hp2.
    subst s0.
    apply bind_Some in H. destruct H as (km1 & s0 & Hr & H).
    apply read_keypoints_spec in Hr. destruct Hr as [Hkm1 ->].
    apply bind_Some in H. destruct H as (x & s0 & Hl & H).
    apply lift_Some in Hl. destruct Hl as [_ ->].
    apply bind_Some in H. destruct H as (km2 & s2 & Ht & H).
    assert (Htr : transforms s2 = transforms s).
    { eapply (unchanged_trackPoints config calib transforms) in Ht;
        [exact Ht|by_setters]. }
    destruct (IH _ _ _ _ H j mj id k' Hj Hk)
      as [(m0 & Hm0 & Hid)|(m & k & Hm & Hid & Hd)].
    + apply list_lookup_insert_Some in Hm0.
      destruct Hm0 as [(<- & <- & _)|[_ Hm0]]; [|left; eauto].
      right.
      destruct (trackPoints_entries config calib _ _ _ _ _ _ _ _ Ht id k' Hid)
        as (kp & Hkp & Hd).
      exists km1, kp. auto.
    + right. exists m, k. split; [|auto].
      unfold keypoints_of in *. rewrite <- Htr. exact Hm.
Qed.

Lemma add_corners_new_subseteq pyr0 : forall kd new0 s new1 s' m0,
  add_corners config pyr0 kd new0 s = Some (new1, s') ->
  keypoints_of s 0%nat = Some m0 -> new0 ⊆ m0 ->
  (exists m0', keypoints_of s' 0%nat = Some m0' /\ new1 ⊆ m0') /\
  (forall j, j <> 0%nat -> keypoints_of s' j = keypoints_of s j).
Proof.
  induction kd as [|c kd IH]; intros new0 s new1 s' m0 H Hm0 Hsub; simpl in H.
  - injection H as <- <-. split; [eauto|auto].
  - apply bind_Some in H. destruct H as (newa & sa & Ha & H).
    apply add_corner_spec in Ha.
    destruct Ha as (_ & _ & -> & (m0a & Hm0a & Hm0a') & Hoth & _).
    rewrite Hm0 in Hm0a. injection Hm0a as <-.
    destruct (IH _ _ _ _ _ H Hm0a') as [Hsub' Hoth'].
    { apply insert_mono. exact Hsub. }
    split; [exact Hsub'|].
    intros j Hj. rewrite Hoth', Hoth by exact Hj. reflexivity.
Qed.

(** The keypoints [addPoints] leaves in the cameras other than camera 0:
    those that were there, and in camera 1 the seeds. *)
Lemma addPoints_other_entries sA sB :
  addPoints config calib sA = Some (tt, sB) ->
  forall j mB id k', j <> 0%nat ->
    keypoints_of sB j = Some mB -> mB !! id = Some k' ->
    (exists mA, keypoints_of sA j = Some mA /\ mA !! id = Some k') \/
    (j = 1%nat /\ detected_by_opt_flow k' = true /\
     exists m0' k0, keypoints_of sB 0%nat = Some m0' /\ m0' !! id = Some k0 /\
                    descriptor k' = descriptor k0).
Proof.
  intros H j mB id k' Hj HmB Hk. unfold addPoints in H.
  apply bind_Some in H. destruct H as (kd & s0 & Hd & H).
  apply detect_spec in Hd. destruct Hd as (-> & [m0 Hm0] & _).
  apply bind_Some in H. destruct H as (pyr0 & s0 & Hp & H).
  apply get_pyramid_spec in Hp. destruct Hp as (-> & _).
  apply bind_Some in H. destruct H as (new0 & s1 & Hc & H).
  destruct (add_corners_new_subseteq pyr0 kd ∅ sA new0 s1 m0 Hc Hm0)
    as [(m0' & Hm0' & Hsub) Hoth]; [apply map_empty_subseteq|].
  apply seed_stereo_spec in H. destruct H as [Hst Hmono].
  destruct (Nat.ltb_spec 1 (intrinsics_size calib)) as [Hn|Hn].
  2:{ rewrite (Hmono Hn) in *. left. exists mB. split; [|exact Hk].
      rewrite <- Hoth by exact Hj. exact HmB. }
  destruct (Hst Hn) as (pyrs & pyr1 & new1 & _ & _ & Hcf & H1 & Ho & _).
  destruct (decide (j = 1%nat)) as [->|Hj1].
  2:{ left. exists mB. split; [|exact Hk].
      rewrite <- Hoth by exact Hj. rewrite <- Ho by exact Hj1. exact HmB. }
  rewrite Hoth in H1 by exact Hj. rewrite HmB in H1.
  destruct (keypoints_of sA 1%nat) as [mA|]; [|discriminate].
  simpl in H1. injection H1 as ->.
  apply lookup_union_Some_raw in Hk. destruct Hk as [Hk|[_ Hk]].
  - left. eauto.
  - right. split; [reflexivity|].
    destruct (compute_func_entries config calib _ _ _ _ _ _ _ _ _ Hcf id k' Hk)
      as [He|(kp & Hin & Hd & Hf)].
    { rewrite lookup_empty in He. discriminate. }
    split; [exact Hf|]. exists m0', kp.
    split; [rewrite Ho by lia; exact Hm0'|].
    split; [|exact Hd].
    apply elem_of_map_to_list in Hin.
    rewrite map_subseteq_spec in Hsub. apply Hsub. exact Hin.
Qed.

(** Either branch of [processFrame]: every keypoint it leaves under an id
    handed out before the frame was tracked from the same camera of the
    last result (in the branch of a later frame), and every keypoint under a
    newer id was detected in camera 0 or seeded from it into camera 1. *)
Lemma frame_branch_origin bound curr_t_ns a inp s s1 :
  (forall img g n lo hi m pts,
     Z.of_nat (length (detectKeypoints img g n lo hi m pts)) <= bound) ->
  tracker_inv config s ->
  last_keypoint_id s + bound < 2 ^ 64 ->
  (if t_ns s <? 0 then first_frame config calib curr_t_ns a inp
   else next_frame config calib curr_t_ns a inp) s = Some (tt, s1) ->
  forall j m1 id k', keypoints_of s1 j = Some m1 -> m1 !! id = Some k' ->
    (id < last_keypoint_id s /\ 0 <= t_ns s /\
     exists m k, keypoints_of s j = Some m /\ m !! id = Some k /\
                 descriptor k' = descriptor k /\
                 detected_by_opt_flow k' = true) \/
    (last_keypoint_id s <= id /\
     ((j = 0%nat /\ detected_by_opt_flow k' = false /\
       linear (pose k') = m2_identity) \/
      (j = 1%nat /\ detected_by_opt_flow k' = true /\
       exists m0 k0, keypoints_of s1 0%nat = Some m0 /\ m0 !! id = Some k0 /\
                     descriptor k' = descriptor k0))).
Proof.
  intros Hbound Hinv Hwrap H.
  pose proof Hinv as (_ & _ & _ & Hids).
  assert (HA : exists sA sB,
    tracker_inv config sA /\ last_keypoint_id sA = last_keypoint_id s /\
    (forall j mA id k', keypoints_of sA j = Some mA -> mA !! id = Some k' ->
       0 <= t_ns s /\
       exists m k, keypoints_of s j = Some m /\ m !! id = Some k /\
                   descriptor k' = descriptor k /\
                   detected_by_opt_flow k' = true) /\
    addPoints config calib sA = Some (tt, sB) /\
    filterPoints config calib sB = Some (tt, s1)).
  { destruct (Z.ltb_spec (t_ns s) 0) as [Hneg|Hpos].
    - unfold first_frame, get_transforms in H.
      do 6 (apply bind_Some in H;
            let a := fresh "a" in let s0 := fresh "s" in
            let Hr := fresh "Hrun" in
            destruct H as (a & s0 & Hr & H); inv_run Hr).
      match goal with
      | Hx : transforms _ = Some ?r |- _ => simpl in Hx; injection Hx as <-
      end.
      apply bind_Some in H. destruct H as ([] & sB & Ha & H).
      match type of Ha with addPoints _ _ ?sA = _ => exists sA end.
      exists sB.
      assert (Hempty : forall j m,
                replicate (intrinsics_size calib) empty_Keypoints !! j = Some m ->
                m = ∅).
      { intros j m Hm. apply lookup_replicate_1 in Hm. destruct Hm as [-> _].
        reflexivity. }
      split; [|split; [reflexivity|split; [|auto]]].
      + apply (tracker_inv_frame config s);
          [reflexivity|reflexivity| |exact Hinv].
        intros cam m. unfold keypoints_of. simpl. intros Hm.
        rewrite (Hempty _ _ Hm). apply ids_below_empty.
      + intros j mA id k'. unfold keypoints_of. simpl. intros Hm Hk.
        rewrite (Hempty _ _ Hm) in Hk. rewrite lookup_empty in Hk.
        discriminate.
    - unfold next_frame in H.
      do 4 (apply bind_Some in H;
            let a := fresh "a" in let s0 := fresh "s" in
            let Hr := fresh "Hrun" in
            destruct H as (a & s0 & Hr & H); inv_run Hr).
      apply bind_Some in H. destruct H as (new_keypoints & s2 & Ht & H).
      apply bind_Some in H. destruct H as (u & s3 & Hm & H). inv_run Hm.
      apply bind_Some in H. destruct H as ([] & sB & Ha & H).
      match type of Ha with addPoints _ _ ?sA = _ => exists sA end.
      exists sB.
      assert (Hp2 : patches s2 = patches s).
      { eapply (unchanged_track_cameras config calib patches) in Ht;
          [exact Ht|by_setters]. }
      assert (Hl2 : last_keypoint_id s2 = last_keypoint_id s).
      { eapply (unchanged_track_cameras config calib last_keypoint_id) in Ht;
          [exact Ht|by_setters]. }
      assert (Hent : forall j mA id k',
                new_keypoints !! j = Some mA -> mA !! id = Some k' ->
                exists m k, keypoints_of s j = Some m /\ m !! id = Some k /\
                            descriptor k' = descriptor k /\
                            detected_by_opt_flow k' = true).
      { intros j mA id k' Hj Hk.
        destruct (track_cameras_entries _ _ _ _ _ Ht j mA id k' Hj Hk)
          as [(m0 & Hm0 & Hid)|Hr]; [|exact Hr].
        apply lookup_replicate_1 in Hm0. destruct Hm0 as [-> _].
        unfold empty_Keypoints in Hid. rewrite lookup_empty in Hid.
        discriminate. }
      split; [|split; [exact Hl2|split; [|auto]]].
      + apply (tracker_inv_frame config s); [exact Hp2|exact Hl2| |exact Hinv].
        intros cam m. unfold keypoints_of. simpl. intros Hm id [k' Hk].
        destruct (Hent cam m id k' Hm Hk) as (m0 & k & Hm0 & Hk0 & _).
        apply (Hids cam m0 Hm0). eauto.
      + intros j mA id k'. unfold keypoints_of at 1. simpl. intros Hm Hk.
        split; [exact Hpos|]. exact (Hent j mA id k' Hm Hk). }
  destruct HA as (sA & sB & HinvA & HlA & HentA & Ha & Hf).
  rewrite <- HlA in Hwrap.
  destruct (addPoints_spec config calib bound sA sB Hbound HinvA Hwrap Ha)
    as (kd & pyrs & pyr0 & m0 & m0' & _ & _ & _ & Hm0 & Hm0' & Hwc & _ & _ & _
        & HinvB & _ & _ & Hold).
  pose proof HinvA as (_ & _ & _ & HidsA).
  assert (HB : forall j mB id k',
            keypoints_of sB j = Some mB -> mB !! id = Some k' ->
            (id < last_keypoint_id s /\ 0 <= t_ns s /\
             exists m k, keypoints_of s j = Some m /\ m !! id = Some k /\
                         descriptor k' = descriptor k /\
                         detected_by_opt_flow k' = true) \/
            (last_keypoint_id s <= id /\
             ((j = 0%nat /\ detected_by_opt_flow k' = false /\
               linear (pose k') = m2_identity) \/
              (j = 1%nat /\ detected_by_opt_flow k' = true /\
               exists m0 k0, keypoints_of sB 0%nat = Some m0 /\
                             m0 !! id = Some k0 /\
                             descriptor k' = descriptor k0)))).
  { intros j mB id k' HmB Hk.
    destruct (keypoints_of_meta sB sA j) as [mA HmA];
      [symmetry; apply (addPoints_meta config calib _ _ _ Ha)|eauto|].
    destruct (Z.ltb_spec id (last_keypoint_id s)) as [Hlt|Hge].
    - left. split; [exact Hlt|].
      rewrite (Hold j mA mB id HmA HmB) in Hk by lia.
      exact (HentA j mA id k' HmA Hk).
    - right. split; [exact Hge|].
      destruct (decide (j = 0%nat)) as [->|Hj].
      + left. split; [reflexivity|].
        rewrite Hm0' in HmB. injection HmB as <-.
        destruct (with_corners_new _ kd m0 m0' id k' (HidsA _ _ Hm0) Hwc)
          as (i & c & _ & _ & ->); [lia|exact Hk|].
        split; reflexivity.
      + destruct (addPoints_other_entries sA sB Ha j mB id k' Hj HmB Hk)
          as [(mA' & HmA' & Hk')|Hseed].
        * exfalso. assert (Hlt : id < last_keypoint_id sA);
            [apply (HidsA j mA' HmA'); eauto|lia].
        * right. exact Hseed. }
  apply filterPoints_run in Hf.
  intros j m1 id k' Hm1 Hk.
  destruct (intrinsics_size calib <? 2)%nat; [subst s1; eauto|].
  destruct Hf as (f0 & f1 & Hf0 & Hf1 & Hc & Ho & _).
  assert (H0 : keypoints_of s1 0%nat = keypoints_of sB 0%nat)
    by (apply Ho; lia).
  rewrite H0.
  destruct (decide (j = 1%nat)) as [->|Hj].
  - rewrite Hc in Hm1. injection Hm1 as <-.
    apply (HB 1%nat f1 id k' Hf1).
    pose proof (erase_all_subseteq
                  (elements (lm_to_remove_of config calib (stereo_pairs f0 f1)))
                  f1) as Hsub.
    rewrite map_subseteq_spec in Hsub. apply Hsub. exact Hk.
  - rewrite Ho in Hm1 by exact Hj. exact (HB j m1 id k' Hm1 Hk).
Qed.

Lemma processFrame_origin bound curr_t_ns a s s' inp :
  (forall img g n lo hi m pts,
     Z.of_nat (length (detectKeypoints img g n lo hi m pts)) <= bound) ->
  tracker_inv config s ->
  last_keypoint_id s + bound < 2 ^ 64 ->
  store s !! a = Some inp -> None ∉ img_data inp ->
  processFrame config calib curr_t_ns a s = Some (tt, s') ->
  forall j m' id k', keypoints_of s' j = Some m' -> m' !! id = Some k' ->
    (id < last_keypoint_id s /\ 0 <= t_ns s /\
     exists m k, keypoints_of s j = Some m /\ m !! id = Some k /\
                 descriptor k' = descriptor k /\
                 detected_by_opt_flow k' = true) \/
    (last_keypoint_id s <= id /\
     ((j = 0%nat /\ detected_by_opt_flow k' = false /\
       linear (pose k') = m2_identity) \/
      (j = 1%nat /\ detected_by_opt_flow k' = true /\
       exists m0 k0, keypoints_of s' 0%nat = Some m0 /\ m0 !! id = Some k0 /\
                     descriptor k' = descriptor k0))).
Proof.
  intros Hbound Hinv Hwrap Hs Hfull H.
  destruct (processFrame_full config calib curr_t_ns a s s' inp Hs Hfull H)
    as (s1 & s2 & Hb & Hp & ->).
  assert (Ht2 : transforms s2 = transforms s1).
  { eapply (push_result_setter transforms) in Hp;
      [exact Hp|by_setters|by_setters]. }
  assert (Hk : forall j,
            keypoints_of (set_frame_counter (to_size_t (frame_counter s2 + 1))
                                            s2) j = keypoints_of s1 j).
  { intros j. unfold keypoints_of. simpl. rewrite Ht2. reflexivity. }
  intros j m' id k'. rewrite !Hk.
  apply (frame_branch_origin bound curr_t_ns a inp s s1 Hbound Hinv Hwrap Hb).
Qed.

(** X15. Lost tracks stay lost.  After a fully processed frame (and while
    the id counter does not wrap), a keypoint that a camera holds under an id
    handed out before the frame was tracked from the same camera of the last
    result: the id was in that camera's map before the frame, the keypoint
    has the descriptor it had there, and it carries the mark of optical
    flow.  An id that a camera has lost does not come back to it. *)
Theorem processFrame_survivors bound curr_t_ns a s s' inp :
  (forall img g n lo hi m pts,
     Z.of_nat (length (detectKeypoints img g n lo hi m pts)) <= bound) ->
  tracker_inv config s ->
  last_keypoint_id s + bound < 2 ^ 64 ->
  store s !! a = Some inp -> None ∉ img_data inp ->
  processFrame config calib curr_t_ns a s = Some (tt, s') ->
  forall j m' id k',
    keypoints_of s' j = Some m' -> m' !! id = Some k' ->
    id < last_keypoint_id s ->
    exists m k, keypoints_of s j = Some m /\ m !! id = Some k /\
                descriptor k' = descriptor k /\
                detected_by_opt_flow k' = true.
Proof.
  intros Hbound Hinv Hwrap Hs Hfull H j m' id k' Hm Hk Hid.
  destruct (processFrame_origin bound curr_t_ns a s s' inp Hbound Hinv Hwrap
              Hs Hfull H j m' id k' Hm Hk) as [(_ & _ & Hold)|[Hge _]];
    [exact Hold|lia].
Qed.

(** X16. The keypoints a frame creates.  After a fully processed frame, a
    keypoint under an id handed out in the frame is either in camera 0, an
    identity warp without the mark of optical flow (a detected corner), or
    in camera 1, with the mark and with the descriptor of the keypoint that
    camera 0 holds under the same id (a stereo seed).  No other camera
    receives an id of the frame. *)
Theorem processFrame_fresh bound curr_t_ns a s s' inp :
  (forall img g n lo hi m pts,
     Z.of_nat (length (detectKeypoints img g n lo hi m pts)) <= bound) ->
  tracker_inv config s ->
  last_keypoint_id s + bound < 2 ^ 64 ->
  store s !! a = Some inp -> None ∉ img_data inp ->
  processFrame config calib curr_t_ns a s = Some (tt, s') ->
  forall j m' id k',
    keypoints_of s' j = Some m' -> m' !! id = Some k' ->
    last_keypoint_id s <= id ->
    (j = 0%nat /\ detected_by_opt_flow k' = false /\
     linear (pose k') = m2_identity) \/
    (j = 1%nat /\ detected_by_opt_flow k' = true /\
     exists m0 k0, keypoints_of s' 0%nat = Some m0 /\ m0 !! id = Some k0 /\
                   descriptor k' = descriptor k0).
Proof.
  intros Hbound Hinv Hwrap Hs Hfull H j m' id k' Hm Hk Hid.
  destruct (processFrame_origin bound curr_t_ns a s s' inp Hbound Hinv Hwrap
              Hs Hfull H j m' id k' Hm Hk) as [(Hlt & _)|[_ Hnew]];
    [lia|exact Hnew].
Qed.

(** X17. The stored timestamp doubles as the mark of a tracker that has
    seen no frame: [processFrame] takes the branch of a first frame whenever
    it is negative.  So a frame that finds a negative stored timestamp tracks
    nothing: every keypoint it leaves has an id handed out in the frame.  And
    the frame stores its own timestamp, so after a frame with a negative
    timestamp the next frame starts afresh again. *)
Theorem processFrame_negative_timestamp bound curr_t_ns a s s' inp :
  (forall img g n lo hi m pts,
     Z.of_nat (length (detectKeypoints img g n lo hi m pts)) <= bound) ->
  tracker_inv config s ->
  last_keypoint_id s + bound < 2 ^ 64 ->
  store s !! a = Some inp -> None ∉ img_data inp ->
  processFrame config calib curr_t_ns a s = Some (tt, s') ->
  t_ns s < 0 ->
  t_ns s' = curr_t_ns /\
  forall j m' id, keypoints_of s' j = Some m' -> is_Some (m' !! id) ->
    last_keypoint_id s <= id.
Proof.
  intros Hbound Hinv Hwrap Hs Hfull H Hneg. split.
  - destruct (processFrame_full config calib curr_t_ns a s s' inp Hs Hfull H)
      as (s1 & s2 & Hb & Hp & ->).
    simpl.
    rewrite (push_result_setter t_ns config
               ltac:(reflexivity) ltac:(reflexivity) _ _ _ Hp).
    destruct (frame_branch_shape curr_t_ns a inp s s1 Hb)
      as (sA & sB & pyrs & _ & HtA & _ & _ & _ & Ha & Hf).
    rewrite (unchanged_filterPoints config calib t_ns
               ltac:(by_setters) _ _ _ Hf).
    rewrite (unchanged_addPoints config calib t_ns ltac:(by_setters)
               ltac:(by_setters) ltac:(by_setters) ltac:(by_setters)
               _ _ _ Ha).
    exact HtA.
  - intros j m' id Hm [k' Hk].
    destruct (processFrame_origin bound curr_t_ns a s s' inp Hbound Hinv Hwrap
                Hs Hfull H j m' id k' Hm Hk) as [(_ & Hpos & _)|[Hge _]];
      [lia|exact Hge].
Qed.

(** *** The depth guess of the bundle of the last frame *)

Lemma track_cameras_depth_written tr a0 : forall cams new_keypoints s res s',
  cams <> [] ->
  track_cameras config calib cams new_keypoints s = Some (res, s') ->
  transforms s = Some tr -> input_images tr = Some a0 ->
  exists inp0, store s' !! a0 = Some inp0 /\
               in_depth_guess inp0 = depth_guess s.
Proof.
  induction cams as [|i cams IH]; intros new_keypoints s res s' Hne H Htr Ha0;
    [congruence|].
  simpl in H.
  apply bind_Some in H. destruct H as (pyr_1 & sa & Hr1 & H).
  unfold get_old_pyramid in Hr1. inv_run Hr1.
  apply bind_Some in H. destruct H as (pyr_2 & sb & Hr2 & H).
  unfold get_pyramid in Hr2. inv_run Hr2.
  apply bind_Some in H. destruct H as (km1 & sc & Hr3 & H).
  apply read_keypoints_spec in Hr3. destruct Hr3 as [_ ->].
  apply bind_Some in H. destruct H as (u & sd & Hr4 & H). inv_run Hr4.
  apply bind_Some in H. destruct H as (km2 & sT & Ht & H).
  apply trackPoints_inv in Ht.
  destruct Ht as (tr' & a' & inp' & Htr' & Ha' & Hs' & -> & _).
  rewrite Htr in Htr'. injection Htr' as <-.
  rewrite Ha0 in Ha'. injection Ha' as <-.
  destruct cams as [|i' cams].
  - simpl in H. inv_run H. simpl. rewrite lookup_insert_eq.
    eexists. split; reflexivity.
  - assert (Hne' : i' :: cams <> []) by discriminate.
    apply (IH _ _ _ _ Hne' H); assumption.
Qed.

(** X18. A later frame writes into the bundle of the frame before it.  The
    temporal calls of [trackPoints] run while the last result is still the
    current one, and each stores the depth guess in the bundle that result
    retains.  So after a fully processed later frame (with at least one
    camera) that bundle carries the depth state of the later frame, whatever
    it carried when its own result was pushed. *)
Theorem processFrame_rewrites_previous_depth curr_t_ns a s s' inp tr a0 :
  0 <= t_ns s -> (0 < intrinsics_size calib)%nat ->
  transforms s = Some tr -> input_images tr = Some a0 -> a0 <> a ->
  store s !! a = Some inp -> None ∉ img_data inp ->
  processFrame config calib curr_t_ns a s = Some (tt, s') ->
  exists inp0, store s' !! a0 = Some inp0 /\
               in_depth_guess inp0 = depth_guess s.
Proof.
  intros Hpos Hn Htr Ha0 Hne Hs Hfull H.
  destruct (processFrame_full config calib curr_t_ns a s s' inp Hs Hfull H)
    as (s1 & s2 & Hb & Hp & ->).
  destruct (Z.ltb_spec (t_ns s) 0) as [Hneg|_]; [lia|].
  unfold next_frame in Hb.
  do 4 (apply bind_Some in Hb;
        let a := fresh "a" in let s0 := fresh "s" in
        let Hr := fresh "Hrun" in
        destruct Hb as (a & s0 & Hr & Hb); inv_run Hr).
  apply bind_Some in Hb. destruct Hb as (new_keypoints & sT & Ht & Hb).
  apply bind_Some in Hb. destruct Hb as (u & s3 & Hm & Hb). inv_run Hm.
  apply bind_Some in Hb. destruct Hb as ([] & sB & Hadd & Hf).
  assert (Hcams : cameras calib <> []).
  { unfold cameras. destruct (intrinsics_size calib); [lia|discriminate]. }
  destruct (track_cameras_depth_written tr a0 _ _ _ _ _ Hcams Ht Htr Ha0)
    as (inp0 & Hst & Hd0).
  simpl in Hd0.
  set (f := fun st : State =>
              match transforms st with
              | Some r =>
                  if decide (input_images r = Some a0) then None
                  else in_depth_guess <$> store st !! a0
              | None => None
              end).
  assert (Fw : forall cam m, unchanged f (write_keypoints cam m)).
  { intros cam m st [] st' Hw. unfold write_keypoints, get_transforms in Hw.
    inv_run Hw. unfold f. simpl.
    match goal with Hx : transforms st = Some _ |- _ => rewrite Hx end.
    reflexivity. }
  assert (Fd : forall depth, unchanged f (store_depth_guess depth)).
  { intros depth st [] st' Hw.
    unfold store_depth_guess, get_transforms, deref in Hw. inv_run Hw.
    unfold f. simpl.
    match goal with Hx : transforms st = Some _ |- _ => rewrite Hx end.
    destruct (decide (input_images _ = Some a0)) as [|Hno]; [reflexivity|].
    rewrite lookup_insert_ne; [reflexivity|]. congruence. }
  assert (Fp : unchanged f (push_result config)).
  { intros st [] st' Hw. unfold push_result in Hw.
    apply bind_Some in Hw. destruct Hw as (oq & st0 & Hq & Hw). inv_run Hq.
    destruct (output_queue st) as [q|]; [|inv_run Hw; reflexivity].
    apply bind_Some in Hw. destruct Hw as (fc & st0 & Hfc & Hw). inv_run Hfc.
    destruct (_ =? 0); [discriminate|].
    destruct (_ =? 0); [|inv_run Hw; reflexivity].
    unfold get_transforms, deref in Hw. inv_run Hw. unfold f. simpl.
    match goal with Hx : transforms st = Some _ |- _ => rewrite Hx end.
    destruct (decide (input_images _ = Some a0)) as [|Hno]; [reflexivity|].
    rewrite lookup_insert_ne; [reflexivity|]. congruence. }
  assert (Hf' : f (set_frame_counter (to_size_t (frame_counter s2 + 1)) s2) =
                Some (depth_guess s)).
  { change (f s2 = Some (depth_guess s)).
    rewrite (Fp _ _ _ Hp).
    rewrite (unchanged_filterPoints config calib f Fw _ _ _ Hf).
    rewrite (unchanged_addPoints config calib f
               ltac:(reflexivity) ltac:(reflexivity) Fw Fd _ _ _ Hadd).
    unfold f. simpl.
    rewrite decide_False by congruence.
    rewrite Hst. simpl. rewrite Hd0. reflexivity. }
  unfold f in Hf'. simpl in Hf'. simpl.
  destruct (transforms s2) as [r2|]; [|discriminate].
  destruct (decide (input_images r2 = Some a0)); [discriminate|].
  destruct (store s2 !! a0) as [inp1|]; [|discriminate].
  simpl in Hf'. injection Hf' as Hd. eauto.
Qed.

(** *** The divisor of the emission test *)

(** X19. [frame_counter % optical_flow_skip_frames] with a divisor of zero
    is outside what the code defines: with an output queue attached, a fully
    processed frame does not return. *)
Theorem processFrame_zero_skip curr_t_ns a s inp :
  store s !! a = Some inp -> None ∉ img_data inp ->
  is_Some (output_queue s) ->
  optical_flow_skip_frames config = 0 ->
  processFrame config calib curr_t_ns a s = None.
Proof.
  intros Hs Hfull [q Hq] Hzero.
  destruct (processFrame config calib curr_t_ns a s) as [[[] s']|] eqn:H;
    [|reflexivity].
  exfalso.
  destruct (processFrame_full config calib curr_t_ns a s s' inp Hs Hfull H)
    as (s1 & s2 & Hb & Hp & _).
  assert (Hoq : output_queue s1 = output_queue s).
  { eapply (unchanged_branch config calib output_queue) in Hb;
      [exact Hb|by_setters..]. }
  apply push_result_spec in Hp. destruct Hp as (_ & _ & Hp).
  rewrite Hoq, Hq in Hp. destruct Hp as [Hd _]. apply Hd.
  rewrite Hzero. reflexivity.
Qed.

(** X20. The divisor of the emission test is an [int] converted to the
    type of [frame_counter], [size_t].  A negative
    [optical_flow_skip_frames] becomes a divisor of at least [2^64 - 2^31],
    and (up to that many frames) the only counter it divides is 0: the first
    fully processed frame is pushed and no other. *)
Theorem processFrame_negative_skip curr_t_ns a s s' inp q :
  - 2 ^ 31 <= optical_flow_skip_frames config < 0 ->
  0 <= frame_counter s < 2 ^ 64 - 2 ^ 31 ->
  store s !! a = Some inp -> None ∉ img_data inp ->
  output_queue s = Some q ->
  processFrame config calib curr_t_ns a s = Some (tt, s') ->
  if frame_counter s =? 0
  then exists r, transforms s' = Some r /\
                 output_queue s' = Some (q ++ [Some r])
  else output_queue s' = Some q.
Proof.
  intros Hskip Hfc Hs Hfull Hq H.
  destruct (processFrame_full config calib curr_t_ns a s s' inp Hs Hfull H)
    as (s1 & s2 & Hb & Hp & ->).
  assert (Hoq : output_queue s1 = output_queue s).
  { eapply (unchanged_branch config calib output_queue) in Hb;
      [exact Hb|by_setters..]. }
  assert (Hc : frame_counter s1 = frame_counter s).
  { eapply (unchanged_branch config calib frame_counter) in Hb;
      [exact Hb|by_setters..]. }
  apply push_result_spec in Hp. destruct Hp as (_ & Ht2 & Hp).
  rewrite Hoq, Hq, Hc in Hp. destruct Hp as [_ Hp].
  assert (Hd : to_size_t (optical_flow_skip_frames config) =
               2 ^ 64 + optical_flow_skip_frames config).
  { unfold to_size_t, size_t_modulus. symmetry.
    apply (Z.mod_unique_pos _ _ (-1)); lia. }
  rewrite Hd in Hp. rewrite Z.mod_small in Hp by lia.
  simpl. destruct (frame_counter s =? 0); [|exact Hp].
  destruct Hp as (r & Hr & Hout). exists r. rewrite Ht2. auto.
Qed.

End FrameEdges.

Section LoopEdges.

Context {num : Numeric} {ext : Externals}.
Variable config : VioConfig.
Variable calib : Calibration.

Lemma processingLoop_app rest : forall turns s,
  Forall (fun t : list double * option nat => is_Some t.2) turns ->
  processingLoop config calib (turns ++ rest) s =
  match processingLoop config calib turns s with
  | Some (_, s1) => processingLoop config calib rest s1
  | None => None
  end.
Proof.
  induction turns as [|[pushed [a|]] turns IH]; intros s Hall.
  - reflexivity.
  - apply Forall_cons in Hall. destruct Hall as [_ Hall].
    simpl. unfold drain_depth.
    repeat (rewrite ?run_bind, ?run_modify; cbv beta iota).
    match goal with |- context [deref a ?st] =>
      destruct (deref a st) as [[inp s0]|]; [|reflexivity] end.
    repeat (rewrite ?run_bind, ?run_modify; cbv beta iota).
    match goal with |- context [processFrame ?c ?k ?t ?p ?st] =>
      destruct (processFrame c k t p st) as [[[] s1]|]; [|reflexivity] end.
    cbv beta iota. apply IH, Hall.
  - apply Forall_cons in Hall. destruct Hall as [[x Hx] _]. discriminate.
Qed.

(** X21. The end of the input.  After any number of bundles, the null
    sentinel makes the worker drain the depth channel once more, push the
    null sentinel to the output queue and leave the loop: whatever is queued
    behind the sentinel is never popped.  Unlike [processFrame], which tests
    [output_queue] before it pushes, the loop dereferences it as it is, so
    without an attached queue the end of the input is outside what the code
    defines. *)
Theorem processingLoop_end_of_input turns pushed rest s s1 :
  Forall (fun t : list double * option nat => is_Some t.2) turns ->
  processingLoop config calib turns s = Some (tt, s1) ->
  processingLoop config calib (turns ++ (pushed, None) :: rest) s =
  match output_queue s1 with
  | Some q =>
      Some (tt, set_output_queue (Some (q ++ [None]))
                  (foldl (fun s d => set_depth_guess d s) s1 pushed))
  | None => None
  end.
Proof.
  intros Hall Hrun.
  rewrite processingLoop_app by exact Hall. rewrite Hrun.
  simpl. unfold drain_depth.
  repeat (rewrite ?run_bind, ?run_modify, ?run_gets; cbv beta iota).
  assert (Hq : forall l st, output_queue
                 (foldl (fun s d => set_depth_guess d s) st l) =
               output_queue st).
  { induction l as [|d l IHl]; intros st; [reflexivity|].
    simpl. rewrite IHl. reflexivity. }
  rewrite Hq.
  destruct (output_queue s1) as [q|]; reflexivity.
Qed.

End LoopEdges.
(** * The code on concrete inputs *)

Module ToyRuns.
Import Toy.
#[local] Existing Instance Toy.num.
#[local] Existing Instance Toy.ext.

(** An equation between closed terms, by evaluation of its left-hand side. *)
Ltac by_evaluation :=
  match goal with
  | |- @eq ?T _ ?b => vm_cast_no_check (@eq_refl T b)
  end.

(** A turn that pops the bundle at [a], by evaluation of the store. *)
Ltac ready_bundle_by_evaluation a :=
  match goal with
  | |- pops_ready_bundle _ ?c _ =>
      let v := eval vm_compute in (c !! a) in
      match v with
      | Some ?y =>
          exists a, y; split; [reflexivity|];
          split; [vm_cast_no_check (@eq_refl _ v)|split; simpl; lia]
      end
  end.

(** [has_result] of a closed state, by evaluation. *)
Ltac has_result_by_evaluation :=
  match goal with
  | |- has_result _ ?s =>
      let m := eval vm_compute in (result_meta s) in
      match m with
      | Some (?t, Some ?a, ?k) =>
          let c := eval vm_compute in (bundle_contents s !! a) in
          let p := eval vm_compute in (pyramid s) in
          match c with
          | Some ?cv =>
              match p with
              | Some ?pv =>
                  exists t, a, k, cv, pv;
                  split; [vm_cast_no_check (@eq_refl _ m)|];
                  split; [simpl; lia|];
                  split; [vm_cast_no_check (@eq_refl _ c)|];
                  split; [simpl; lia|];
                  split; [vm_cast_no_check (@eq_refl _ p)|simpl; lia]
              end
          end
      end
  end.

(** [is_Some] of a closed term, by evaluation. *)
Ltac is_Some_by_evaluation :=
  match goal with
  | |- is_Some ?x =>
      let v := eval vm_compute in x in
      match v with
      | Some ?y => exists y; vm_cast_no_check (@eq_refl _ v)
      end
  end.

(** A run that ends normally ends in its final state. *)
Lemma final_run (m : M unit) (s d : State) :
  returns (m s) -> m s = Some (tt, final (m s) d).
Proof.
  unfold returns. destruct (m s) as [[[] s1]|]; simpl; [reflexivity|tauto].
Qed.

(** The drifting stack: level 1 moves the keypoint two columns left at
    level scale, level 0 is invalid; the call fails and the warp has moved
    from (8, 8) to (4, 8). *)
Example trackPoint_fails_and_moves :
  trackPoint cfg pyr_64x48 drift_stack (identity_at (8, 8)) =
  Some (false, identity_at (4, 8)).
Proof. vm_compute. reflexivity. Qed.

Lemma trackPoints_bidirectional_witness :
  let s := tracking 0 ∅ in
  let m1 : gmap Z Keypoint := {[ 0 := kp_at (8, 8) 1 ]} in
  exists tr a inp,
    transforms s = Some tr /\ input_images tr = Some a /\
    store s !! a = Some inp /\
    (forall id kp, m1 !! id = Some kp ->
       exists pv, patches s !! id = Some pv /\
         (Z.to_nat (optical_flow_levels cfg + 1) <= length pv)%nat) /\
    exists keypoint_map_2 s',
      trackPoints cfg (calib 2) pyr_64x48 pyr_64x48 m1 0 1 s =
        Some (keypoint_map_2, s') /\
      forall id kp2, keypoint_map_2 !! id = Some kp2 <->
        exists kp1 pv,
          m1 !! id = Some kp1 /\ patches s !! id = Some pv /\
          bidirectional_match cfg (calib 2) pyr_64x48 pyr_64x48 pv
                              (depth_guess s) 0 1 (pose kp1) (pose kp2) /\
          kp2 = emitted kp1 (pose kp2).
Proof.
  intros s m1.
  assert (Hpatch : forall id kp, m1 !! id = Some kp ->
            exists pv, patches s !! id = Some pv /\
              (Z.to_nat (optical_flow_levels cfg + 1) <= length pv)%nat).
  { intros id kp H. apply lookup_singleton_Some in H. destruct H as [<- _].
    exists good_stack. split; [reflexivity|simpl; lia]. }
  eexists _, 0%nat, _.
  split; [reflexivity|]. split; [reflexivity|]. split; [reflexivity|].
  split; [exact Hpatch|].
  exact (trackPoints_bidirectional cfg (calib 2) pyr_64x48 pyr_64x48 m1 0 1 s
           _ 0%nat _ eq_refl eq_refl eq_refl Hpatch).
Defined.

Lemma trackPoint_coarse_to_fine_witness :
  optical_flow_levels cfg <= 30 /\
  trackPoint cfg pyr_64x48 good_stack (identity_at (8, 8)) =
  track_levels cfg (Z.to_nat (optical_flow_levels cfg + 1)) pyr_64x48
               good_stack (identity_at (8, 8)).
Proof.
  assert (H : optical_flow_levels cfg <= 30) by (simpl; lia).
  split; [exact H|].
  exact (proj1 (trackPoint_coarse_to_fine cfg pyr_64x48 good_stack
                  (identity_at (8, 8)) H)).
Defined.

Lemma trackPoint_rescaling_balanced_witness :
  optical_flow_levels cfg <= 30 /\
  (Z.to_nat (optical_flow_levels cfg + 1) <= length drift_stack)%nat /\
  exists ok w' ws lo,
    trackPoint cfg pyr_64x48 drift_stack (identity_at (8, 8)) = Some (ok, w') /\
    balanced (Z.to_nat (optical_flow_levels cfg + 1)) lo ws /\
    replay ws (identity_at (8, 8)) = w'.
Proof.
  assert (H : optical_flow_levels cfg <= 30) by (simpl; lia).
  assert (Hlen : (Z.to_nat (optical_flow_levels cfg + 1)
                  <= length drift_stack)%nat) by (simpl; lia).
  split; [exact H|]. split; [exact Hlen|].
  destruct (trackPoint_rescaling_balanced cfg pyr_64x48 drift_stack
              (identity_at (8, 8)) H Hlen)
    as (ok & w' & ws & lo & Ht & _ & Hb & _ & _ & Hr & _).
  exists ok, w', ws, lo. auto.
Defined.

Lemma detector_bound img g n lo hi m pts :
  Z.of_nat (length (detectKeypoints img g n lo hi m pts)) <= 2.
Proof.
  change (detectKeypoints img g n lo hi m pts) with (detector img g n lo hi m pts).
  unfold detector.
  apply (Z.le_trans _ (Z.of_nat (length [((g, g), 1); ((2 * g, g), 2)]))).
  - apply Nat2Z.inj_le, length_filter.
  - simpl. lia.
Qed.

Lemma before_detection_inv n : tracker_inv cfg (before_detection n).
Proof.
  apply tracker_inv_fresh; [reflexivity|reflexivity|].
  intros cam m. unfold keypoints_of. simpl. intros H.
  apply lookup_replicate_1 in H. destruct H as [-> _]. reflexivity.
Qed.

Lemma not_null_one {A} (x : A) : None ∉ [Some x].
Proof. intros H. apply existsb_is_null in H. discriminate. Qed.

(** A first frame of a stereo rig from the initial state: two corners are
    detected and get the ids 0 and 1. *)
Lemma patch_store_append_only_witness :
  let s := initial_state cfg (Some []) {[ 0%nat := bundle 0 2 0 ]} in
  let s' := final (processFrame cfg (calib 2) 0 0%nat s) s in
  optical_flow_levels cfg <= 30 /\
  tracker_inv cfg s /\
  last_keypoint_id s + 2 < 2 ^ 64 /\
  processFrame cfg (calib 2) 0 0%nat s = Some (tt, s') /\
  tracker_inv cfg s' /\
  last_keypoint_id s <= last_keypoint_id s' /\
  last_keypoint_id s' = 2.
Proof.
  intros s s'.
  assert (Hl : optical_flow_levels cfg <= 30) by (simpl; lia).
  assert (Hi : tracker_inv cfg s) by apply initial_state_inv.
  assert (Hw : last_keypoint_id s + 2 < 2 ^ 64) by (simpl; lia).
  destruct (patch_store_append_only cfg (calib 2) 2 0 0%nat s Hl
              detector_bound Hi Hw) as [Hrun Hret].
  destruct (Hret (bundle 0 2 0)) as (s1 & H1 & _).
  { lia. }
  { simpl. lia. }
  { intros _. vm_compute. discriminate. }
  { reflexivity. }
  { intros _. split; simpl; lia. }
  { simpl. lia. }
  assert (Hp : processFrame cfg (calib 2) 0 0%nat s = Some (tt, s'))
    by (unfold s'; rewrite H1; reflexivity).
  destruct (Hrun s' Hp) as (Hi' & Hle & _).
  split; [exact Hl|]. split; [exact Hi|]. split; [exact Hw|].
  split; [exact Hp|]. split; [exact Hi'|]. split; [exact Hle|].
  by_evaluation.
Defined.

(** A bundle whose second image is missing, after two depth values. *)
Lemma missing_frame_skipped_witness :
  let s := initial_state cfg (Some []) {[ 0%nat := bundle_missing 0 1 ]} in
  let s1 := at_frame [1; 2] 0%nat (bundle_missing 0 1) s in
  store s !! 0%nat = Some (bundle_missing 0 1) /\
  None ∈ img_data (bundle_missing 0 1) /\
  processFrame cfg (calib 2) 0 0%nat s1 = Some (tt, s1) /\
  processingLoop cfg (calib 2) [([1; 2], Some 0%nat)] s = Some (tt, s1) /\
  frame_counter s1 = frame_counter s /\
  output_queue s1 = output_queue s.
Proof.
  intros s s1.
  assert (Hs : store s !! 0%nat = Some (bundle_missing 0 1)) by reflexivity.
  assert (Hn : None ∈ img_data (bundle_missing 0 1)).
  { apply existsb_is_null. reflexivity. }
  destruct (missing_frame_skipped cfg (calib 2) [1; 2] 0%nat [] s
              (bundle_missing 0 1) Hs Hn)
    as (Hp & Hloop & _ & _ & _ & Hfc & _ & _ & _ & Hoq).
  split; [exact Hs|]. split; [exact Hn|]. split; [exact Hp|].
  split; [exact Hloop|]. split; [exact Hfc|]. exact Hoq.
Defined.

(** Four turns with [optical_flow_skip_frames = 2]; the bundle of the
    second turn misses an image.  The frames with timestamps 0 and 200 are
    pushed, the frame with timestamp 100 is processed and not pushed. *)
Lemma frame_skipping_emission_witness :
  let s := initial_state cfg (Some []) (three_bundles 1) in
  let turns := [([], Some 0%nat); ([], Some 3%nat); ([], Some 1%nat);
                ([], Some 2%nat)] in
  let s' := final (processingLoop cfg (calib 1) turns s) s in
  1 <= optical_flow_skip_frames cfg <= int_max /\
  Forall (pops_bundle (bundle_contents s)) turns /\
  processingLoop cfg (calib 1) turns s = Some (tt, s') /\
  frame_counter s' = 3 /\
  exists rs, output_queue s' = Some (map Some rs) /\
             map res_t_ns rs = [0; 200].
Proof.
  intros s turns s'.
  assert (Hk : 1 <= optical_flow_skip_frames cfg <= int_max)
    by (vm_compute; split; discriminate).
  assert (Hf : Forall (pops_bundle (bundle_contents s)) turns).
  { apply Forall_cons; split;
      [exists 0%nat; split; [reflexivity|is_Some_by_evaluation]|].
    apply Forall_cons; split;
      [exists 3%nat; split; [reflexivity|is_Some_by_evaluation]|].
    apply Forall_cons; split;
      [exists 1%nat; split; [reflexivity|is_Some_by_evaluation]|].
    apply Forall_cons; split;
      [exists 2%nat; split; [reflexivity|is_Some_by_evaluation]|].
    apply Forall_nil_2. }
  assert (Hpr : processed (bundle_contents s) turns =
                [([], Some 0%nat); ([], Some 1%nat); ([], Some 2%nat)])
    by by_evaluation.
  assert (Hfc0 : frame_counter s = 0) by reflexivity.
  assert (Hq0 : output_queue s = Some []) by reflexivity.
  assert (Hts0 : every_nth (optical_flow_skip_frames cfg) (frame_counter s)
                   (map (turn_t_ns (bundle_contents s))
                        [([], Some 0%nat); ([], Some 1%nat); ([], Some 2%nat)])
                 = [0; 200]) by by_evaluation.
  destruct (frame_skipping_emission cfg (calib 1) 2 turns s Hk Hf
              ltac:(rewrite Hfc0; lia)
              ltac:(rewrite Hfc0, Hpr; simpl length; lia))
    as [Hrun Hret].
  destruct Hret as [s1 H1].
  { exact detector_bound. }
  { lia. }
  { simpl. lia. }
  { apply Forall_cons; split; [ready_bundle_by_evaluation 0%nat|].
    apply Forall_cons; split; [ready_bundle_by_evaluation 3%nat|].
    apply Forall_cons; split; [ready_bundle_by_evaluation 1%nat|].
    apply Forall_cons; split; [ready_bundle_by_evaluation 2%nat|].
    apply Forall_nil_2. }
  { simpl. lia. }
  { split; [apply initial_state_inv|]. simpl. lia. }
  assert (Hp : processingLoop cfg (calib 1) turns s = Some (tt, s'))
    by (unfold s'; rewrite H1; reflexivity).
  destruct (Hrun s' Hp) as [Hfc Hq].
  rewrite Hpr in Hfc, Hq. rewrite Hq0, Hts0 in Hq. cbv beta iota in Hq.
  destruct Hq as (rs & Hout & Hts). rewrite app_nil_l in Hout.
  split; [exact Hk|]. split; [exact Hf|]. split; [exact Hp|].
  split; [rewrite Hfc, Hfc0; reflexivity|].
  exists rs. split; [exact Hout|exact Hts].
Defined.

(** *** Stereo seeding *)

(** Detection and seeding in a stereo rig. *)
Lemma stereo_seeding_camera_1_witness :
  let sA := before_detection 2 in
  let sB := final (addPoints cfg (calib 2) sA) sA in
  tracker_inv cfg sA /\
  last_keypoint_id sA + 2 < 2 ^ 64 /\
  (1 < intrinsics_size (calib 2))%nat /\
  addPoints cfg (calib 2) sA = Some (tt, sB) /\
  seeded cfg (calib 2) (depth_guess sA) 1 sA sB.
Proof.
  intros sA sB.
  assert (Hi : tracker_inv cfg sA) by apply before_detection_inv.
  assert (Hw : last_keypoint_id sA + 2 < 2 ^ 64) by (simpl; lia).
  assert (Hn : (1 < intrinsics_size (calib 2))%nat) by (simpl; lia).
  destruct (stereo_seeding_camera_1 cfg (calib 2) 2 sA detector_bound
              Hi Hw Hn) as [Hrun Hret].
  destruct Hret as [s1 H1]; [has_result_by_evaluation|].
  assert (Hp : addPoints cfg (calib 2) sA = Some (tt, sB))
    by (unfold sB; rewrite H1; reflexivity).
  split; [exact Hi|]. split; [exact Hw|]. split; [exact Hn|].
  split; [exact Hp|].
  exact (proj1 (Hrun sB Hp)).
Defined.

(** The match of the keypoint detected at (8, 8) from camera 0 to another
    camera with the same image, at depth 4: the prior is (4, 8), the forward
    track stays there, the backward track returns to (8, 8). *)
Lemma corner_matches (j : nat) :
  bidirectional_match cfg (calib 3) pyr_64x48 pyr_64x48 good_stack 4 0 (S j)
                      (pose (kp_at (8, 8) 1)) (identity_at (4, 8)).
Proof.
  assert (Hoff : prior_offset cfg (calib 3) 4 (8, 8) 0 (S j) = (4, 0)).
  { unfold prior_offset. destruct (decide _) as [[H|H]|_];
      [discriminate|discriminate|reflexivity]. }
  unfold bidirectional_match.
  change (translation (pose (kp_at (8, 8) 1))) with ((8, 8) : @Vector2 num).
  rewrite Hoff. split; [vm_compute; repeat split|].
  split; [vm_compute; reflexivity|].
  exists (identity_at (8, 8)). split; vm_compute; reflexivity.
Qed.

(** In a rig of three cameras the keypoint detected at (8, 8) matches in
    camera 2 as well as in camera 1, but only camera 1 receives it (and the
    keypoint detected at (16, 8)). *)
Lemma seeding_skips_camera_2 :
  let sA := before_detection 3 in
  let sB := final (addPoints cfg (calib 3) sA) sA in
  addPoints cfg (calib 3) sA = Some (tt, sB) /\
  keypoints_of sB 1%nat =
    Some {[ 0 := emitted (kp_at (8, 8) 1) (identity_at (4, 8));
            1 := emitted (kp_at (16, 8) 2) (identity_at (12, 8)) ]} /\
  keypoints_of sB 2%nat = Some ∅ /\
  ~ seeds_every_camera cfg (calib 3) sA sB.
Proof.
  intros sA sB.
  split; [exact (final_run (addPoints cfg (calib 3)) sA sA I)|].
  split; [by_evaluation|].
  split; [by_evaluation|].
  intros H. specialize (H 2%nat ltac:(simpl; lia)).
  specialize (H (replicate 3 pyr_64x48) pyr_64x48 pyr_64x48
                {[ 0 := kp_at (8, 8) 1; 1 := kp_at (16, 8) 2 ]} ∅
                0 (kp_at (8, 8) 1) good_stack
                (emitted (kp_at (8, 8) 1) (identity_at (4, 8)))).
  assert (Hfalse : (∅ : gmap Z Keypoint) !! 0 =
                   Some (emitted (kp_at (8, 8) 1) (identity_at (4, 8)))).
  { apply H.
    - by_evaluation.
    - reflexivity.
    - reflexivity.
    - by_evaluation.
    - by_evaluation.
    - simpl. lia.
    - by_evaluation.
    - by_evaluation.
    - split; [apply (corner_matches 1)|reflexivity]. }
  rewrite lookup_empty in Hfalse. discriminate.
Qed.

(** *** The depth guess *)

Lemma depth_guess_latest_wins_witness :
  let s := initial_state cfg (Some []) {[ 0%nat := bundle 0 2 0 ]} in
  let s0 := at_frame [1; 2; 4] 0%nat (bundle 0 2 0) s in
  let s' := final (processFrame cfg (calib 2) (in_t_ns (bundle 0 2 0)) 0%nat s0)
                  s in
  (1 < intrinsics_size (calib 2))%nat /\
  tracker_inv cfg s /\
  last_keypoint_id s + 2 < 2 ^ 64 /\
  store s !! 0%nat = Some (bundle 0 2 0) /\
  (None ∉ img_data (bundle 0 2 0)) /\
  processFrame cfg (calib 2) (in_t_ns (bundle 0 2 0)) 0%nat s0 = Some (tt, s') /\
  depth_guess s' = 4 /\
  reports_newest_depth [1; 2; 4] s s'.
Proof.
  intros s s0 s'.
  assert (Hn : (1 < intrinsics_size (calib 2))%nat) by (simpl; lia).
  assert (Hi : tracker_inv cfg s) by apply initial_state_inv.
  assert (Hw : last_keypoint_id s + 2 < 2 ^ 64) by (simpl; lia).
  assert (Hs : store s !! 0%nat = Some (bundle 0 2 0)) by reflexivity.
  assert (Hf : None ∉ img_data (bundle 0 2 0)).
  { intros H. apply existsb_is_null in H. discriminate. }
  destruct (depth_guess_latest_wins cfg (calib 2) 2 [1; 2; 4] 0%nat s
              (bundle 0 2 0) detector_bound Hn Hi Hw Hs Hf)
    as (_ & Hrun & Hret).
  destruct Hret as [s1 H1].
  { lia. }
  { intros _. vm_compute. discriminate. }
  { split; simpl; lia. }
  { simpl. lia. }
  assert (Hp : processFrame cfg (calib 2) (in_t_ns (bundle 0 2 0)) 0%nat s0 =
               Some (tt, s'))
    by (unfold s', s0; rewrite H1; reflexivity).
  destruct (Hrun s' Hp) as (Hd & Hr & _).
  split; [exact Hn|]. split; [exact Hi|]. split; [exact Hw|].
  split; [exact Hs|]. split; [exact Hf|]. split; [exact Hp|].
  split; [exact Hd|exact Hr].
Defined.

(** A monocular rig: the depth values 1, 2, 3 are pushed, the frame is
    emitted, and the bundle it retains still carries the depth guess it came
    in with. *)
Lemma mono_frame_reports_stale_depth :
  let s := initial_state cfg (Some []) {[ 0%nat := bundle 0 1 0 ]} in
  let s' := final (processingLoop cfg (calib 1) [([1; 2; 3], Some 0%nat)] s) s in
  processingLoop cfg (calib 1) [([1; 2; 3], Some 0%nat)] s = Some (tt, s') /\
  depth_guess s' = 3 /\
  (exists r, output_queue s' = Some [Some r] /\ input_images r = Some 0%nat) /\
  (exists inp, store s' !! 0%nat = Some inp /\ in_depth_guess inp = 0) /\
  ~ reports_newest_depth [1; 2; 3] s s'.
Proof.
  intros s s'.
  assert (Hout : exists r, output_queue s' = Some [Some r] /\
                           input_images r = Some 0%nat).
  { exists {| res_t_ns := 0; keypoints := [ {[ 0 := kp_at (8, 8) 1;
                                               1 := kp_at (16, 8) 2 ]} ];
              input_images := Some 0%nat |}.
    split; [by_evaluation|reflexivity]. }
  assert (Hst : exists inp, store s' !! 0%nat = Some inp /\
                            in_depth_guess inp = 0).
  { let v := eval vm_compute in (store s' !! 0%nat) in
    match v with
    | Some ?i => exists i; split; [by_evaluation|reflexivity]
    end. }
  split; [exact (final_run (processingLoop cfg (calib 1)
                              [([1; 2; 3], Some 0%nat)]) s s I)|].
  split; [by_evaluation|].
  split; [exact Hout|]. split; [exact Hst|].
  intros H. destruct Hout as (r & Hq & Hr).
  destruct (H [] r 0%nat eq_refl Hq Hr) as (inp & Hi & Hd).
  destruct Hst as (inp0 & Hi0 & Hd0).
  rewrite Hi in Hi0. injection Hi0 as <-.
  rewrite Hd0 in Hd. vm_compute in Hd. discriminate Hd.
Qed.

(** *** The epipolar filter *)

(** The observation of camera 1 at column 2000 cannot be unprojected.  Under
    the id 5 the filter erases it from camera 1. *)
Example filterPoints_erases_id_5 :
  let s := tracking 5 {[ 5 := kp_at (2000, 8) 1 ]} in
  epipolar_reject cfg (calib 2) (kp_at (8, 8) 1) (kp_at (2000, 8) 1) = true /\
  keypoints_of (final (filterPoints cfg (calib 2) s) s) 1%nat = Some ∅.
Proof. split; by_evaluation. Qed.

(** C4. Under the id [2^31] the same observation stays in camera 1,
    against the specification of the filter: the loop variable is an [int],
    the id becomes [-2^31], and [erase] looks for [2^64 - 2^31]. *)
Lemma filterPoints_keeps_id_2_31 :
  let id := 2 ^ 31 in
  let s := tracking id {[ id := kp_at (2000, 8) 1 ]} in
  let s' := final (filterPoints cfg (calib 2) s) s in
  filterPoints cfg (calib 2) s = Some (tt, s') /\
  epipolar_reject cfg (calib 2) (kp_at (8, 8) 1) (kp_at (2000, 8) 1) = true /\
  to_size_t (to_int id) = 2 ^ 64 - 2 ^ 31 /\
  keypoints_of s' 1%nat = Some {[ id := kp_at (2000, 8) 1 ]} /\
  ~ epipolar_filter_effect cfg (calib 2) s s'.
Proof.
  intros id s s'.
  assert (Hk : keypoints_of s' 1%nat = Some {[ id := kp_at (2000, 8) 1 ]})
    by by_evaluation.
  split; [exact (final_run (filterPoints cfg (calib 2)) s s I)|].
  split; [by_evaluation|].
  split; [by_evaluation|]. split; [exact Hk|].
  intros [H _].
  destruct (H ltac:(simpl; lia) {[ id := kp_at (8, 8) 1 ]}
              {[ id := kp_at (2000, 8) 1 ]} eq_refl eq_refl)
    as [(m1' & Hm1' & Hlook) _].
  rewrite Hk in Hm1'. injection Hm1' as <-.
  specialize (Hlook id).
  assert (Hl : ({[ id := kp_at (2000, 8) 1 ]} : gmap Z Keypoint) !! id =
               Some (kp_at (2000, 8) 1)) by apply lookup_singleton_eq.
  assert (Hr : epipolar_filtered cfg (calib 2) {[ id := kp_at (8, 8) 1 ]}
                 {[ id := kp_at (2000, 8) 1 ]} id = None) by by_evaluation.
  rewrite Hl, Hr in Hlook. discriminate Hlook.
Qed.

End ToyRuns.

(** ** Further runs *)

Module ToyEdgeRuns.
Import Toy.
Import ToyEdges.
Import ToyRuns.
#[local] Existing Instance Toy.num.
#[local] Existing Instance Toy.ext.

(** A run that ends normally has a result. *)
Lemma run_returns {A} (m : M A) (s : State) :
  returns (m s) -> exists a s', m s = Some (a, s').
Proof.
  unfold returns. destruct (m s) as [[a s']|]; [eauto|tauto].
Qed.

Lemma tracking_inv : tracker_inv cfg (tracking 0 ∅).
Proof.
  unfold tracker_inv. split; [simpl; lia|]. split; [|split].
  - intros id. simpl. split.
    + intros [pv H]. apply lookup_singleton_Some in H. lia.
    + intros H. assert (id = 0) as -> by lia.
      rewrite lookup_singleton_eq. eauto.
  - intros id pv H. simpl in H. apply lookup_singleton_Some in H.
    destruct H as [_ <-]. reflexivity.
  - intros cam m H. unfold keypoints_of in H. simpl in H.
    destruct cam as [|[|cam]]; simpl in H; [| |discriminate].
    + injection H as <-. intros id [k Hk].
      apply lookup_singleton_Some in Hk. simpl. lia.
    + injection H as <-. intros id [k Hk]. rewrite lookup_empty in Hk.
      discriminate.
Qed.

Lemma tracking_next_inv : tracker_inv cfg tracking_next.
Proof. exact tracking_inv. Qed.

Lemma not_null_two {A} (x y : A) : None ∉ [Some x; Some y].
Proof. intros H. apply existsb_is_null in H. discriminate. Qed.

(** *** Tracking *)

Lemma trackPointAtLevel_success_in_bounds_witness :
  0 < optical_flow_max_iterations cfg /\
  trackPointAtLevel cfg (lvl pyr_64x48 0) (patch true (0, 0))
                    (identity_at (8, 8)) = (true, identity_at (8, 8)) /\
  InBounds (lvl pyr_64x48 0) (translation (identity_at (8, 8)))
           (s_of_int filter_margin) = true.
Proof.
  assert (H0 : 0 < optical_flow_max_iterations cfg) by (simpl; lia).
  assert (H : trackPointAtLevel cfg (lvl pyr_64x48 0) (patch true (0, 0))
                (identity_at (8, 8)) = (true, identity_at (8, 8)))
    by (vm_compute; reflexivity).
  split; [exact H0|]. split; [exact H|].
  exact (trackPointAtLevel_success_in_bounds cfg _ _ _ _ H0 H).
Defined.

Lemma trackPoint_success_witness :
  0 <= optical_flow_levels cfg /\
  0 < optical_flow_max_iterations cfg /\
  trackPoint cfg pyr_64x48 good_stack (identity_at (8, 8)) =
    Some (true, identity_at (8, 8)) /\
  (forall l, (l <= Z.to_nat (optical_flow_levels cfg))%nat ->
     exists p, good_stack !! l = Some p /\ valid p = true) /\
  exists w0,
    InBounds (lvl pyr_64x48 0) (translation w0) (s_of_int filter_margin)
      = true /\
    identity_at (8, 8) = mul_translation w0 (level_scale 0).
Proof.
  assert (Hl : 0 <= optical_flow_levels cfg) by (simpl; lia).
  assert (H0 : 0 < optical_flow_max_iterations cfg) by (simpl; lia).
  assert (H : trackPoint cfg pyr_64x48 good_stack (identity_at (8, 8)) =
              Some (true, identity_at (8, 8))) by (vm_compute; reflexivity).
  split; [exact Hl|]. split; [exact H0|]. split; [exact H|].
  exact (trackPoint_success cfg _ _ _ _ Hl H0 H).
Defined.


Lemma compute_func_order_witness :
  let l := [(0, kp_at (8, 8) 1); (1, kp_at (16, 8) 2)] in
  let l' := [(1, kp_at (16, 8) 2); (0, kp_at (8, 8) 1)] in
  let stacks : gmap Z (list PatchT) :=
    {[ 0 := good_stack; 1 := good_stack ]} in
  NoDup l.*1 /\ l ≡ₚ l' /\
  compute_func cfg (calib 2) pyr_64x48 pyr_64x48 stacks 4 0 1 l ∅ =
  compute_func cfg (calib 2) pyr_64x48 pyr_64x48 stacks 4 0 1 l' ∅.
Proof.
  intros l l' stacks.
  assert (Hnd : NoDup l.*1).
  { simpl. apply NoDup_cons. split.
    - intros H. apply list_elem_of_singleton in H. discriminate.
    - apply NoDup_singleton. }
  assert (Hp : l ≡ₚ l') by apply perm_swap.
  split; [exact Hnd|]. split; [exact Hp|].
  exact (compute_func_order cfg (calib 2) pyr_64x48 pyr_64x48 stacks 4 0 1
           l l' ∅ Hnd Hp).
Defined.

Lemma trackPoints_effect_witness :
  let s := tracking 0 ∅ in
  let m1 : gmap Z Keypoint := {[ 0 := kp_at (8, 8) 1 ]} in
  exists m2 s',
    trackPoints cfg (calib 2) pyr_64x48 pyr_64x48 m1 0 1 s = Some (m2, s') /\
    s' = set_store (<[0%nat := set_in_depth_guess 4 (bundle 0 2 0)]> (store s))
                   s /\
    forall id k, m2 !! id = Some k ->
      exists kp, m1 !! id = Some kp /\ descriptor k = descriptor kp /\
                 detected_by_opt_flow k = true.
Proof.
  intros s m1.
  destruct (run_returns
              (trackPoints cfg (calib 2) pyr_64x48 pyr_64x48 m1 0 1) s I)
    as (m2 & s' & H).
  exists m2, s'. split; [exact H|].
  destruct (trackPoints_effect cfg (calib 2) _ _ _ _ _ _ _ _ H)
    as [(tr & a & inp & Htr & Ha & Hs & Hs') Hk].
  split; [|exact Hk].
  injection Htr as <-. injection Ha as <-. injection Hs as <-. exact Hs'.
Defined.

(** *** Detection and the filter *)

Lemma addPoints_only_adds_witness :
  let sA := tracking 0 ∅ in
  let sB := final (addPoints cfg (calib 2) sA) sA in
  tracker_inv cfg sA /\
  last_keypoint_id sA + 2 < 2 ^ 64 /\
  addPoints cfg (calib 2) sA = Some (tt, sB) /\
  forall j m, keypoints_of sA j = Some m ->
    exists m', keypoints_of sB j = Some m' /\ m ⊆ m'.
Proof.
  intros sA sB.
  assert (Hw : last_keypoint_id sA + 2 < 2 ^ 64) by (simpl; lia).
  pose proof (final_run (addPoints cfg (calib 2)) sA sA I) as H.
  split; [exact tracking_inv|]. split; [exact Hw|]. split; [exact H|].
  exact (addPoints_only_adds cfg (calib 2) 2 sA sB detector_bound
           tracking_inv Hw H).
Defined.

Lemma addPoints_no_corners_witness :
  detect cfg saturated = Some ([], saturated) /\
  (1 < intrinsics_size (calib 2))%nat /\
  get_pyramid 1%nat saturated = Some (pyr_64x48, saturated) /\
  exists tr a inp,
    transforms saturated = Some tr /\ input_images tr = Some a /\
    store saturated !! a = Some inp /\
    addPoints cfg (calib 2) saturated =
      Some (tt, set_store (<[a := set_in_depth_guess (depth_guess saturated)
                                                     inp]>
                             (store saturated)) saturated).
Proof.
  assert (Hd : detect cfg saturated = Some ([], saturated))
    by reflexivity.
  assert (Hn : (1 < intrinsics_size (calib 2))%nat) by (simpl; lia).
  assert (Hp : get_pyramid 1%nat saturated = Some (pyr_64x48, saturated))
    by reflexivity.
  split; [exact Hd|]. split; [exact Hn|]. split; [exact Hp|].
  exact (proj2 (addPoints_no_corners cfg (calib 2) saturated Hd) Hn
               pyr_64x48 Hp).
Defined.

Lemma filterPoints_only_removes_witness :
  let s := tracking 5 {[ 5 := kp_at (2000, 8) 1 ]} in
  let s' := final (filterPoints cfg (calib 2) s) s in
  filterPoints cfg (calib 2) s = Some (tt, s') /\
  (forall j, j <> 1%nat -> keypoints_of s' j = keypoints_of s j) /\
  (forall m1, keypoints_of s 1%nat = Some m1 ->
     exists m1', keypoints_of s' 1%nat = Some m1' /\ m1' ⊆ m1) /\
  patches s' = patches s /\ store s' = store s.
Proof.
  intros s s'.
  pose proof (final_run (filterPoints cfg (calib 2)) s s I) as H.
  destruct (filterPoints_only_removes cfg (calib 2) s s' H)
    as (H0 & H1 & _ & Hp & _ & Hst & _).
  split; [exact H|]. split; [exact H0|]. split; [exact H1|].
  split; [exact Hp|exact Hst].
Defined.

Lemma filterPoints_below_2_31_witness :
  let s := tracking 5 {[ 5 := kp_at (2000, 8) 1 ]} in
  let s' := final (filterPoints cfg (calib 2) s) s in
  filterPoints cfg (calib 2) s = Some (tt, s') /\
  (forall m1, keypoints_of s 1%nat = Some m1 -> ids_below (2 ^ 31) m1) /\
  epipolar_filter_effect cfg (calib 2) s s'.
Proof.
  intros s s'.
  pose proof (final_run (filterPoints cfg (calib 2)) s s I) as H.
  assert (Hb : forall m1, keypoints_of s 1%nat = Some m1 ->
                 ids_below (2 ^ 31) m1).
  { intros m1 Hm. injection Hm as <-. intros id [k Hk].
    apply lookup_singleton_Some in Hk. lia. }
  split; [exact H|]. split; [exact Hb|].
  exact (filterPoints_below_2_31 cfg (calib 2) s s' H Hb).
Defined.

Lemma filterPoints_never_erases_witness :
  let id := 2 ^ 31 in
  let s := tracking id {[ id := kp_at (2000, 8) 1 ]} in
  let s' := final (filterPoints cfg (calib 2) s) s in
  filterPoints cfg (calib 2) s = Some (tt, s') /\
  keypoints_of s 1%nat = Some {[ id := kp_at (2000, 8) 1 ]} /\
  2 ^ 31 <= id < 2 ^ 64 - 2 ^ 31 /\
  exists m1', keypoints_of s' 1%nat = Some m1' /\
              m1' !! id = Some (kp_at (2000, 8) 1).
Proof.
  intros id s s'.
  pose proof (final_run (filterPoints cfg (calib 2)) s s I) as H.
  assert (Hk : keypoints_of s 1%nat = Some {[ id := kp_at (2000, 8) 1 ]})
    by reflexivity.
  assert (Hl : ({[ id := kp_at (2000, 8) 1 ]} : gmap Z Keypoint) !! id =
               Some (kp_at (2000, 8) 1)) by apply lookup_singleton_eq.
  assert (Hr : 2 ^ 31 <= id < 2 ^ 64 - 2 ^ 31) by (unfold id; lia).
  split; [exact H|]. split; [exact Hk|]. split; [exact Hr|].
  exact (filterPoints_never_erases cfg (calib 2) s s' _ id _ H Hk Hl Hr).
Defined.

Lemma filterPoints_idempotent_witness :
  let s := tracking 5 {[ 5 := kp_at (2000, 8) 1 ]} in
  let s1 := final (filterPoints cfg (calib 2) s) s in
  filterPoints cfg (calib 2) s = Some (tt, s1) /\
  filterPoints cfg (calib 2) s1 = Some (tt, s1).
Proof.
  intros s s1.
  pose proof (final_run (filterPoints cfg (calib 2)) s s I) as H.
  split; [exact H|].
  exact (filterPoints_idempotent cfg (calib 2) s s1 H).
Defined.

(** *** Frames *)

Lemma processFrame_too_few_images_witness :
  let s := initial_state cfg (Some []) {[ 0%nat := bundle 0 1 0 ]} in
  store s !! 0%nat = Some (bundle 0 1 0) /\
  (None ∉ img_data (bundle 0 1 0)) /\
  (length (img_data (bundle 0 1 0)) < intrinsics_size (calib 2))%nat /\
  processFrame cfg (calib 2) 0 0%nat s = None.
Proof.
  intros s.
  assert (Hs : store s !! 0%nat = Some (bundle 0 1 0)) by reflexivity.
  assert (Hf : None ∉ img_data (bundle 0 1 0)) by apply not_null_one.
  assert (Hl : (length (img_data (bundle 0 1 0)) < intrinsics_size (calib 2))%nat)
    by (simpl; lia).
  split; [exact Hs|]. split; [exact Hf|]. split; [exact Hl|].
  exact (processFrame_too_few_images cfg (calib 2) 0 0%nat s _ Hs Hf Hl).
Defined.

Lemma processFrame_result_witness :
  let s := initial_state cfg (Some []) {[ 0%nat := bundle 0 2 0 ]} in
  let s' := final (processFrame cfg (calib 2) 0 0%nat s) s in
  store s !! 0%nat = Some (bundle 0 2 0) /\
  (None ∉ img_data (bundle 0 2 0)) /\
  processFrame cfg (calib 2) 0 0%nat s = Some (tt, s') /\
  t_ns s' = 0 /\
  result_meta s' = Some (0, Some 0%nat, 2%nat) /\
  old_pyramid s' = None /\
  frame_counter s' = 1 /\
  depth_guess s' = 1.
Proof.
  intros s s'.
  assert (Hs : store s !! 0%nat = Some (bundle 0 2 0)) by reflexivity.
  assert (Hf : None ∉ img_data (bundle 0 2 0)) by apply not_null_two.
  pose proof (final_run (processFrame cfg (calib 2) 0 0%nat) s s I) as H.
  destruct (processFrame_result cfg (calib 2) 0 0%nat s s' _ Hs Hf H)
    as (Ht & Hm & _ & Ho & Hc & Hd).
  split; [exact Hs|]. split; [exact Hf|]. split; [exact H|].
  split; [exact Ht|]. split; [exact Hm|]. split; [exact Ho|].
  split; [exact Hc|exact Hd].
Defined.

Lemma processFrame_survivors_witness :
  let s := tracking_next in
  let s' := final (processFrame cfg (calib 2) 100 1%nat s) s in
  tracker_inv cfg s /\
  last_keypoint_id s + 2 < 2 ^ 64 /\
  store s !! 1%nat = Some (bundle 100 2 0) /\
  (None ∉ img_data (bundle 100 2 0)) /\
  processFrame cfg (calib 2) 100 1%nat s = Some (tt, s') /\
  forall j m' id k',
    keypoints_of s' j = Some m' -> m' !! id = Some k' ->
    id < last_keypoint_id s ->
    exists m k, keypoints_of s j = Some m /\ m !! id = Some k /\
                descriptor k' = descriptor k /\
                detected_by_opt_flow k' = true.
Proof.
  intros s s'.
  assert (Hw : last_keypoint_id s + 2 < 2 ^ 64) by (simpl; lia).
  assert (Hs : store s !! 1%nat = Some (bundle 100 2 0)) by reflexivity.
  assert (Hf : None ∉ img_data (bundle 100 2 0)) by apply not_null_two.
  pose proof (final_run (processFrame cfg (calib 2) 100 1%nat) s s I) as H.
  split; [exact tracking_next_inv|]. split; [exact Hw|]. split; [exact Hs|].
  split; [exact Hf|]. split; [exact H|].
  exact (processFrame_survivors cfg (calib 2) 2 100 1%nat s s' _
           detector_bound tracking_next_inv Hw Hs Hf H).
Defined.

Lemma processFrame_fresh_witness :
  let s := tracking_next in
  let s' := final (processFrame cfg (calib 2) 100 1%nat s) s in
  tracker_inv cfg s /\
  last_keypoint_id s + 2 < 2 ^ 64 /\
  store s !! 1%nat = Some (bundle 100 2 0) /\
  (None ∉ img_data (bundle 100 2 0)) /\
  processFrame cfg (calib 2) 100 1%nat s = Some (tt, s') /\
  forall j m' id k',
    keypoints_of s' j = Some m' -> m' !! id = Some k' ->
    last_keypoint_id s <= id ->
    (j = 0%nat /\ detected_by_opt_flow k' = false /\
     linear (pose k') = m2_identity) \/
    (j = 1%nat /\ detected_by_opt_flow k' = true /\
     exists m0 k0, keypoints_of s' 0%nat = Some m0 /\ m0 !! id = Some k0 /\
                   descriptor k' = descriptor k0).
Proof.
  intros s s'.
  assert (Hw : last_keypoint_id s + 2 < 2 ^ 64) by (simpl; lia).
  assert (Hs : store s !! 1%nat = Some (bundle 100 2 0)) by reflexivity.
  assert (Hf : None ∉ img_data (bundle 100 2 0)) by apply not_null_two.
  pose proof (final_run (processFrame cfg (calib 2) 100 1%nat) s s I) as H.
  split; [exact tracking_next_inv|]. split; [exact Hw|]. split; [exact Hs|].
  split; [exact Hf|]. split; [exact H|].
  exact (processFrame_fresh cfg (calib 2) 2 100 1%nat s s' _
           detector_bound tracking_next_inv Hw Hs Hf H).
Defined.

Lemma processFrame_negative_timestamp_witness :
  let s := initial_state cfg (Some []) {[ 0%nat := bundle (-5) 2 0 ]} in
  let s' := final (processFrame cfg (calib 2) (-5) 0%nat s) s in
  tracker_inv cfg s /\
  last_keypoint_id s + 2 < 2 ^ 64 /\
  store s !! 0%nat = Some (bundle (-5) 2 0) /\
  (None ∉ img_data (bundle (-5) 2 0)) /\
  processFrame cfg (calib 2) (-5) 0%nat s = Some (tt, s') /\
  t_ns s < 0 /\
  t_ns s' = -5 /\
  forall j m' id, keypoints_of s' j = Some m' -> is_Some (m' !! id) ->
    last_keypoint_id s <= id.
Proof.
  intros s s'.
  assert (Hi : tracker_inv cfg s) by apply initial_state_inv.
  assert (Hw : last_keypoint_id s + 2 < 2 ^ 64) by (simpl; lia).
  assert (Hs : store s !! 0%nat = Some (bundle (-5) 2 0)) by reflexivity.
  assert (Hf : None ∉ img_data (bundle (-5) 2 0)) by apply not_null_two.
  assert (Hn : t_ns s < 0) by (simpl; lia).
  pose proof (final_run (processFrame cfg (calib 2) (-5) 0%nat) s s I) as H.
  split; [exact Hi|]. split; [exact Hw|]. split; [exact Hs|].
  split; [exact Hf|]. split; [exact H|]. split; [exact Hn|].
  exact (processFrame_negative_timestamp cfg (calib 2) 2 (-5) 0%nat s s' _
           detector_bound Hi Hw Hs Hf H Hn).
Defined.

Lemma processFrame_rewrites_previous_depth_witness :
  let s := tracking_next in
  let s' := final (processFrame cfg (calib 2) 100 1%nat s) s in
  0 <= t_ns s /\ (0 < intrinsics_size (calib 2))%nat /\
  (exists tr, transforms s = Some tr /\ input_images tr = Some 0%nat) /\
  store s !! 0%nat = Some (bundle 0 2 0) /\
  store s !! 1%nat = Some (bundle 100 2 0) /\
  (None ∉ img_data (bundle 100 2 0)) /\
  processFrame cfg (calib 2) 100 1%nat s = Some (tt, s') /\
  depth_guess s = 4 /\
  exists inp0, store s' !! 0%nat = Some inp0 /\ in_depth_guess inp0 = 4.
Proof.
  intros s s'.
  assert (Ht : 0 <= t_ns s) by (simpl; lia).
  assert (Hn : (0 < intrinsics_size (calib 2))%nat) by (simpl; lia).
  assert (Hs : store s !! 1%nat = Some (bundle 100 2 0)) by reflexivity.
  assert (Hf : None ∉ img_data (bundle 100 2 0)) by apply not_null_two.
  assert (Hne : 0%nat <> 1%nat) by discriminate.
  pose proof (final_run (processFrame cfg (calib 2) 100 1%nat) s s I) as H.
  split; [exact Ht|]. split; [exact Hn|].
  split; [eexists; split; reflexivity|].
  split; [reflexivity|]. split; [exact Hs|]. split; [exact Hf|].
  split; [exact H|]. split; [reflexivity|].
  exact (processFrame_rewrites_previous_depth cfg (calib 2) 100 1%nat s s'
           _ _ 0%nat Ht Hn eq_refl eq_refl Hne Hs Hf H).
Defined.

(** *** The emission test and the end of the input *)

Lemma processFrame_zero_skip_witness :
  let s := initial_state (cfg_skip 0) (Some []) {[ 0%nat := bundle 0 1 0 ]} in
  store s !! 0%nat = Some (bundle 0 1 0) /\
  (None ∉ img_data (bundle 0 1 0)) /\
  is_Some (output_queue s) /\
  optical_flow_skip_frames (cfg_skip 0) = 0 /\
  processFrame (cfg_skip 0) (calib 1) 0 0%nat s = None.
Proof.
  intros s.
  assert (Hs : store s !! 0%nat = Some (bundle 0 1 0)) by reflexivity.
  assert (Hf : None ∉ img_data (bundle 0 1 0)) by apply not_null_one.
  assert (Hq : is_Some (output_queue s)) by (exists []; reflexivity).
  split; [exact Hs|]. split; [exact Hf|]. split; [exact Hq|].
  split; [reflexivity|].
  exact (processFrame_zero_skip (cfg_skip 0) (calib 1) 0 0%nat s _ Hs Hf Hq
           eq_refl).
Defined.

Lemma processFrame_negative_skip_witness :
  let c := cfg_skip (-1) in
  let s := initial_state c (Some []) {[ 0%nat := bundle 0 1 0 ]} in
  let s' := final (processFrame c (calib 1) 0 0%nat s) s in
  - 2 ^ 31 <= optical_flow_skip_frames c < 0 /\
  0 <= frame_counter s < 2 ^ 64 - 2 ^ 31 /\
  store s !! 0%nat = Some (bundle 0 1 0) /\
  (None ∉ img_data (bundle 0 1 0)) /\
  output_queue s = Some [] /\
  processFrame c (calib 1) 0 0%nat s = Some (tt, s') /\
  exists r, transforms s' = Some r /\ output_queue s' = Some [Some r].
Proof.
  intros c s s'.
  assert (Hk : - 2 ^ 31 <= optical_flow_skip_frames c < 0) by (simpl; lia).
  assert (Hc : 0 <= frame_counter s < 2 ^ 64 - 2 ^ 31) by (simpl; lia).
  assert (Hs : store s !! 0%nat = Some (bundle 0 1 0)) by reflexivity.
  assert (Hf : None ∉ img_data (bundle 0 1 0)) by apply not_null_one.
  assert (Hq : output_queue s = Some []) by reflexivity.
  pose proof (final_run (processFrame c (calib 1) 0 0%nat) s s I) as H.
  split; [exact Hk|]. split; [exact Hc|]. split; [exact Hs|].
  split; [exact Hf|]. split; [exact Hq|]. split; [exact H|].
  exact (processFrame_negative_skip c (calib 1) 0 0%nat s s' _ [] Hk Hc Hs Hf
           Hq H).
Defined.

Lemma processingLoop_end_of_input_witness :
  let s := initial_state cfg (Some []) (three_bundles 1) in
  let turns := [([], Some 0%nat)] in
  let s1 := final (processingLoop cfg (calib 1) turns s) s in
  Forall (fun t : list double * option nat => is_Some t.2) turns /\
  processingLoop cfg (calib 1) turns s = Some (tt, s1) /\
  processingLoop cfg (calib 1)
                 (turns ++ ([7], None) :: [([], Some 1%nat)]) s =
  match output_queue s1 with
  | Some q =>
      Some (tt, set_output_queue (Some (q ++ [None]))
                  (foldl (fun s d => set_depth_guess d s) s1 [7]))
  | None => None
  end.
Proof.
  intros s turns s1.
  assert (Hall : Forall (fun t : list double * option nat => is_Some t.2)
                        turns).
  { apply Forall_cons. split; [exists 0%nat; reflexivity|apply Forall_nil_2]. }
  pose proof (final_run (processingLoop cfg (calib 1) turns) s s I) as H.
  split; [exact Hall|]. split; [exact H|].
  exact (processingLoop_end_of_input cfg (calib 1) turns [7]
           [([], Some 1%nat)] s s1 Hall H).
Defined.

End ToyEdgeRuns.
